(** * WildDuck address directory API (lib/api/addresses.js)

    A shallow embedding of the request handlers of [lib/api/addresses.js]:
    the JavaScript string primitives the handlers use, the document store
    (MongoDB collections [users] and [addresses]) and the forwarding counter
    store (Redis) as explicit state, and every handler as a tree of store
    calls with their callbacks, the way the source nests them. *)

From Stdlib Require Import ZArith Ascii.
From stdpp Require Import base option list strings gmap fin_maps sorting.

Local Open Scope Z_scope.

(** ** JavaScript primitives *)

Module JS.

(** [s.indexOf(c)] for a one-character needle: the first position of [c],
    or [-1]. *)
Fixpoint indexOf (s : string) (c : ascii) : Z :=
  match s with
  | EmptyString => -1
  | String a s' =>
      if Ascii.eqb a c then 0
      else let r := indexOf s' c in if r <? 0 then -1 else r + 1
  end.

(** [s.lastIndexOf(c)]: the last position of [c], or [-1]. *)
Fixpoint lastIndexOf (s : string) (c : ascii) : Z :=
  match s with
  | EmptyString => -1
  | String a s' =>
      let r := lastIndexOf s' c in
      if 0 <=? r then r + 1 else if Ascii.eqb a c then 0 else -1
  end.

Fixpoint take (n : nat) (s : string) : string :=
  match n, s with
  | S n', String a s' => String a (take n' s')
  | _, _ => EmptyString
  end.

Fixpoint drop (n : nat) (s : string) : string :=
  match n, s with
  | S n', String _ s' => drop n' s'
  | _, _ => s
  end.

Definition len (s : string) : Z := Z.of_nat (String.length s).

(** [s.substr(start, length)]: a negative [start] counts from the end of
    the string, a negative [length] gives the empty string. *)
Definition substr (s : string) (start length : Z) : string :=
  let from := if start <? 0 then Z.max (len s + start) 0 else Z.min start (len s) in
  let n := Z.min (Z.max length 0) (len s - from) in
  take (Z.to_nat n) (drop (Z.to_nat from) s).

(** [s.substr(start)]: to the end of the string. *)
Definition substrFrom (s : string) (start : Z) : string :=
  let from := if start <? 0 then Z.max (len s + start) 0 else Z.min start (len s) in
  drop (Z.to_nat from) s.

(** [s.replace(/\./g, '')] *)
Fixpoint removeDots (s : string) : string :=
  match s with
  | EmptyString => EmptyString
  | String a s' => if Ascii.eqb a "." then removeDots s' else String a (removeDots s')
  end.

(** ASCII lower-casing of one character, for the [i] flag of the scheme
    patterns. *)
Definition lowerAscii (a : ascii) : ascii :=
  let n := N_of_ascii a in
  if ((65 <=? n) && (n <=? 90))%N then ascii_of_N (n + 32) else a.

Fixpoint toLowerCase (s : string) : string :=
  match s with
  | EmptyString => EmptyString
  | String a s' => String (lowerAscii a) (toLowerCase s')
  end.

(** [true] when [p] is a prefix of [s], letters compared without case. *)
Fixpoint prefixCI (p s : string) : bool :=
  match p, s with
  | EmptyString, _ => true
  | String a p', String b s' => Ascii.eqb (lowerAscii a) (lowerAscii b) && prefixCI p' s'
  | String _ _, EmptyString => false
  end.

(** [/^smtps?:/i.test(s)] *)
Definition isSmtp (s : string) : bool := prefixCI "smtp:" s || prefixCI "smtps:" s.

(** [/^https?:/i.test(s)] *)
Definition isHttp (s : string) : bool := prefixCI "http:" s || prefixCI "https:" s.

(** [/[^@]\*|\*[^@]/.test(s)]: some [*] has a neighbour that is not [@]. *)
Fixpoint wildcardRe (s : string) : bool :=
  match s with
  | String a ((String b _) as s') =>
      (negb (Ascii.eqb a "@") && Ascii.eqb b "*")
      || (Ascii.eqb a "*" && negb (Ascii.eqb b "@"))
      || wildcardRe s'
  | _ => false
  end.

(** The values a handler meets in request fields, stored fields and
    counter replies.  Numbers are the integers (counts, seconds, limits)
    and [NaN]. *)
Inductive value : Type :=
| Undefined
| Null
| Bool (b : bool)
| Num (z : Z)
| NaN
| Str (s : string)
| Date (t : Z).

Definition truthy (v : value) : bool :=
  match v with
  | Undefined | Null | NaN => false
  | Bool b => b
  | Num z => negb (z =? 0)
  | Str s => negb (String.eqb s "")
  | Date _ => true
  end.

(** [a || b] *)
Definition or (a b : value) : value := if truthy a then a else b.

Definition digit (a : ascii) : option Z :=
  let n := N_of_ascii a in
  if ((48 <=? n) && (n <=? 57))%N then Some (Z.of_N (n - 48)) else None.

Fixpoint digits (acc : Z) (s : string) : option Z :=
  match s with
  | EmptyString => Some acc
  | String a s' =>
      match digit a with
      | Some d => digits (10 * acc + d) s'
      | None => None
      end
  end.

(** The double nearest to the integer [z]: integers up to [2^53] in
    magnitude are doubles themselves, a larger one is rounded to 53
    significant bits, a tie going to the even mantissa. *)
Definition toDouble (z : Z) : Z :=
  let m := Z.abs z in
  if m <=? 2 ^ 53 then z
  else
    let e := Z.log2 m - 52 in
    let q := m / 2 ^ e in
    let r := m mod 2 ^ e in
    let half := 2 ^ (e - 1) in
    let q' :=
      if r <? half then q
      else if half <? r then q + 1
      else if Z.even q then q else q + 1 in
    Z.sgn z * (q' * 2 ^ e).

(** [Number(s)] on the texts a counter store returns for [GET]: the
    decimal digits of an integer, with or without a sign in front, read
    as the nearest double.  Numerals in another notation (a fraction, an
    exponent, a radix prefix, blanks around the digits) and magnitudes
    beyond the range of a double are outside this model, which answers
    [NaN] to any other text. *)
Definition parseNumber (s : string) : value :=
  match s with
  | EmptyString => Num 0
  | String "-" ((String _ _) as s') =>
      match digits 0 s' with Some z => Num (toDouble (- z)) | None => NaN end
  | _ => match digits 0 s with Some z => Num (toDouble z) | None => NaN end
  end.

(** [Number(v)] *)
Definition Number (v : value) : value :=
  match v with
  | Undefined => NaN
  | Null => Num 0
  | Bool b => Num (if b then 1 else 0)
  | Num z => Num z
  | NaN => NaN
  | Str s => parseNumber s
  | Date t => Num t
  end.

(** [v >= 0] *)
Definition geZero (v : value) : bool :=
  match Number v with
  | Num z => 0 <=? z
  | _ => false
  end.

(** [String(o)] of a plain object. *)
Definition objectToString : string := "[object Object]".

End JS.

(** The canonical lookup key of a normalized address, as every handler
    computes it:
    [address.substr(0, address.indexOf('@')).replace(/\./g, '') +
     address.substr(address.indexOf('@'))]. *)
Definition addrview (address : string) : string :=
  JS.removeDots (JS.substr address 0 (JS.indexOf address "@"))
  +:+ JS.substrFrom address (JS.indexOf address "@").

(** [withDots l l']: the text [l'] is the text [l] with dots put in, any
    number of them at any place; the characters of [l], its own dots
    among them, stay in their order. *)
Inductive withDots : string → string → Prop :=
| withDots_end : withDots "" ""
| withDots_dot l l' : withDots l l' → withDots l (String "." l')
| withDots_keep c l l' : withDots l l' → withDots (String c l) (String c l').

(** ** Documents and the stores *)

(** An [ObjectID], a 96-bit number. *)
Abbreviation oid := N.

Definition hexDigit (n : N) : ascii :=
  if (n <? 10)%N then ascii_of_N (48 + n) else ascii_of_N (87 + n).

Fixpoint hex (digits : nat) (n : N) : string :=
  match digits with
  | O => EmptyString
  | S digits' => hex digits' (n / 16) +:+ String (hexDigit (n mod 16)) EmptyString
  end.

(** [id.toString()]: the 24 hexadecimal digits of the id. *)
Definition toString (id : oid) : string := hex 24 id.

Definition hexValue (a : ascii) : N :=
  let n := N_of_ascii a in
  if (n <? 58)%N then n - 48 else n - 87.

(** [new ObjectID(s)] on a string of lower-case hexadecimal digits. *)
Definition ObjectID (s : string) : oid :=
  foldl (λ acc a, 16 * acc + hexValue a)%N 0%N (String.list_ascii_of_string s).

Inductive targetType : Type := mail | relay | http.

(** One entry of a stored [targets] array:
    [{ id, type, value }] and, for a resolved mail target, [user]. *)
Record target : Type := Target {
  t_id : oid;
  t_type : targetType;
  t_value : string;
  t_user : option oid
}.

(** A document of the [users] collection, as far as these handlers read
    and write it: the default [address] (absent for a new user). *)
Record userdoc : Type := UserDoc {
  u_address : option string
}.

(** A document of the [addresses] collection, without its [_id] (the key
    it is stored under).  [user] is set on a user address, [targets] on a
    forwarded one. *)
Record addrdoc : Type := AddrDoc {
  d_user : option oid;
  d_address : string;
  d_addrview : string;
  d_targets : option (list target);
  d_forwards : JS.value;
  d_autoreply : option (gmap string JS.value);
  d_created : Z
}.

(** The [$set] document of an update of a forwarded address.  The source
    builds it as one object with the keys [forwards], [targets] and
    ['autoreply.' + key]; [upd_autoreply !! key] is the value under
    ['autoreply.' + key]. *)
Record setDoc : Type := Updates {
  upd_forwards : option JS.value;
  upd_autoreply : gmap string JS.value;
  upd_targets : option (list target)
}.

(** The state outside the handlers: both collections, the counter store
    (value and remaining seconds, [None] for a key without expiry), the
    clock read by [new Date()] and the [ObjectID] generator. *)
Record world : Type := World {
  users : gmap oid userdoc;
  addresses : gmap oid addrdoc;
  counters : gmap string (string * option Z);
  clock : Z;
  nextId : oid
}.

Definition set_users (f : gmap oid userdoc → gmap oid userdoc) (w : world) : world :=
  World (f (users w)) (addresses w) (counters w) (clock w) (nextId w).

Definition set_addresses (f : gmap oid addrdoc → gmap oid addrdoc) (w : world) : world :=
  World (users w) (f (addresses w)) (counters w) (clock w) (nextId w).

Definition set_nextId (n : oid) (w : world) : world :=
  World (users w) (addresses w) (counters w) (clock w) n.

Inductive query : Type :=
| ById (id : oid)
| ByAddrview (key : string).

(** The documents whose [addrview] is [key], in the order of the
    collection. *)
Definition withAddrview (key : string) (m : gmap oid addrdoc) : list (oid * addrdoc) :=
  List.filter (λ p, String.eqb (d_addrview p.2) key) (map_to_list m).

(** [collection('addresses').findOne(query)] *)
Definition findAddress (q : query) (m : gmap oid addrdoc) : option (oid * addrdoc) :=
  match q with
  | ById id => (λ d, (id, d)) <$> m !! id
  | ByAddrview key => head (withAddrview key m)
  end.

(** [collection('addresses').find({ addrview: { $in: addrlist } }).toArray()] *)
Definition findAddresses (addrlist : list string) (m : gmap oid addrdoc) : list (oid * addrdoc) :=
  List.filter (λ p, existsb (String.eqb (d_addrview p.2)) addrlist) (map_to_list m).

(** The message of the store's duplicate-key error. *)
Definition duplicateKey : string := "E11000 duplicate key error".

(** Modelled from the spec: the uniqueness constraint of the directory store
    on the canonical key (the index declarations of the repository are not
    part of this file).  [insertOne] takes the next [ObjectID] as [_id] and
    fails, storing nothing, when a document with the same [addrview] or the
    same [_id] is present. *)
Definition insertAddress (d : addrdoc) (w : world) : world * (string + oid) :=
  let id := nextId w in
  let w' := set_nextId (id + 1)%N w in
  match findAddress (ByAddrview (d_addrview d)) (addresses w), addresses w !! id with
  | None, None => (set_addresses (insert id d) w', inr id)
  | _, _ => (w', inl duplicateKey)
  end.

(** [collection('users').findOneAndUpdate({ _id }, { $set: { address } })]:
    the callback's [r.value] is the document, or nothing when no user has
    this id. *)
Definition setUserAddress (id : oid) (address : string) (w : world)
  : world * option userdoc :=
  match users w !! id with
  | Some _ =>
      let u := UserDoc (Some address) in
      (set_users (insert id u) w, Some u)
  | None => (w, None)
  end.

(** [$set] on one address document: only the keys of the update change. *)
Definition applySet (u : setDoc) (d : addrdoc) : addrdoc :=
  AddrDoc (d_user d) (d_address d) (d_addrview d)
    (match upd_targets u with Some ts => Some ts | None => d_targets d end)
    (match upd_forwards u with Some f => f | None => d_forwards d end)
    (if decide (upd_autoreply u = ∅) then d_autoreply d
     else Some (upd_autoreply u ∪ default ∅ (d_autoreply d)))
    (d_created d).

(** [collection('addresses').findOneAndUpdate({ _id }, { $set: updates },
    { returnOriginal: false })], when the store carries the call out.  A
    store that refuses the call answers with an error instead, which is
    the [fault] of the call in the environment; MongoDB servers before 5.0
    refuse in this way every update whose [$set] document is empty. *)
Definition updateAddress (id : oid) (u : setDoc) (w : world)
  : world * option addrdoc :=
  match addresses w !! id with
  | Some d =>
      let d' := applySet u d in
      (set_addresses (insert id d') w, Some d')
  | None => (w, None)
  end.

(** [collection('addresses').deleteOne({ _id })]: the callback's
    [r.deletedCount]. *)
Definition deleteAddress (id : oid) (w : world) : world * Z :=
  match addresses w !! id with
  | Some _ => (set_addresses (delete id) w, 1)
  | None => (w, 0)
  end.

(** The reply of [redis.multi().get(key).ttl(key).exec()]: one
    [[err, value]] pair per command.  [TTL] answers [-2] for a missing
    key and [-1] for a key without expiry. *)
Definition counterReply (key : string) (w : world) : list (JS.value * JS.value) :=
  match counters w !! key with
  | Some (v, ttl) => [(JS.Null, JS.Str v); (JS.Null, JS.Num (default (-1) ttl))]
  | None => [(JS.Null, JS.Null); (JS.Null, JS.Num (-2))]
  end.

(** ** Responses and handlers *)

(** The [limits.forwards] object of a forwarded-address response. *)
Record forwardLimits : Type := ForwardLimits {
  allowed : JS.value;
  used : JS.value;
  ttl : JS.value
}.

(** The JSON bodies the handlers send with [res.json]. *)
Inductive response : Type :=
| ErrorJson (error : string) (code : option string)
| CreatedJson (success : bool) (id : oid)
| SuccessJson (success : bool)
| UserAddressJson (id : oid) (address : string) (user : oid) (created : Z)
| ForwardedJson (id : oid) (address : string) (targets : option (list string))
    (limits : forwardLimits) (autoreply : gmap string JS.value) (created : Z).

(** What the callback of a store call receives: [err], or the result. *)
Definition callback (A : Type) : Type := string + A.

(** A handler from the point where its request has passed the schema: the
    store calls it makes, each with its callback, down to the response.
    [Throw] is an exception no handler catches. *)
Inductive action : Type :=
| Respond (status : Z) (body : response)
| Throw (message : string)
| NewObjectID (k : oid → action)
| NewDate (k : Z → action)
| UsersFindOne (id : oid) (k : callback (option userdoc) → action)
| UsersFindOneAndUpdate (id : oid) (address : string)
    (k : callback (option userdoc) → action)
| AddressesFindOne (q : query) (k : callback (option (oid * addrdoc)) → action)
| AddressesFind (addrlist : list string) (k : callback (list (oid * addrdoc)) → action)
| AddressesInsertOne (d : addrdoc) (k : callback oid → action)
| AddressesFindOneAndUpdate (id : oid) (u : setDoc)
    (k : callback (option addrdoc) → action)
| AddressesDeleteOne (id : oid) (k : callback Z → action)
| RedisGetTtl (key : string) (k : option (list (JS.value * JS.value)) → action).

Inductive outcome : Type :=
| Reply (status : Z) (body : response)
| Uncaught (message : string).

(** The store calls of the handlers.  No handler makes the same call
    twice in one request. *)
Inductive storeCall : Type :=
| usersFindOne
| usersFindOneAndUpdate
| addressesFindOne
| addressesFind
| addressesInsertOne
| addressesFindOneAndUpdate
| addressesDeleteOne
| redisExec.

(** What happens around one store call: the writes of other clients that
    land before it, and whether the call itself fails (with the error's
    message).  A failed call leaves the store as it is. *)
Record step : Type := Step {
  interfere : world → world;
  fault : option string
}.

Definition quiet : step := Step id None.

(** The surroundings of a request: a [step] for each store call. *)
Definition environment : Type := storeCall → step.

(** No failure and no other client. *)
Definition calm : environment := λ _, quiet.

(** Store calls that can only fail, with no other client writing. *)
Definition faults (f : storeCall → option string) : environment :=
  λ c, Step id (f c).

(** Another client's writes [f] land just before the insert. *)
Definition lateWrite (f : world → world) : environment :=
  λ c, match c with
       | addressesInsertOne => Step f None
       | _ => quiet
       end.

Definition call {A : Type} (op : world → world * A) (e : step) (w : world)
  : world * callback A :=
  let w1 := interfere e w in
  match fault e with
  | Some message => (w1, inl message)
  | None => let '(w2, r) := op w1 in (w2, inr r)
  end.

Definition callInsert (d : addrdoc) (e : step) (w : world) : world * callback oid :=
  let w1 := interfere e w in
  match fault e with
  | Some message => (w1, inl message)
  | None => insertAddress d w1
  end.

(** Runs a handler against the world in an environment. *)
Fixpoint run (a : action) (env : environment) (w : world) : world * outcome :=
  match a with
  | Respond status body => (w, Reply status body)
  | Throw message => (w, Uncaught message)
  | NewObjectID k => run (k (nextId w)) env (set_nextId (nextId w + 1)%N w)
  | NewDate k => run (k (clock w)) env w
  | UsersFindOne id k =>
      let '(w', r) := call (λ w, (w, users w !! id)) (env usersFindOne) w in
      run (k r) env w'
  | UsersFindOneAndUpdate id address k =>
      let '(w', r) := call (setUserAddress id address) (env usersFindOneAndUpdate) w in
      run (k r) env w'
  | AddressesFindOne q k =>
      let '(w', r) :=
        call (λ w, (w, findAddress q (addresses w))) (env addressesFindOne) w in
      run (k r) env w'
  | AddressesFind addrlist k =>
      let '(w', r) :=
        call (λ w, (w, findAddresses addrlist (addresses w))) (env addressesFind) w in
      run (k r) env w'
  | AddressesInsertOne d k =>
      let '(w', r) := callInsert d (env addressesInsertOne) w in
      run (k r) env w'
  | AddressesFindOneAndUpdate id u k =>
      let '(w', r) := call (updateAddress id u) (env addressesFindOneAndUpdate) w in
      run (k r) env w'
  | AddressesDeleteOne id k =>
      let '(w', r) := call (deleteAddress id) (env addressesDeleteOne) w in
      run (k r) env w'
  | RedisGetTtl key k =>
      let w1 := interfere (env redisExec) w in
      match fault (env redisExec) with
      | Some _ => run (k None) env w1
      | None => run (k (Some (counterReply key w1))) env w1
      end
  end.

(** The response of every failed store call. *)
Definition databaseError (message : string) : action :=
  Respond 200 (ErrorJson ("MongoDB Error: " +:+ message) (Some "InternalDatabaseError")).

Definition quote : string := String (ascii_of_N 34) EmptyString.

(** The response to an address whose key is taken. *)
Definition addressExists : response :=
  ErrorJson "This email address already exists" (Some "AddressExists").

(** The response to a target that is the forwarding address itself. *)
Definition forwardToSelf (target : string) : response :=
  ErrorJson ("Can not forward to self " +:+ quote +:+ target +:+ quote)
    (Some "InputValidationError").

(** The response to the deletion of a user's default address. *)
Definition deleteMainError : response :=
  ErrorJson "Trying to delete main address. Set a new main address first" None.

(** The response to the promotion of the address that is the default. *)
Definition alreadyMainError : response :=
  ErrorJson "Selected address is already the main email address for the user" None.

(** The response to a wildcard outside [*@domain] and [user@*]. *)
Definition invalidWildcard : response :=
  ErrorJson
    ("Invalid wildcard address, use " +:+ quote +:+ "*@domain" +:+ quote
     +:+ " or " +:+ quote +:+ "user@*" +:+ quote) None.

(** A value that tests false in a condition: absent, or the empty
    string. *)
Definition falsy (s : option string) : bool :=
  match s with
  | Some s => String.eqb s ""
  | None => true
  end.

(** The validated parameters ([result.value]) of each route. *)
Record postUserAddressParams : Type := PostUserAddressParams {
  pu_user : oid;
  pu_address : string;
  pu_main : bool;
  pu_allowWildcard : bool
}.

Record userAddressParams : Type := UserAddressParams {
  ua_user : oid;
  ua_address : oid;
  ua_main : bool
}.

(** [pf_autoreply] is [result.value.autoreply], [pf_rawAutoreply] is
    [req.params.autoreply], whose keys the handler tests with [in]. *)
Record postForwardedParams : Type := PostForwardedParams {
  pf_address : string;
  pf_targets : option (list string);
  pf_forwards : JS.value;
  pf_allowWildcard : bool;
  pf_autoreply : option (gmap string JS.value);
  pf_rawAutoreply : gmap string JS.value
}.

Record putForwardedParams : Type := PutForwardedParams {
  uf_address : oid;
  uf_targets : option (list string);
  uf_forwards : JS.value;
  uf_autoreply : option (gmap string JS.value);
  uf_rawAutoreply : gmap string JS.value
}.

Definition field (o : gmap string JS.value) (key : string) : JS.value :=
  default JS.Undefined (o !! key).

(** [key in o] for an object [o].  The handlers apply [in] to
    [req.params.autoreply], which can also be a string: see
    [sentAutoreply]. *)
Definition hasKey (o : gmap string JS.value) (key : string) : bool :=
  bool_decide (is_Some (o !! key)).

(** The three [if] blocks both forwarded-address handlers run on
    [result.value.autoreply]: a field sent empty is stored as [''], and
    an emptied [text] or [html] empties the other one when that has no
    content of its own. *)
Definition autoreplyFields (autoreply raw : gmap string JS.value)
  : gmap string JS.value :=
  let a1 :=
    if negb (JS.truthy (field autoreply "subject")) && hasKey raw "subject"
    then <["subject" := JS.Str ""]> autoreply
    else autoreply in
  let a2 :=
    if negb (JS.truthy (field a1 "text")) && hasKey raw "text"
    then
      let a := <["text" := JS.Str ""]> a1 in
      if negb (JS.truthy (field a "html")) then <["html" := JS.Str ""]> a else a
    else a1 in
  if negb (JS.truthy (field a2 "html")) && hasKey raw "html"
  then
    let a := <["html" := JS.Str ""]> a2 in
    if negb (JS.truthy (field a "text")) then <["text" := JS.Str ""]> a else a
  else a2.

(** [new Map(addressList.filter(addr => addr.user).map(addr =>
    [addr.addrview, addr.user]))]: a later entry replaces an earlier one
    with the same key. *)
Definition userMap (addressList : list (oid * addrdoc)) : gmap string oid :=
  foldl (λ m p,
           match d_user p.2 with
           | Some u => <[d_addrview p.2 := u]> m
           | None => m
           end) ∅ addressList.

(** The [forEach] of [resolveUsers]: a target carries the [addrview]
    cached for it (mail targets only) and gets the [user] of the address
    registered under that key. *)
Definition bindUsers (map : gmap string oid) (targets : list (target * option string))
  : list target :=
  (λ p : target * option string,
     match p.2 with
     | Some addrv =>
         if negb (String.eqb addrv "") then
           match map !! addrv with
           | Some u => Target (t_id p.1) (t_type p.1) (t_value p.1) (Some u)
           | None => p.1
           end
         else p.1
     | None => p.1
     end) <$> targets.

(** [result && result[i] && result[i][1]] on the reply of the counter
    store ([undefined] when [exec] failed). *)
Definition replyValue (result : option (list (JS.value * JS.value))) (i : nat)
  : JS.value :=
  match result with
  | None => JS.Undefined
  | Some l =>
      match l !! i with
      | Some entry => entry.2
      | None => JS.Undefined
      end
  end.

Section Handlers.

(** [tools.normalizeAddress], [config.maxForwards] and
    [consts.MAX_FORWARDS] are defined outside this file. *)
Variable normalizeAddress : string → string.
Variable maxForwards : JS.value.
Variable MAX_FORWARDS : JS.value.

(** The wildcard checks of both create handlers, after the [+] check:
    the response that rejects the address, if any. *)
Definition wildcardError (address : string) (allowWildcard main : bool)
  : option response :=
  let wcpos := JS.indexOf address "*" in
  if 0 <=? wcpos then
    if negb allowWildcard then Some (ErrorJson "Address can not contain *" None)
    else if JS.wildcardRe JS.objectToString
            || negb (wcpos =? JS.lastIndexOf address "*")
    then Some invalidWildcard
    else if main then Some (ErrorJson "Main address can not contain *" None)
    else None
  else None.

(** [POST /users/:user/addresses] *)
Definition PostUserAddress (p : postUserAddressParams) : action :=
  let user := pu_user p in
  let main := pu_main p in
  let address := normalizeAddress (pu_address p) in
  if 0 <=? JS.indexOf address "+" then
    Respond 200 (ErrorJson "Address can not contain +" None)
  else
    match wildcardError address (pu_allowWildcard p) main with
    | Some body => Respond 200 body
    | None =>
      UsersFindOne user (λ r,
        match r with
        | inl err => databaseError err
        | inr None =>
            Respond 200 (ErrorJson "This user does not exist" (Some "UserNotFound"))
        | inr (Some userData) =>
          AddressesFindOne (ByAddrview (addrview address)) (λ r,
            match r with
            | inl err => databaseError err
            | inr (Some _) => Respond 200 addressExists
            | inr None =>
              NewDate (λ now,
                AddressesInsertOne
                  (AddrDoc (Some user) address (addrview address) None
                     JS.Undefined None now)
                  (λ r,
                    match r with
                    | inl err => databaseError err
                    | inr insertId =>
                        let done := Respond 200 (CreatedJson true insertId) in
                        if falsy (u_address userData) || main then
                          UsersFindOneAndUpdate user address (λ _, done)
                        else done
                    end))
            end)
        end)
    end.

(** [PUT /users/:user/addresses/:address] *)
Definition PutUserAddress (p : userAddressParams) : action :=
  let user := ua_user p in
  let address := ua_address p in
  let main := ua_main p in
  if negb main then Respond 200 (ErrorJson "Cannot unset main status" None)
  else
    UsersFindOne user (λ r,
      match r with
      | inl err => databaseError err
      | inr None =>
          Respond 200 (ErrorJson "This user does not exist" (Some "UserNotFound"))
      | inr (Some userData) =>
        AddressesFindOne (ById address) (λ r,
          match r with
          | inl err => databaseError err
          | inr None =>
              Respond 404 (ErrorJson "Invalid or unknown email address identifier"
                             (Some "AddressNotFound"))
          | inr (Some (_, addressData)) =>
            match d_user addressData with
            | None =>
                Respond 404 (ErrorJson "Invalid or unknown email address identifier"
                               (Some "AddressNotFound"))
            | Some owner =>
              if negb (owner =? user)%N then
                Respond 404 (ErrorJson "Invalid or unknown email address identifier"
                               (Some "AddressNotFound"))
              else if bool_decide (Some (d_address addressData) = u_address userData) then
                Respond 200 alreadyMainError
              else if (0 <=? JS.indexOf (d_address addressData) "*") && main then
                Respond 200 (ErrorJson "Can not set wildcard address as default" None)
              else
                UsersFindOneAndUpdate user (d_address addressData) (λ r,
                  match r with
                  | inl err => databaseError err
                  | inr value => Respond 200 (SuccessJson (bool_decide (is_Some value)))
                  end)
            end
          end)
      end).

(** [DELETE /users/:user/addresses/:address] *)
Definition DeleteUserAddress (p : userAddressParams) : action :=
  let user := ua_user p in
  let address := ua_address p in
  UsersFindOne user (λ r,
    match r with
    | inl err => databaseError err
    | inr None =>
        Respond 200 (ErrorJson "This user does not exist" (Some "UserNotFound"))
    | inr (Some userData) =>
      AddressesFindOne (ById address) (λ r,
        match r with
        | inl err => databaseError err
        | inr None =>
            Respond 404 (ErrorJson "Invalid or unknown email address identifier"
                           (Some "AddressNotFound"))
        | inr (Some (_, addressData)) =>
          match d_user addressData with
          | None => Throw "TypeError: Cannot read property 'toString' of undefined"
          | Some owner =>
            if negb (owner =? user)%N then
              Respond 404 (ErrorJson "Invalid or unknown email address identifier"
                             (Some "AddressNotFound"))
            else if bool_decide (Some (d_address addressData) = u_address userData) then
              Respond 200 deleteMainError
            else
              AddressesDeleteOne address (λ r,
                match r with
                | inl err => databaseError err
                | inr deletedCount =>
                    Respond 200 (SuccessJson (negb (deletedCount =? 0)))
                end)
          end
        end)
    end).

(** The [for] loop over [targets] of both forwarded-address handlers.
    [self] is the [addrview] of the address that forwards; [seen] holds
    the targets already replaced by their descriptors, each with the
    [addrview] cached for it, and [addrlist] the keys to resolve. *)
Fixpoint targetsLoop (self : string) (targets : list string)
    (seen : list (target * option string)) (addrlist : list string)
    (k : list (target * option string) → list string → action) : action :=
  match targets with
  | [] => k seen addrlist
  | target :: rest =>
    if negb (JS.isSmtp target) && negb (JS.isHttp target)
       && (0 <=? JS.indexOf target "@")
    then
      let addr := normalizeAddress target in
      let addrv := addrview addr in
      if String.eqb addrv self then
        Respond 200 (forwardToSelf target)
      else
        NewObjectID (λ id,
          targetsLoop self rest (seen ++ [(Target id mail target None, Some addrv)])
            (addrlist ++ [addrv]) k)
    else if JS.isSmtp target then
      NewObjectID (λ id,
        targetsLoop self rest (seen ++ [(Target id relay target None, None)]) addrlist k)
    else if JS.isHttp target then
      NewObjectID (λ id,
        targetsLoop self rest (seen ++ [(Target id http target None, None)]) addrlist k)
    else
      Respond 200 (ErrorJson ("Unknown target type " +:+ quote +:+ target +:+ quote)
                     (Some "InputValidationError"))
  end.

(** [resolveUsers]: one lookup for all mail targets, none when there is
    no mail target. *)
Definition resolveUsers (targets : list (target * option string))
    (addrlist : list string) (done : list target → action) : action :=
  match addrlist with
  | [] => done (fst <$> targets)
  | _ =>
    AddressesFind addrlist (λ r,
      match r with
      | inl err => databaseError err
      | inr addressList => done (bindUsers (userMap addressList) targets)
      end)
  end.

(** [POST /addresses/forwarded] *)
Definition PostForwardedAddress (p : postForwardedParams) : action :=
  let address := normalizeAddress (pf_address p) in
  let addrview' := addrview address in
  let forwards := pf_forwards p in
  let autoreply :=
    match pf_autoreply p with
    | Some a => autoreplyFields a (pf_rawAutoreply p)
    | None => {["enabled" := JS.Bool false]}
    end in
  match pf_targets p with
  | None => Throw "TypeError: Cannot read property 'length' of undefined"
  | Some targets =>
    targetsLoop addrview' targets [] [] (λ targets addrlist,
      if 0 <=? JS.indexOf address "+" then
        Respond 200 (ErrorJson "Address can not contain +" None)
      else
        match wildcardError address (pf_allowWildcard p) false with
        | Some body => Respond 200 body
        | None =>
          AddressesFindOne (ByAddrview addrview') (λ r,
            match r with
            | inl err => databaseError err
            | inr (Some _) => Respond 200 addressExists
            | inr None =>
              resolveUsers targets addrlist (λ targets,
                NewDate (λ now,
                  AddressesInsertOne
                    (AddrDoc None address (addrview address) (Some targets)
                       forwards (Some autoreply) now)
                    (λ r,
                      match r with
                      | inl err => databaseError err
                      | inr insertId => Respond 200 (CreatedJson true insertId)
                      end)))
            end)
        end)
  end.

(** [PUT /addresses/forwarded/:address] *)
Definition PutForwardedAddress (p : putForwardedParams) : action :=
  let address := uf_address p in
  let updates :=
    Updates
      (if JS.truthy (uf_forwards p) then Some (uf_forwards p) else None)
      (match uf_autoreply p with
       | Some a => autoreplyFields a (uf_rawAutoreply p)
       | None => ∅
       end)
      None in
  AddressesFindOne (ById address) (λ r,
    match r with
    | inl err => databaseError err
    | inr None =>
        Respond 404 (ErrorJson "Invalid or unknown email address identifier"
                       (Some "AddressNotFound"))
    | inr (Some (id, addressData)) =>
      match d_targets addressData, d_user addressData with
      | Some _, None =>
        let update (u : setDoc) :=
          AddressesFindOneAndUpdate id u (λ r,
            match r with
            | inl err => databaseError err
            | inr value => Respond 200 (SuccessJson (bool_decide (is_Some value)))
            end) in
        match uf_targets p with
        | None => update updates
        | Some targets =>
          targetsLoop (d_addrview addressData) targets [] [] (λ targets addrlist,
            resolveUsers targets addrlist (λ targets,
              match targets with
              | [] => update updates
              | _ =>
                  update (Updates (upd_forwards updates) (upd_autoreply updates)
                            (Some targets))
              end))
        end
      | _, _ =>
          Respond 404 (ErrorJson "Invalid or unknown email address identifier"
                         (Some "AddressNotFound"))
      end
    end).

(** The counter lookup and the response for a forwarded address, the same
    in [GET /addresses/forwarded/:address] and
    [GET /addresses/resolve/:address]. *)
Definition forwardedInfo (id : oid) (addressData : addrdoc)
    (key : string) : action :=
  RedisGetTtl key (λ result,
    let forwards :=
      JS.or (JS.or (JS.Number (d_forwards addressData)) maxForwards) MAX_FORWARDS in
    let forwardsSent := JS.or (JS.Number (replyValue result 0)) (JS.Num 0) in
    let forwardsTtl := JS.or (JS.Number (replyValue result 1)) (JS.Num 0) in
    Respond 200
      (ForwardedJson id (d_address addressData)
         (List.map t_value <$> d_targets addressData)
         (ForwardLimits forwards forwardsSent
            (if JS.geZero forwardsTtl then forwardsTtl else JS.Bool false))
         (default {["enabled" := JS.Bool false]} (d_autoreply addressData))
         (d_created addressData))).

(** ['wdf:' + addressData._id.toString()]: the key of the forwarding
    counter of an address. *)
Definition counterKey (id : oid) : string := "wdf:" +:+ toString id.

(** [GET /addresses/forwarded/:address] *)
Definition GetForwardedAddress (address : oid) : action :=
  AddressesFindOne (ById address) (λ r,
    match r with
    | inl err => databaseError err
    | inr None =>
        Respond 404 (ErrorJson "Invalid or unknown address" (Some "AddressNotFound"))
    | inr (Some (id, addressData)) =>
      match d_targets addressData, d_user addressData with
      | Some _, None => forwardedInfo id addressData (counterKey id)
      | _, _ =>
          Respond 404 (ErrorJson "Invalid or unknown address" (Some "AddressNotFound"))
      end
    end).

(** [GET /addresses/resolve/:address]: the parameter is an address
    string, or the 24 hexadecimal digits of an id. *)
Definition GetAddressInfo (address : string) : action :=
  let query :=
    if 0 <=? JS.indexOf address "@" then
      ByAddrview (addrview (normalizeAddress address))
    else ById (ObjectID address) in
  AddressesFindOne query (λ r,
    match r with
    | inl err => databaseError err
    | inr None =>
        Respond 404 (ErrorJson "Invalid or unknown address" (Some "AddressNotFound"))
    | inr (Some (id, addressData)) =>
      match d_user addressData with
      | Some user =>
          Respond 200
            (UserAddressJson id (d_address addressData) user (d_created addressData))
      | None => forwardedInfo id addressData (counterKey id)
      end
    end).

End Handlers.

(** Modelled from the spec: [tools.normalizeAddress] is defined in
    [lib/tools.js], outside this file.  The spec has the normalization
    fold the case of the whole string; this is that folding on ASCII
    letters.  The handlers above take the normalization as a parameter,
    and this instance gives them concrete requests to run on. *)
Definition lowerCaseAddress (raw : string) : string := JS.toLowerCase raw.

(** A target the loop files under [mail]. *)
Definition isMailTarget (target : string) : bool :=
  negb (JS.isSmtp target) && negb (JS.isHttp target) && (0 <=? JS.indexOf target "@").

(** A target the loop can file at all: a mail address, a relay or a web
    hook. *)
Definition knownTarget (target : string) : bool :=
  isMailTarget target || JS.isSmtp target || JS.isHttp target.

(** The world after the [ObjectID] generator has handed out [n] ids. *)
Definition afterIds (n : N) (w : world) : world := set_nextId (nextId w + n)%N w.

(** The world after [n] targets have been given their ids. *)
Definition afterTargets (targets : list string) (w : world) : world :=
  afterIds (N.of_nat (length targets)) w.

Section Targets.

Variable normalizeAddress : string → string.

(** The key under which a mail target is compared and resolved. *)
Definition targetKey (target : string) : string :=
  addrview (normalizeAddress target).

(** A mail target with the key [self] of the forwarding address. *)
Definition selfTarget (self target : string) : bool :=
  isMailTarget target && String.eqb (targetKey target) self.

(** A target the loop passes: of a known kind, and not the forwarding
    address itself. *)
Definition passes (self target : string) : bool :=
  knownTarget target && negb (selfTarget self target).

(** What the loop leaves in [targets] and in the cache for a list it
    passes, the first id being [n]. *)
Fixpoint descriptors (n : oid) (targets : list string)
  : list (target * option string) :=
  match targets with
  | [] => []
  | target :: rest =>
      (if isMailTarget target then (Target n mail target None, Some (targetKey target))
       else if JS.isSmtp target then (Target n relay target None, None)
       else (Target n http target None, None))
      :: descriptors (n + 1)%N rest
  end.

(** What the loop leaves in [addrlist]. *)
Definition mailKeys (targets : list string) : list string :=
  targetKey <$> List.filter isMailTarget targets.

End Targets.

(** The targets [resolveUsers] hands on: bound to the users found in the
    collection [m], or as they are when there is no mail target. *)
Definition boundTargets (m : gmap oid addrdoc)
    (targets : list (target * option string)) (addrlist : list string) : list target :=
  match addrlist with
  | [] => fst <$> targets
  | _ => bindUsers (userMap (findAddresses addrlist m)) targets
  end.

(** The [$set] document a [PUT /addresses/forwarded/:address] request
    arrives at when its targets pass the loop: [m] is the collection the
    mail targets are resolved in, [n] the first id the loop hands out. *)
Definition putSetDoc (normalizeAddress : string → string) (p : putForwardedParams)
    (m : gmap oid addrdoc) (n : oid) : setDoc :=
  Updates
    (if JS.truthy (uf_forwards p) then Some (uf_forwards p) else None)
    (match uf_autoreply p with
     | Some a => autoreplyFields a (uf_rawAutoreply p)
     | None => ∅
     end)
    (match uf_targets p with
     | None => None
     | Some ts =>
         match boundTargets m (descriptors normalizeAddress n ts)
                 (mailKeys normalizeAddress ts) with
         | [] => None
         | targets => Some targets
         end
     end).


(** The targets of a request, none when the field is absent. *)
Definition targetsOf (targets : option (list string)) : list string :=
  default [] targets.






(** The response to a store call that failed on the uniqueness
    constraint. *)
Definition duplicateKeyError : response :=
  ErrorJson ("MongoDB Error: " +:+ duplicateKey) (Some "InternalDatabaseError").

(** ** A small directory to run requests on *)

Definition alice : oid := 1%N.

Definition aliceMain : addrdoc :=
  AddrDoc (Some alice) "alice@x.org" "alice@x.org" None JS.Undefined None 10.

Definition aliceAlias : addrdoc :=
  AddrDoc (Some alice) "a.b@x.org" "ab@x.org" None JS.Undefined None 20.

Definition infoTargets : list target :=
  [Target 30%N mail "alice@x.org" (Some alice); Target 31%N relay "smtp://mx.y.org:25" None].

Definition infoAutoreply : gmap string JS.value :=
  {[ "enabled" := JS.Bool true; "subject" := JS.Str "Away";
     "text" := JS.Str "Back soon"; "html" := JS.Str "<p>Back soon</p>" ]}.

Definition info : addrdoc :=
  AddrDoc None "info@x.org" "info@x.org" (Some infoTargets) (JS.Num 50)
    (Some infoAutoreply) 30.

(** One user with a main address and an alias, and one forwarded
    address; no forwarding counter yet. *)
Definition directory : world :=
  World {[ alice := UserDoc (Some "alice@x.org") ]}
    {[ 10%N := aliceMain; 11%N := aliceAlias; 12%N := info ]}
    ∅ 1000 100%N.

(** Another client registers [abc@x.org] under the id [50]. *)
Definition otherClient : world → world :=
  set_addresses
    (insert 50%N (AddrDoc (Some 2%N) "abc@x.org" "abc@x.org" None JS.Undefined None 999)).

(** The counter store cannot be reached; every other call succeeds. *)
Definition trackerDown : environment :=
  faults (λ c, match c with redisExec => Some "Connection is closed." | _ => None end).

(** ** The remaining handlers and what the handlers keep *)

(** [DELETE /addresses/forwarded/:address] *)
Definition DeleteForwardedAddress (address : oid) : action :=
  AddressesFindOne (ById address) (λ r,
    match r with
    | inl err => databaseError err
    | inr None =>
        Respond 404 (ErrorJson "Invalid or unknown email address identifier"
                       (Some "AddressNotFound"))
    | inr (Some (_, addressData)) =>
      match d_targets addressData, d_user addressData with
      | Some _, None =>
        AddressesDeleteOne address (λ r,
          match r with
          | inl err => databaseError err
          | inr deletedCount => Respond 200 (SuccessJson (negb (deletedCount =? 0)))
          end)
      | _, _ =>
          Respond 404 (ErrorJson "Invalid or unknown email address identifier"
                         (Some "AddressNotFound"))
      end
    end).

(** The response of the address routes to an id that is no address of
    the right kind. *)
Definition addressNotFound : response :=
  ErrorJson "Invalid or unknown email address identifier" (Some "AddressNotFound").

Definition userNotFound : response :=
  ErrorJson "This user does not exist" (Some "UserNotFound").

(** A handler that answers on every path: no path ends in an exception. *)
Fixpoint replies (a : action) : Prop :=
  match a with
  | Respond _ _ => True
  | Throw _ => False
  | NewObjectID k => ∀ id, replies (k id)
  | NewDate k => ∀ now, replies (k now)
  | UsersFindOne _ k => ∀ r, replies (k r)
  | UsersFindOneAndUpdate _ _ k => ∀ r, replies (k r)
  | AddressesFindOne _ k => ∀ r, replies (k r)
  | AddressesFind _ k => ∀ r, replies (k r)
  | AddressesInsertOne _ k => ∀ r, replies (k r)
  | AddressesFindOneAndUpdate _ _ k => ∀ r, replies (k r)
  | AddressesDeleteOne _ k => ∀ r, replies (k r)
  | RedisGetTtl _ k => ∀ r, replies (k r)
  end.

(** The outcome is a response. *)
Definition answered (o : outcome) : Prop := ∃ status body, o = Reply status body.

(** Every record's [addrview] is the key of its [address]. *)
Definition keyed (m : gmap oid addrdoc) : Prop :=
  ∀ i d, m !! i = Some d → d_addrview d = addrview (d_address d).

(** Every record is a user address (a [user], no [targets]) or a
    forwarded address ([targets], no [user]). *)
Definition shaped (m : gmap oid addrdoc) : Prop :=
  ∀ i d, m !! i = Some d →
    (is_Some (d_user d) ∧ d_targets d = None)
    ∨ (d_user d = None ∧ is_Some (d_targets d)).

(** No two records share a key. *)
Definition uniqueKeys (m : gmap oid addrdoc) : Prop :=
  ∀ i j di dj, m !! i = Some di → m !! j = Some dj →
    d_addrview di = d_addrview dj → i = j.

(** The default address of every user is the address of a record of
    that user. *)
Definition defaultsOwned (w : world) : Prop :=
  ∀ u a, users w !! u = Some (UserDoc (Some a)) →
    ∃ i d, addresses w !! i = Some d ∧ d_user d = Some u ∧ d_address d = a.

(** The three conditions on the records of the [addresses] collection. *)
Definition recordsWellFormed (m : gmap oid addrdoc) : Prop :=
  keyed m ∧ shaped m ∧ uniqueKeys m.

(** A record of one of the two shapes. *)
Definition wellShaped (d : addrdoc) : Prop :=
  (is_Some (d_user d) ∧ d_targets d = None)
  ∨ (d_user d = None ∧ is_Some (d_targets d)).

(** The kind the loop gives a target it passes. *)
Definition kindOf (target : string) : targetType :=
  if isMailTarget target then mail
  else if JS.isSmtp target then relay
  else http.

(** The user of the address registered under [key], if it is a user
    address. *)
Definition ownerOf (m : gmap oid addrdoc) (key : string) : option oid :=
  match findAddress (ByAddrview key) m with
  | Some (_, d) => d_user d
  | None => None
  end.

(** One descriptor per target, in the order of the request: consecutive
    ids from [n], the kind, the text as sent and, for a mail target with a
    non-empty key, the user of the address registered under the key. *)
Fixpoint storedTargets (normalizeAddress : string → string)
    (m : gmap oid addrdoc) (n : oid) (targets : list string) : list target :=
  match targets with
  | [] => []
  | target :: rest =>
      Target n (kindOf target) target
        (if isMailTarget target
            && negb (String.eqb (targetKey normalizeAddress target) "")
         then ownerOf m (targetKey normalizeAddress target)
         else None)
      :: storedTargets normalizeAddress m (n + 1)%N rest
  end.

(** The response of the read routes to an address they do not find. *)
Definition unknownAddress : response :=
  ErrorJson "Invalid or unknown address" (Some "AddressNotFound").

(** [b] is [a] with, at most, the empty string put under [subject],
    [text] or [html] where [a] has no content. *)
Definition onlyEmptied (a b : gmap string JS.value) : Prop :=
  ∀ key,
    b !! key = a !! key
    ∨ (b !! key = Some (JS.Str "")
       ∧ (key = "subject" ∨ key = "text" ∨ key = "html")
       ∧ JS.truthy (field a key) = false).

(** ** The two read routes on a user's addresses *)

(** One entry of the listing, and the body of the single read:
    [{ id, address, main, created }]. *)
Record addressEntry : Type := AddressEntry {
  e_id : oid;
  e_address : string;
  e_main : bool;
  e_created : Z
}.

(** The bodies these two routes send. *)
Inductive userAddressBody : Type :=
| ReadError (error : string) (code : option string)
| AddressJson (entry : addressEntry)
| AddressesJson (results : list addressEntry).

(** [collection('addresses').findOne({ _id, user })] *)
Definition findOwned (id user : oid) (m : gmap oid addrdoc) : option (oid * addrdoc) :=
  match m !! id with
  | Some d => if bool_decide (d_user d = Some user) then Some (id, d) else None
  | None => None
  end.

(** The order of [sort({ addrview: 1 })] on two records. *)
Definition keyOrder (x y : oid * addrdoc) : Prop :=
  String.le (d_addrview x.2) (d_addrview y.2).

Global Instance keyOrder_dec : RelDecision keyOrder.
Proof. intros x y. unfold keyOrder. apply _. Defined.

(** [collection('addresses').find({ user }).sort({ addrview: 1 }).toArray()] *)
Definition findByUser (user : oid) (m : gmap oid addrdoc) : list (oid * addrdoc) :=
  merge_sort keyOrder
    (List.filter (λ p, bool_decide (d_user p.2 = Some user)) (map_to_list m)).

(** The two routes as trees of their store calls, which are reads
    only. *)
Inductive reading : Type :=
| Answer (status : Z) (body : userAddressBody)
| ReadUser (id : oid) (k : callback (option userdoc) → reading)
| ReadOwnedAddress (id user : oid) (k : callback (option (oid * addrdoc)) → reading)
| ReadAddressesOf (user : oid) (k : callback (list (oid * addrdoc)) → reading).

Fixpoint runReading (a : reading) (env : environment) (w : world)
  : world * (Z * userAddressBody) :=
  match a with
  | Answer status body => (w, (status, body))
  | ReadUser id k =>
      let '(w', r) := call (λ w, (w, users w !! id)) (env usersFindOne) w in
      runReading (k r) env w'
  | ReadOwnedAddress id user k =>
      let '(w', r) :=
        call (λ w, (w, findOwned id user (addresses w))) (env addressesFindOne) w in
      runReading (k r) env w'
  | ReadAddressesOf user k =>
      let '(w', r) :=
        call (λ w, (w, findByUser user (addresses w))) (env addressesFind) w in
      runReading (k r) env w'
  end.

Definition readDatabaseError (message : string) : reading :=
  Answer 200 (ReadError ("MongoDB Error: " +:+ message) (Some "InternalDatabaseError")).

(** The entry of a record for a user with the default [userData.address]:
    [main: address.address === userData.address]. *)
Definition entryOf (userData : userdoc) (p : oid * addrdoc) : addressEntry :=
  AddressEntry p.1 (d_address p.2)
    (bool_decide (Some (d_address p.2) = u_address userData)) (d_created p.2).

(** [GET /users/:user/addresses] *)
Definition GetUserAddresses (user : oid) : reading :=
  ReadUser user (λ r,
    match r with
    | inl err => readDatabaseError err
    | inr None => Answer 200 (ReadError "This user does not exist" (Some "UserNotFound"))
    | inr (Some userData) =>
      ReadAddressesOf user (λ r,
        match r with
        | inl err => readDatabaseError err
        | inr addresses => Answer 200 (AddressesJson (entryOf userData <$> addresses))
        end)
    end).

(** [GET /users/:user/addresses/:address] *)
Definition GetUserAddress (user address : oid) : reading :=
  ReadUser user (λ r,
    match r with
    | inl err => readDatabaseError err
    | inr None => Answer 200 (ReadError "This user does not exist" (Some "UserNotFound"))
    | inr (Some userData) =>
      ReadOwnedAddress address user (λ r,
        match r with
        | inl err => readDatabaseError err
        | inr None =>
            Answer 404 (ReadError "Invalid or unknown address" (Some "AddressNotFound"))
        | inr (Some addressData) => Answer 200 (AddressJson (entryOf userData addressData))
        end)
    end).

(** The response to a target of no known kind. *)
Definition unknownTarget (target : string) : response :=
  ErrorJson ("Unknown target type " +:+ quote +:+ target +:+ quote)
    (Some "InputValidationError").

(** ** The autoreply parameter as it was sent *)

(** [req.params.autoreply] before validation: an object, or a string.
    The schema ([Joi.object()] with [convert]) also takes a string that
    holds a JSON object and converts it, so that
    [result.value.autoreply] is an object in both cases, while the
    handlers apply [in] to the parameter as it was sent. *)
Inductive sentAutoreply : Type :=
| SentObject (o : gmap string JS.value)
| SentText (s : string).

(** The exception of [key in s] for a string [s]. *)
Definition inOperatorError (key s : string) : string :=
  "TypeError: Cannot use 'in' operator to search for '" +:+ key +:+ "' in " +:+ s.

(** The first [in] the three [if] blocks evaluate on
    [result.value.autoreply]: each block tests the field for content
    first, and [key in req.params.autoreply] only when it has none. *)
Definition firstInTest (autoreply : gmap string JS.value) : option string :=
  if negb (JS.truthy (field autoreply "subject")) then Some "subject"
  else if negb (JS.truthy (field autoreply "text")) then Some "text"
  else if negb (JS.truthy (field autoreply "html")) then Some "html"
  else None.

(** The [in] that throws, with the string it is applied to: the first one
    evaluated when the parameter was sent as a string.  Nothing has been
    assigned to [result.value.autoreply] before it. *)
Definition failingIn (autoreply : option (gmap string JS.value)) (sent : sentAutoreply)
  : option (string * string) :=
  match sent with
  | SentObject _ => None
  | SentText s => (λ key, (key, s)) <$> (autoreply ≫= firstInTest)
  end.

(** A forwarded-address handler on a request with the autoreply parameter
    as sent.  With an object the handler tests its keys; with a string
    the first [in] evaluated throws, and when no [in] is evaluated (no
    autoreply, or content in all three fields) the parameter is not looked
    at, so that the handler runs as on an object without keys. *)
Definition withSent {P : Type} (handler : P → action)
    (params : gmap string JS.value → P)
    (autoreply : option (gmap string JS.value)) (sent : sentAutoreply) : action :=
  match sent with
  | SentObject o => handler (params o)
  | SentText s =>
      match failingIn autoreply sent with
      | Some (key, _) => Throw (inOperatorError key s)
      | None => handler (params ∅)
      end
  end.

(** [POST /addresses/forwarded] with the autoreply parameter as sent. *)
Definition PostForwardedRequest (normalizeAddress : string → string)
    (address : string) (targets : option (list string)) (forwards : JS.value)
    (allowWildcard : bool) (autoreply : option (gmap string JS.value))
    (sent : sentAutoreply) : action :=
  withSent (PostForwardedAddress normalizeAddress)
    (PostForwardedParams address targets forwards allowWildcard autoreply)
    autoreply sent.

(** [PUT /addresses/forwarded/:address] with the autoreply parameter as
    sent. *)
Definition PutForwardedRequest (normalizeAddress : string → string)
    (address : oid) (targets : option (list string)) (forwards : JS.value)
    (autoreply : option (gmap string JS.value)) (sent : sentAutoreply) : action :=
  withSent (PutForwardedAddress normalizeAddress)
    (PutForwardedParams address targets forwards autoreply)
    autoreply sent.

(** ** Properties *)

(** *** Strings and the canonical key *)

Lemma indexOf_lower_bound s c : -1 <= JS.indexOf s c.
Proof.
  induction s as [|a s IH]; simpl; [lia|].
  destruct (Ascii.eqb a c); [lia|].
  destruct (JS.indexOf s c <? 0) eqn:E; lia.
Qed.

Lemma indexOf_tail a s c :
  JS.indexOf (String a s) c = -1 → Ascii.eqb a c = false ∧ JS.indexOf s c = -1.
Proof.
  simpl. destruct (Ascii.eqb a c); [discriminate|].
  pose proof (indexOf_lower_bound s c).
  destruct (JS.indexOf s c <? 0) eqn:E; intros; split; auto; lia.
Qed.

Lemma indexOf_app l c d :
  JS.indexOf l c = -1 → JS.indexOf (l +:+ String c d) c = JS.len l.
Proof.
  induction l as [|a l IH]; intros H.
  - simpl. by rewrite Ascii.eqb_refl.
  - apply indexOf_tail in H as [Ha Hl].
    change (String a l +:+ String c d) with (String a (l +:+ String c d)).
    cbn [JS.indexOf]. rewrite Ha, (IH Hl).
    unfold JS.len. cbn [String.length].
    destruct (Z.of_nat (String.length l) <? 0) eqn:E; lia.
Qed.

Lemma length_app (l s : string) :
  String.length (l +:+ s) = (String.length l + String.length s)%nat.
Proof. induction l as [|a l IH]; simpl; [done | by rewrite IH]. Qed.

Lemma take_app l s : JS.take (String.length l) (l +:+ s) = l.
Proof. induction l as [|a l IH]; simpl; [done | by rewrite IH]. Qed.

Lemma drop_app l s : JS.drop (String.length l) (l +:+ s) = s.
Proof. induction l as [|a l IH]; simpl; [done | by rewrite IH]. Qed.

Lemma substr_prefix l s : JS.substr (l +:+ s) 0 (JS.len l) = l.
Proof.
  unfold JS.substr, JS.len. rewrite length_app.
  replace (0 <? 0) with false by done.
  replace (Z.min 0 _) with 0 by lia. cbn [Z.to_nat JS.drop].
  replace (Z.to_nat _) with (String.length l) by lia.
  apply take_app.
Qed.

Lemma substrFrom_suffix l s : JS.substrFrom (l +:+ s) (JS.len l) = s.
Proof.
  unfold JS.substrFrom, JS.len. rewrite length_app.
  destruct (Z.ltb_spec (Z.of_nat (String.length l)) 0); [lia|].
  replace (Z.to_nat _) with (String.length l) by lia.
  apply drop_app.
Qed.

(** The key of [local@domain]: the dots leave the local part, the rest of
    the address stays as it is. *)
Lemma addrview_split l d :
  JS.indexOf l "@" = -1 →
  addrview (l +:+ String "@" d) = JS.removeDots l +:+ String "@" d.
Proof.
  intros H. unfold addrview. rewrite (indexOf_app _ _ _ H).
  by rewrite substr_prefix, substrFrom_suffix.
Qed.

Lemma lowerAscii_eqb a c :
  JS.lowerAscii c = c → (∀ b, JS.lowerAscii b = c → b = c) →
  Ascii.eqb (JS.lowerAscii a) c = Ascii.eqb a c.
Proof.
  intros Hc Hinj. destruct (Ascii.eqb a c) eqn:E.
  - apply Ascii.eqb_eq in E as ->. rewrite Hc. apply Ascii.eqb_refl.
  - apply Ascii.eqb_neq. intros H. apply Hinj in H.
    apply Ascii.eqb_neq in E. contradiction.
Qed.

Lemma lowerAscii_at b : JS.lowerAscii b = "@"%char → b = "@"%char.
Proof.
  destruct b as [[] [] [] [] [] [] [] []]; vm_compute; congruence.
Qed.

Lemma lowerAscii_dot b : JS.lowerAscii b = "."%char → b = "."%char.
Proof.
  destruct b as [[] [] [] [] [] [] [] []]; vm_compute; congruence.
Qed.

Lemma toLowerCase_app l s :
  JS.toLowerCase (l +:+ s) = JS.toLowerCase l +:+ JS.toLowerCase s.
Proof. induction l as [|a l IH]; simpl; [done | by rewrite IH]. Qed.

Lemma indexOf_toLowerCase_at s :
  JS.indexOf (JS.toLowerCase s) "@" = JS.indexOf s "@".
Proof.
  induction s as [|a s IH]; [done|]. cbn [JS.toLowerCase JS.indexOf].
  rewrite IH, (lowerAscii_eqb a "@"); auto using lowerAscii_at.
Qed.

Lemma removeDots_toLowerCase s :
  JS.removeDots (JS.toLowerCase s) = JS.toLowerCase (JS.removeDots s).
Proof.
  induction s as [|a s IH]; [done|]. cbn [JS.toLowerCase JS.removeDots].
  rewrite (lowerAscii_eqb a "."); auto using lowerAscii_dot.
  destruct (Ascii.eqb a "."); cbn [JS.toLowerCase]; congruence.
Qed.

(** *** The id generator and the targets loop *)

Lemma afterIds_0 w : afterIds 0 w = w.
Proof. destruct w. unfold afterIds, set_nextId. simpl. by rewrite N.add_0_r. Qed.

Lemma afterIds_afterIds a b w : afterIds a (afterIds b w) = afterIds (b + a) w.
Proof. unfold afterIds, set_nextId. simpl. by rewrite N.add_assoc. Qed.

Lemma set_nextId_afterIds w : set_nextId (nextId w + 1)%N w = afterIds 1 w.
Proof. done. Qed.

Lemma addresses_afterIds n w : addresses (afterIds n w) = addresses w.
Proof. done. Qed.

Lemma users_afterIds n w : users (afterIds n w) = users w.
Proof. done. Qed.

Lemma passes_inv norm self t :
  passes norm self t = true →
  (isMailTarget t = true ∧ String.eqb (targetKey norm t) self = false)
  ∨ (isMailTarget t = false ∧ (JS.isSmtp t = true ∨ JS.isSmtp t = false ∧ JS.isHttp t = true)).
Proof.
  unfold passes, selfTarget, knownTarget.
  destruct (isMailTarget t), (String.eqb (targetKey norm t) self),
    (JS.isSmtp t), (JS.isHttp t); simpl; intros; try discriminate; auto.
Qed.

(** On a list it passes, the loop hands out one id per target and goes on
    with the descriptors and the keys of the mail targets. *)
Lemma targetsLoop_passes norm self ts :
  Forall (λ t, passes norm self t = true) ts →
  ∀ seen al k env w,
    run (targetsLoop norm self ts seen al k) env w
    = run (k (seen ++ descriptors norm (nextId w) ts) (al ++ mailKeys norm ts))
        env (afterTargets ts w).
Proof.
  unfold afterTargets.
  induction 1 as [|t ts Ht _ IH]; intros seen al k env w.
  - cbn [targetsLoop descriptors length N.of_nat]. unfold mailKeys. simpl.
    by rewrite !app_nil_r, afterIds_0.
  - cbn [targetsLoop descriptors].
    change (negb (JS.isSmtp t) && negb (JS.isHttp t) && (0 <=? JS.indexOf t "@"))
      with (isMailTarget t).
    replace (afterIds (N.of_nat (length (t :: ts))) w)
      with (afterIds (N.of_nat (length ts)) (afterIds 1 w))
      by (rewrite afterIds_afterIds; f_equal; cbn [length]; lia).
    unfold mailKeys. cbn [List.filter].
    destruct (passes_inv _ _ _ Ht) as [[Hm Hs]|[Hm [Hr|[Hr Hh]]]]; rewrite Hm.
    + fold (targetKey norm t). rewrite Hs. cbn [run].
      rewrite set_nextId_afterIds, IH. cbn [fmap list_fmap].
      by rewrite <- !app_assoc.
    + rewrite Hr. cbn [run]. rewrite set_nextId_afterIds, IH.
      by rewrite <- !app_assoc.
    + rewrite Hr, Hh. cbn [run]. rewrite set_nextId_afterIds, IH.
      by rewrite <- !app_assoc.
Qed.


Lemma resolveUsers_quiet ts al done env w :
  env addressesFind = quiet →
  run (resolveUsers ts al done) env w
  = run (done (boundTargets (addresses w) ts al)) env w.
Proof.
  intros He. unfold resolveUsers, boundTargets.
  destruct al; [done|]. cbn [run]. by rewrite He.
Qed.

(** *** Creating an address whose key is taken *)

Ltac no_plus H :=
  match type of H with
  | JS.indexOf ?a ?c < 0 =>
      destruct (Z.leb_spec 0 (JS.indexOf a c)) as [?|_]; [lia|]
  end.

Lemma PostUserAddress_exists norm p env w u x :
  let address := norm (pu_address p) in
  let w1 := interfere (env usersFindOne) w in
  let w2 := interfere (env addressesFindOne) w1 in
  JS.indexOf address "+" < 0 →
  wildcardError address (pu_allowWildcard p) (pu_main p) = None →
  fault (env usersFindOne) = None →
  users w1 !! pu_user p = Some u →
  fault (env addressesFindOne) = None →
  findAddress (ByAddrview (addrview address)) (addresses w2) = Some x →
  run (PostUserAddress norm p) env w = (w2, Reply 200 addressExists).
Proof.
  intros address w1 w2 Hplus Hwild Hf1 Hu Hf2 Hx.
  unfold PostUserAddress. fold address. no_plus Hplus. rewrite Hwild.
  cbn [run]. unfold call. rewrite Hf1. fold w1. rewrite Hu.
  cbn [run]. unfold call. rewrite Hf2. fold w2. by rewrite Hx.
Qed.

Lemma PostUserAddress_late norm p f w u x :
  let address := norm (pu_address p) in
  JS.indexOf address "+" < 0 →
  wildcardError address (pu_allowWildcard p) (pu_main p) = None →
  users w !! pu_user p = Some u →
  findAddress (ByAddrview (addrview address)) (addresses w) = None →
  findAddress (ByAddrview (addrview address)) (addresses (f w)) = Some x →
  run (PostUserAddress norm p) (lateWrite f) w
  = (afterIds 1 (f w), Reply 200 duplicateKeyError).
Proof.
  intros address Hplus Hwild Hu Hnone Hx.
  unfold PostUserAddress. fold address. no_plus Hplus. rewrite Hwild.
  cbn [run lateWrite]. unfold call. cbn [quiet interfere fault id].
  rewrite Hu. cbn [run lateWrite]. unfold call. cbn [quiet interfere fault id].
  rewrite Hnone. cbn [run lateWrite]. unfold callInsert, insertAddress.
  cbn [interfere fault d_addrview]. by rewrite Hx.
Qed.

Lemma PostForwardedAddress_exists norm p ts env w x :
  let address := norm (pf_address p) in
  let w1 := interfere (env addressesFindOne) (afterTargets ts w) in
  pf_targets p = Some ts →
  Forall (λ t, passes norm (addrview address) t = true) ts →
  JS.indexOf address "+" < 0 →
  wildcardError address (pf_allowWildcard p) false = None →
  fault (env addressesFindOne) = None →
  findAddress (ByAddrview (addrview address)) (addresses w1) = Some x →
  run (PostForwardedAddress norm p) env w = (w1, Reply 200 addressExists).
Proof.
  intros address w1 Hts Hpass Hplus Hwild Hf Hx.
  unfold PostForwardedAddress. fold address. rewrite Hts.
  rewrite (targetsLoop_passes _ _ _ Hpass). no_plus Hplus. rewrite Hwild.
  cbn [run]. unfold call. rewrite Hf. fold w1. by rewrite Hx.
Qed.

Lemma PostForwardedAddress_late norm p ts f w x :
  let address := norm (pf_address p) in
  pf_targets p = Some ts →
  Forall (λ t, passes norm (addrview address) t = true) ts →
  JS.indexOf address "+" < 0 →
  wildcardError address (pf_allowWildcard p) false = None →
  findAddress (ByAddrview (addrview address)) (addresses w) = None →
  findAddress (ByAddrview (addrview address)) (addresses (f (afterTargets ts w)))
  = Some x →
  run (PostForwardedAddress norm p) (lateWrite f) w
  = (afterIds 1 (f (afterTargets ts w)), Reply 200 duplicateKeyError).
Proof.
  intros address Hts Hpass Hplus Hwild Hnone Hx.
  unfold PostForwardedAddress. fold address. rewrite Hts.
  rewrite (targetsLoop_passes _ _ _ Hpass). no_plus Hplus. rewrite Hwild.
  cbn [run lateWrite]. unfold call. cbn [quiet interfere fault id].
  unfold afterTargets at 1. rewrite addresses_afterIds, Hnone.
  rewrite resolveUsers_quiet by done.
  cbn [run lateWrite]. unfold callInsert, insertAddress.
  cbn [interfere fault d_addrview]. by rewrite Hx.
Qed.

(** C1, amended.  Creating an address (user or forwarded) whose canonical
    key is that of a record the pre-insert lookup finds fails with
    [AddressExists] and writes nothing: the world is left as the other
    clients made it.  When the lookup finds nothing and the collision only
    shows at the insert, the store's uniqueness violation is answered as
    every other store error, ["MongoDB Error: ..."] with the code
    [InternalDatabaseError], and again nothing is inserted (only the id
    generator has advanced). *)
Theorem create_with_taken_key norm :
  (∀ p env w u x,
     let address := norm (pu_address p) in
     let w1 := interfere (env usersFindOne) w in
     let w2 := interfere (env addressesFindOne) w1 in
     JS.indexOf address "+" < 0 →
     wildcardError address (pu_allowWildcard p) (pu_main p) = None →
     fault (env usersFindOne) = None →
     users w1 !! pu_user p = Some u →
     fault (env addressesFindOne) = None →
     findAddress (ByAddrview (addrview address)) (addresses w2) = Some x →
     run (PostUserAddress norm p) env w = (w2, Reply 200 addressExists))
  ∧ (∀ p f w u x,
     let address := norm (pu_address p) in
     JS.indexOf address "+" < 0 →
     wildcardError address (pu_allowWildcard p) (pu_main p) = None →
     users w !! pu_user p = Some u →
     findAddress (ByAddrview (addrview address)) (addresses w) = None →
     findAddress (ByAddrview (addrview address)) (addresses (f w)) = Some x →
     run (PostUserAddress norm p) (lateWrite f) w
     = (afterIds 1 (f w), Reply 200 duplicateKeyError))
  ∧ (∀ p ts env w x,
     let address := norm (pf_address p) in
     let w1 := interfere (env addressesFindOne) (afterTargets ts w) in
     pf_targets p = Some ts →
     Forall (λ t, passes norm (addrview address) t = true) ts →
     JS.indexOf address "+" < 0 →
     wildcardError address (pf_allowWildcard p) false = None →
     fault (env addressesFindOne) = None →
     findAddress (ByAddrview (addrview address)) (addresses w1) = Some x →
     run (PostForwardedAddress norm p) env w = (w1, Reply 200 addressExists))
  ∧ (∀ p ts f w x,
     let address := norm (pf_address p) in
     pf_targets p = Some ts →
     Forall (λ t, passes norm (addrview address) t = true) ts →
     JS.indexOf address "+" < 0 →
     wildcardError address (pf_allowWildcard p) false = None →
     findAddress (ByAddrview (addrview address)) (addresses w) = None →
     findAddress (ByAddrview (addrview address)) (addresses (f (afterTargets ts w)))
     = Some x →
     run (PostForwardedAddress norm p) (lateWrite f) w
     = (afterIds 1 (f (afterTargets ts w)), Reply 200 duplicateKeyError)).
Proof.
  split; [exact (PostUserAddress_exists norm)|].
  split; [exact (PostUserAddress_late norm)|].
  split; [exact (PostForwardedAddress_exists norm)|].
  exact (PostForwardedAddress_late norm).
Qed.

Lemma create_with_taken_key_witness :
  run (PostUserAddress lowerCaseAddress (PostUserAddressParams alice "AB@x.org" false false))
    calm directory
  = (directory, Reply 200 addressExists)
  ∧ run (PostUserAddress lowerCaseAddress
           (PostUserAddressParams alice "a.bc@x.org" false false))
      (lateWrite otherClient) directory
    = (afterIds 1 (otherClient directory), Reply 200 duplicateKeyError)
  ∧ run (PostForwardedAddress lowerCaseAddress
           (PostForwardedParams "a.b@x.org" (Some ["smtp://mx.y.org:25"]) (JS.Num 0)
              false None ∅))
      calm directory
    = (afterIds 1 directory, Reply 200 addressExists)
  ∧ run (PostForwardedAddress lowerCaseAddress
           (PostForwardedParams "a.bc@x.org" (Some ["alice@x.org"]) (JS.Num 0)
              false None ∅))
      (lateWrite otherClient) directory
    = (afterIds 1 (otherClient (afterIds 1 directory)), Reply 200 duplicateKeyError).
Proof.
  destruct (create_with_taken_key lowerCaseAddress) as (H1 & H2 & H3 & H4).
  split; [|split; [|split]].
  - apply (H1 (PostUserAddressParams alice "AB@x.org" false false) calm directory
             (UserDoc (Some "alice@x.org")) (11%N, aliceAlias));
      vm_compute; reflexivity.
  - apply (H2 (PostUserAddressParams alice "a.bc@x.org" false false) otherClient
             directory (UserDoc (Some "alice@x.org"))
             (50%N, AddrDoc (Some 2%N) "abc@x.org" "abc@x.org" None JS.Undefined None 999));
      vm_compute; reflexivity.
  - apply (H3 (PostForwardedParams "a.b@x.org" (Some ["smtp://mx.y.org:25"]) (JS.Num 0)
                 false None ∅) ["smtp://mx.y.org:25"] calm directory (11%N, aliceAlias));
      try (vm_compute; reflexivity).
    repeat constructor.
  - apply (H4 (PostForwardedParams "a.bc@x.org" (Some ["alice@x.org"]) (JS.Num 0)
                 false None ∅) ["alice@x.org"] otherClient directory
             (50%N, AddrDoc (Some 2%N) "abc@x.org" "abc@x.org" None JS.Undefined None 999));
      try (vm_compute; reflexivity).
    repeat constructor.
Defined.

(** C1 as stated fails where the collision shows only at the insert: with
    no record under [abc@x.org] at the lookup and another client's record
    there at the insert, the request for [a.bc@x.org] is answered with the
    store's own error and the code [InternalDatabaseError], not with
    [AddressExists]. *)
Lemma late_collision_is_a_database_error :
  findAddress (ByAddrview (addrview (lowerCaseAddress "a.bc@x.org")))
    (addresses directory) = None
  ∧ is_Some (findAddress (ByAddrview (addrview (lowerCaseAddress "a.bc@x.org")))
               (addresses (otherClient directory)))
  ∧ (run (PostUserAddress lowerCaseAddress
            (PostUserAddressParams alice "a.bc@x.org" false false))
       (lateWrite otherClient) directory).2
    = Reply 200
        (ErrorJson "MongoDB Error: E11000 duplicate key error"
           (Some "InternalDatabaseError"))
  ∧ (run (PostUserAddress lowerCaseAddress
            (PostUserAddressParams alice "a.bc@x.org" false false))
       (lateWrite otherClient) directory).2
    ≠ Reply 200 addressExists.
Proof.
  split; [vm_compute; reflexivity|].
  split; [vm_compute; eauto|].
  split; [vm_compute; reflexivity|].
  vm_compute. discriminate.
Qed.

(** Creating [a.b@y.org] and then [ab@y.org]: the first request stores the
    record, the second finds its key taken. *)
Example create_dotted_then_undotted :
  let first :=
    run (PostUserAddress lowerCaseAddress
           (PostUserAddressParams alice "a.b@y.org" false false)) calm directory in
  let second :=
    run (PostUserAddress lowerCaseAddress
           (PostUserAddressParams alice "ab@y.org" false false)) calm first.1 in
  first.2 = Reply 200 (CreatedJson true 100%N)
  ∧ second = (first.1, Reply 200 addressExists).
Proof. split; vm_compute; reflexivity. Qed.

(** *** Same address, same key *)

Lemma append_inv_head (p s s' : string) : p +:+ s = p +:+ s' → s = s'.
Proof. induction p as [|a p IH]; simpl; intros H; [done|]. injection H. auto. Qed.

Lemma findAddress_singleton key id d :
  findAddress (ByAddrview key) {[ id := d ]}
  = if String.eqb (d_addrview d) key then Some (id, d) else None.
Proof.
  unfold findAddress, withAddrview. rewrite map_to_list_singleton. simpl.
  by destruct (String.eqb (d_addrview d) key).
Qed.

Lemma dot_folding l l' d :
  JS.indexOf l "@" = -1 → JS.indexOf l' "@" = -1 →
  JS.removeDots l = JS.removeDots l' →
  addrview (l +:+ "@" +:+ d) = addrview (l' +:+ "@" +:+ d).
Proof.
  intros Hl Hl' Heq. change ("@" +:+ d) with (String "@" d).
  by rewrite !addrview_split, Heq.
Qed.

Lemma dot_folding_lowerCase l l' d :
  JS.indexOf l "@" = -1 → JS.indexOf l' "@" = -1 →
  JS.removeDots l = JS.removeDots l' →
  addrview (lowerCaseAddress (l +:+ "@" +:+ d))
  = addrview (lowerCaseAddress (l' +:+ "@" +:+ d)).
Proof.
  intros Hl Hl' Heq. unfold lowerCaseAddress. rewrite !toLowerCase_app.
  apply dot_folding; rewrite ?indexOf_toLowerCase_at, ?removeDots_toLowerCase;
    congruence.
Qed.

Lemma lookup_same_iff (k k' : string) :
  (∀ m, findAddress (ByAddrview k) m = findAddress (ByAddrview k') m) ↔ k = k'.
Proof.
  split; [|by intros ->].
  intros H.
  specialize (H {[ 0%N := AddrDoc None "" k None JS.Undefined None 0 ]}).
  rewrite !findAddress_singleton in H. cbn [d_addrview] in H.
  rewrite String.eqb_refl in H.
  destruct (String.eqb k k') eqn:E; [by apply String.eqb_eq|discriminate].
Qed.

Lemma resolve_same_iff norm maxForwards MAX_FORWARDS a b :
  0 <= JS.indexOf a "@" → 0 <= JS.indexOf b "@" →
  (∀ env w,
     run (GetAddressInfo norm maxForwards MAX_FORWARDS a) env w
     = run (GetAddressInfo norm maxForwards MAX_FORWARDS b) env w)
  ↔ addrview (norm a) = addrview (norm b).
Proof.
  intros Ha Hb. unfold GetAddressInfo.
  destruct (Z.leb_spec 0 (JS.indexOf a "@")) as [_|?]; [|lia].
  destruct (Z.leb_spec 0 (JS.indexOf b "@")) as [_|?]; [|lia].
  split; [|by intros ->].
  intros H.
  specialize (H calm
    (World ∅ {[ 0%N := AddrDoc (Some 0%N) "" (addrview (norm a)) None JS.Undefined None 0 ]}
       ∅ 0 0%N)).
  cbn [run] in H. unfold call in H.
  cbn [calm quiet interfere fault id addresses] in H.
  rewrite !findAddress_singleton in H. cbn [d_addrview] in H.
  rewrite String.eqb_refl in H.
  destruct (String.eqb (addrview (norm a)) (addrview (norm b))) eqn:E;
    [by apply String.eqb_eq|discriminate].
Qed.

Lemma removeDots_withDots l l' : withDots l l' → JS.removeDots l' = JS.removeDots l.
Proof.
  induction 1 as [|l l' _ IH|c l l' _ IH]; cbn [JS.removeDots]; [done|done|].
  by rewrite IH.
Qed.

Lemma indexOf_withDots l l' :
  withDots l l' → JS.indexOf l "@" = -1 → JS.indexOf l' "@" = -1.
Proof.
  induction 1 as [|l l' _ IH|c l l' _ IH]; cbn [JS.indexOf]; [done| |].
  - intros Hl. rewrite (IH Hl). reflexivity.
  - destruct (Ascii.eqb c "@"); [discriminate|].
    destruct (Z.ltb_spec (JS.indexOf l "@") 0) as [Hneg|Hpos]; [|lia].
    intros _. pose proof (indexOf_lower_bound l "@").
    rewrite IH by lia. reflexivity.
Qed.

(** C2.  Two addresses that differ only by dots put into the local part
    (the part before the first [@]) have the same canonical key, for the
    key computation itself and behind the case folding, and so have any
    two addresses that are one local part with dots put in differently;
    the resolve request answers two such addresses alike.  Two addresses
    are the same address for the lookup by address, in the store and in
    the resolve request, exactly when their keys are equal; and the domain
    part enters the key as it is, so that different domains (dotted or
    not) give different keys. *)
Theorem same_address_same_key norm maxForwards MAX_FORWARDS :
  (∀ l l' d,
     withDots l l' → JS.indexOf l "@" = -1 →
     addrview (l' +:+ "@" +:+ d) = addrview (l +:+ "@" +:+ d)
     ∧ addrview (lowerCaseAddress (l' +:+ "@" +:+ d))
       = addrview (lowerCaseAddress (l +:+ "@" +:+ d))
     ∧ (∀ env w,
          run (GetAddressInfo lowerCaseAddress maxForwards MAX_FORWARDS
                 (l' +:+ "@" +:+ d)) env w
          = run (GetAddressInfo lowerCaseAddress maxForwards MAX_FORWARDS
                   (l +:+ "@" +:+ d)) env w))
  ∧ (∀ l l1 l2 d,
       withDots l l1 → withDots l l2 → JS.indexOf l "@" = -1 →
       addrview (l1 +:+ "@" +:+ d) = addrview (l2 +:+ "@" +:+ d))
  ∧ (∀ a b,
       (∀ m, findAddress (ByAddrview (addrview (norm a))) m
             = findAddress (ByAddrview (addrview (norm b))) m)
       ↔ addrview (norm a) = addrview (norm b))
  ∧ (∀ a b,
       0 <= JS.indexOf a "@" → 0 <= JS.indexOf b "@" →
       (∀ env w,
          run (GetAddressInfo norm maxForwards MAX_FORWARDS a) env w
          = run (GetAddressInfo norm maxForwards MAX_FORWARDS b) env w)
       ↔ addrview (norm a) = addrview (norm b))
  ∧ (∀ l d d',
       JS.indexOf l "@" = -1 →
       addrview (l +:+ "@" +:+ d) = JS.removeDots l +:+ "@" +:+ d
       ∧ (d ≠ d' → addrview (l +:+ "@" +:+ d) ≠ addrview (l +:+ "@" +:+ d'))).
Proof.
  assert (Hfold : ∀ l l' d,
            withDots l l' → JS.indexOf l "@" = -1 →
            addrview (l' +:+ "@" +:+ d) = addrview (l +:+ "@" +:+ d)).
  { intros l l' d Hdots Hl.
    apply dot_folding; [by apply (indexOf_withDots l)|done|].
    by apply removeDots_withDots. }
  assert (Hlower : ∀ l l' d,
            withDots l l' → JS.indexOf l "@" = -1 →
            addrview (lowerCaseAddress (l' +:+ "@" +:+ d))
            = addrview (lowerCaseAddress (l +:+ "@" +:+ d))).
  { intros l l' d Hdots Hl.
    apply dot_folding_lowerCase; [by apply (indexOf_withDots l)|done|].
    by apply removeDots_withDots. }
  split_and!.
  - intros l l' d Hdots Hl. split_and!; [by apply Hfold|by apply Hlower|].
    intros env w.
    assert (Hat : ∀ s, JS.indexOf s "@" = -1 → 0 <= JS.indexOf (s +:+ "@" +:+ d) "@").
    { intros s Hs. change ("@" +:+ d) with (String "@" d).
      rewrite (indexOf_app _ _ _ Hs). unfold JS.len. lia. }
    apply (resolve_same_iff lowerCaseAddress maxForwards MAX_FORWARDS);
      [apply Hat; by apply (indexOf_withDots l)|by apply Hat|by apply Hlower].
  - intros l l1 l2 d H1 H2 Hl. by rewrite (Hfold l l1), (Hfold l l2).
  - intros a b. apply lookup_same_iff.
  - intros a b. apply resolve_same_iff.
  - intros l d d' Hl. change ("@" +:+ d) with (String "@" d).
    change ("@" +:+ d') with (String "@" d').
    rewrite !addrview_split by done. split; [done|].
    intros Hne Heq. apply append_inv_head in Heq. congruence.
Qed.

Lemma same_address_same_key_witness :
  addrview ("a.b.c" +:+ "@" +:+ "x.org") = addrview ("abc" +:+ "@" +:+ "x.org")
  ∧ addrview (lowerCaseAddress ("A.b." +:+ "@" +:+ "x.org"))
    = addrview (lowerCaseAddress ("Ab" +:+ "@" +:+ "x.org"))
  ∧ addrview (".a.bc" +:+ "@" +:+ "x.org") = addrview ("ab..c" +:+ "@" +:+ "x.org")
  ∧ (∀ env w,
       run (GetAddressInfo lowerCaseAddress (JS.Num 2000) (JS.Num 2000) "a.b@x.org") env w
       = run (GetAddressInfo lowerCaseAddress (JS.Num 2000) (JS.Num 2000) "AB@x.org") env w)
  ∧ addrview ("a.b" +:+ "@" +:+ "x.org") ≠ addrview ("a.b" +:+ "@" +:+ "xorg").
Proof.
  destruct (same_address_same_key lowerCaseAddress (JS.Num 2000) (JS.Num 2000))
    as (H1 & H2 & _ & H4 & H5).
  split_and!.
  - apply (H1 "abc" "a.b.c" "x.org"); [|reflexivity].
    apply withDots_keep, withDots_dot, withDots_keep, withDots_dot, withDots_keep,
      withDots_end.
  - apply (H1 "Ab" "A.b." "x.org"); [|reflexivity].
    apply withDots_keep, withDots_dot, withDots_keep, withDots_dot, withDots_end.
  - apply (H2 "abc" ".a.bc" "ab..c" "x.org"); [| |reflexivity].
    + apply withDots_dot, withDots_keep, withDots_dot, withDots_keep, withDots_keep,
        withDots_end.
    + apply withDots_keep, withDots_keep, withDots_dot, withDots_dot, withDots_keep,
        withDots_end.
  - apply (H4 "a.b@x.org" "AB@x.org"); [vm_compute; discriminate..|reflexivity].
  - apply (H5 "a.b" "x.org" "xorg"); [reflexivity|discriminate].
Defined.

(** *** Forwarding to oneself *)



(** *** Wildcard addresses *)

(** The wildcard forms the checks settle as the error message says:
    [*@example.com] and [user@*] pass with [allowWildcard] and are refused
    without it, [a*@x*] and [*@*] are refused either way. *)
Lemma wildcard_forms :
  wildcardError "*@example.com" true false = None
  ∧ wildcardError "user@*" true false = None
  ∧ wildcardError "*@example.com" false false
    = Some (ErrorJson "Address can not contain *" None)
  ∧ wildcardError "user@*" false false
    = Some (ErrorJson "Address can not contain *" None)
  ∧ wildcardError "a*@x*" true false = Some invalidWildcard
  ∧ wildcardError "*@*" true false = Some invalidWildcard
  ∧ (∀ address main,
       0 <= JS.indexOf address "*" →
       wildcardError address false main
       = Some (ErrorJson "Address can not contain *" None)).
Proof.
  repeat split; try reflexivity.
  intros address main H. unfold wildcardError.
  by destruct (Z.leb_spec 0 (JS.indexOf address "*")); [|lia].
Qed.

(** C4.  The code at [*a@x] with [allowWildcard] set.  The pattern of the
    wildcard check matches this address, but the check applies it to the
    parameter object, whose text has no [*]; the position test alone
    passes an address with a single [*], so both create requests accept
    [*a@x] and store it. *)
Theorem wildcard_prefix_accepted :
  JS.wildcardRe "*a@x" = true
  ∧ JS.wildcardRe JS.objectToString = false
  ∧ wildcardError (lowerCaseAddress "*a@x") true false = None
  ∧ (run (PostUserAddress lowerCaseAddress (PostUserAddressParams alice "*a@x" false true))
       calm directory).2
    = Reply 200 (CreatedJson true 100%N)
  ∧ addresses
      (run (PostUserAddress lowerCaseAddress (PostUserAddressParams alice "*a@x" false true))
         calm directory).1 !! 100%N
    = Some (AddrDoc (Some alice) "*a@x" "*a@x" None JS.Undefined None 1000)
  ∧ (run (PostForwardedAddress lowerCaseAddress
            (PostForwardedParams "*a@x" (Some ["smtp://mx.y.org:25"]) (JS.Num 0) true
               None ∅))
       calm directory).2
    = Reply 200 (CreatedJson true 101%N).
Proof. repeat split; vm_compute; reflexivity. Qed.

(** *** The default address of a user *)

Lemma DeleteUserAddress_main p env w u d :
  let w1 := interfere (env usersFindOne) w in
  let w2 := interfere (env addressesFindOne) w1 in
  fault (env usersFindOne) = None →
  users w1 !! ua_user p = Some u →
  fault (env addressesFindOne) = None →
  addresses w2 !! ua_address p = Some d →
  d_user d = Some (ua_user p) →
  u_address u = Some (d_address d) →
  run (DeleteUserAddress p) env w = (w2, Reply 200 deleteMainError).
Proof.
  intros w1 w2 Hf1 Hu Hf2 Hd Howner Hmain.
  unfold DeleteUserAddress. cbn [run]. unfold call. rewrite Hf1. fold w1.
  rewrite Hu. cbn [run]. unfold call. rewrite Hf2. fold w2.
  cbn [findAddress]. rewrite Hd. cbn [fmap option_fmap option_map].
  rewrite Howner, N.eqb_refl. cbn [negb].
  by rewrite Hmain, bool_decide_eq_true_2.
Qed.

Lemma PutUserAddress_promotes user b u db w :
  users w !! user = Some u →
  addresses w !! b = Some db →
  d_user db = Some user →
  u_address u ≠ Some (d_address db) →
  JS.indexOf (d_address db) "*" < 0 →
  run (PutUserAddress (UserAddressParams user b true)) calm w
  = (set_users (insert user (UserDoc (Some (d_address db)))) w,
     Reply 200 (SuccessJson true)).
Proof.
  intros Hu Hb Howner Hne Hstar.
  unfold PutUserAddress. cbn [ua_main ua_user ua_address negb run].
  unfold call. cbn [calm quiet interfere fault id]. rewrite Hu.
  cbn [run]. unfold call. cbn [calm quiet interfere fault id findAddress].
  rewrite Hb. cbn [fmap option_fmap option_map].
  rewrite Howner, N.eqb_refl. cbn [negb].
  rewrite bool_decide_eq_false_2 by congruence.
  destruct (Z.leb_spec 0 (JS.indexOf (d_address db) "*")); [lia|].
  cbn [andb run]. unfold call, setUserAddress.
  cbn [calm quiet interfere fault id]. by rewrite Hu.
Qed.

Lemma DeleteUserAddress_deletes user a u da w :
  users w !! user = Some u →
  addresses w !! a = Some da →
  d_user da = Some user →
  u_address u ≠ Some (d_address da) →
  run (DeleteUserAddress (UserAddressParams user a true)) calm w
  = (set_addresses (delete a) w, Reply 200 (SuccessJson true)).
Proof.
  intros Hu Ha Howner Hne.
  unfold DeleteUserAddress. cbn [ua_user ua_address run].
  unfold call. cbn [calm quiet interfere fault id]. rewrite Hu.
  cbn [run]. unfold call. cbn [calm quiet interfere fault id findAddress].
  rewrite Ha. cbn [fmap option_fmap option_map].
  rewrite Howner, N.eqb_refl. cbn [negb].
  rewrite bool_decide_eq_false_2 by congruence.
  cbn [run]. unfold call, deleteAddress.
  cbn [calm quiet interfere fault id]. by rewrite Ha.
Qed.

(** C5.  Deleting the address of a user whose address string is the
    user's current default fails with the delete-main error,
    [Trying to delete main address. Set a new main address first], and
    leaves the record in place; once another address of the user has been
    promoted to default, deleting the former default succeeds and removes
    its record. *)
Theorem delete_default_address :
  (∀ p env w u d,
     let w1 := interfere (env usersFindOne) w in
     let w2 := interfere (env addressesFindOne) w1 in
     fault (env usersFindOne) = None →
     users w1 !! ua_user p = Some u →
     fault (env addressesFindOne) = None →
     addresses w2 !! ua_address p = Some d →
     d_user d = Some (ua_user p) →
     u_address u = Some (d_address d) →
     run (DeleteUserAddress p) env w = (w2, Reply 200 deleteMainError)
     ∧ addresses (run (DeleteUserAddress p) env w).1 !! ua_address p = Some d)
  ∧ (∀ user a b u da db w,
     users w !! user = Some u →
     addresses w !! a = Some da → d_user da = Some user →
     addresses w !! b = Some db → d_user db = Some user →
     u_address u = Some (d_address da) →
     d_address db ≠ d_address da →
     JS.indexOf (d_address db) "*" < 0 →
     let promoted := run (PutUserAddress (UserAddressParams user b true)) calm w in
     let deleted := run (DeleteUserAddress (UserAddressParams user a true)) calm promoted.1 in
     promoted.2 = Reply 200 (SuccessJson true)
     ∧ users promoted.1 !! user = Some (UserDoc (Some (d_address db)))
     ∧ deleted.2 = Reply 200 (SuccessJson true)
     ∧ addresses deleted.1 = delete a (addresses w)
     ∧ addresses deleted.1 !! a = None
     ∧ addresses deleted.1 !! b = Some db).
Proof.
  split.
  - intros p env w u d w1 w2 Hf1 Hu Hf2 Hd Howner Hmain.
    rewrite (DeleteUserAddress_main p env w u d) by done. by split.
  - intros user a b u da db w Hu Ha Hoa Hb Hob Hmain Hne Hstar. cbv zeta.
    assert (Hab : a ≠ b) by (intros ->; congruence).
    rewrite (PutUserAddress_promotes user b u db w) by (try done; congruence).
    cbn [fst snd].
    rewrite (DeleteUserAddress_deletes user a (UserDoc (Some (d_address db))) da);
      cbn [fst snd set_users set_addresses users addresses u_address];
      [|by apply lookup_insert_eq|done..|congruence].
    split_and!; try done.
    + apply lookup_insert_eq.
    + apply lookup_delete_eq.
    + by rewrite lookup_delete_ne.
Qed.

Lemma delete_default_address_witness :
  (run (DeleteUserAddress (UserAddressParams alice 10%N true)) calm directory
   = (directory, Reply 200 deleteMainError)
   ∧ addresses (run (DeleteUserAddress (UserAddressParams alice 10%N true)) calm directory).1
       !! 10%N = Some aliceMain)
  ∧ (let promoted := run (PutUserAddress (UserAddressParams alice 11%N true)) calm directory in
     let deleted := run (DeleteUserAddress (UserAddressParams alice 10%N true)) calm promoted.1 in
     promoted.2 = Reply 200 (SuccessJson true)
     ∧ users promoted.1 !! alice = Some (UserDoc (Some "a.b@x.org"))
     ∧ deleted.2 = Reply 200 (SuccessJson true)
     ∧ addresses deleted.1 = delete 10%N (addresses directory)
     ∧ addresses deleted.1 !! 10%N = None
     ∧ addresses deleted.1 !! 11%N = Some aliceAlias).
Proof.
  destruct delete_default_address as (H1 & H2).
  split.
  - apply (H1 (UserAddressParams alice 10%N true) calm directory
             (UserDoc (Some "alice@x.org")) aliceMain); reflexivity.
  - apply (H2 alice 10%N 11%N (UserDoc (Some "alice@x.org")) aliceMain aliceAlias directory);
      try reflexivity.
    vm_compute. discriminate.
Defined.

(** C6, amended.  Promoting the address that is already the user's
    default changes nothing, in the user's document or anywhere else in
    the store, and is answered with an error message,
    [Selected address is already the main email address for the user]
    (no code, no [success] field). *)
Theorem promote_current_default p env w u d :
  let w1 := interfere (env usersFindOne) w in
  let w2 := interfere (env addressesFindOne) w1 in
  ua_main p = true →
  fault (env usersFindOne) = None →
  users w1 !! ua_user p = Some u →
  fault (env addressesFindOne) = None →
  addresses w2 !! ua_address p = Some d →
  d_user d = Some (ua_user p) →
  u_address u = Some (d_address d) →
  run (PutUserAddress p) env w = (w2, Reply 200 alreadyMainError).
Proof.
  intros w1 w2 Hmain Hf1 Hu Hf2 Hd Howner Hdef.
  unfold PutUserAddress. rewrite Hmain. cbn [negb run].
  unfold call. rewrite Hf1. fold w1. rewrite Hu.
  cbn [run]. unfold call. rewrite Hf2. fold w2.
  cbn [findAddress]. rewrite Hd. cbn [fmap option_fmap option_map].
  rewrite Howner, N.eqb_refl. cbn [negb].
  by rewrite Hdef, bool_decide_eq_true_2.
Qed.

Lemma promote_current_default_witness :
  run (PutUserAddress (UserAddressParams alice 10%N true)) calm directory
  = (directory, Reply 200 alreadyMainError).
Proof.
  apply (promote_current_default (UserAddressParams alice 10%N true) calm directory
           (UserDoc (Some "alice@x.org")) aliceMain); reflexivity.
Defined.

(** C6 as stated fails: the request to promote the current default of
    [alice] is answered with an [error] field, not with a success. *)
Lemma promote_current_default_reports_error :
  (run (PutUserAddress (UserAddressParams alice 10%N true)) calm directory).2
  = Reply 200
      (ErrorJson "Selected address is already the main email address for the user" None)
  ∧ ∀ success,
      (run (PutUserAddress (UserAddressParams alice 10%N true)) calm directory).2
      ≠ Reply 200 (SuccessJson success).
Proof. split; [vm_compute; reflexivity|]. intros success. vm_compute. discriminate. Qed.

(** *** Updating and creating a forwarded address *)

Lemma PutForwardedAddress_calm norm p d w :
  addresses w !! uf_address p = Some d →
  is_Some (d_targets d) → d_user d = None →
  Forall (λ t, passes norm (d_addrview d) t = true) (targetsOf (uf_targets p)) →
  run (PutForwardedAddress norm p) calm w
  = (set_addresses
       (insert (uf_address p) (applySet (putSetDoc norm p (addresses w) (nextId w)) d))
       (afterTargets (targetsOf (uf_targets p)) w),
     Reply 200 (SuccessJson true)).
Proof.
  intros Hd [old Hold] Huser Hpass.
  unfold PutForwardedAddress, putSetDoc. cbn [run]. unfold call.
  cbn [calm quiet interfere fault id findAddress].
  rewrite Hd. cbn [fmap option_fmap option_map]. rewrite Hold, Huser.
  destruct (uf_targets p) as [ts|]; cbn [targetsOf default from_option id] in *.
  - rewrite (targetsLoop_passes _ _ _ Hpass).
    rewrite resolveUsers_quiet by done. cbn [app].
    change (addresses (afterTargets ts w)) with (addresses w).
    destruct (boundTargets _ _ _) as [|t l]; cbn [run upd_forwards upd_autoreply];
      unfold call, updateAddress; cbn [calm quiet interfere fault id];
      change (addresses (afterTargets ts w)) with (addresses w);
      rewrite Hd; reflexivity.
  - cbn [run]. unfold call, updateAddress. cbn [calm quiet interfere fault id].
    rewrite Hd. unfold afterTargets. cbn [length N.of_nat]. by rewrite afterIds_0.
Qed.

Lemma PostForwardedAddress_calm norm p ts w :
  let address := norm (pf_address p) in
  let autoreply :=
    match pf_autoreply p with
    | Some a => autoreplyFields a (pf_rawAutoreply p)
    | None => {[ "enabled" := JS.Bool false ]}
    end in
  let newId := (nextId w + N.of_nat (length ts))%N in
  pf_targets p = Some ts →
  Forall (λ t, passes norm (addrview address) t = true) ts →
  JS.indexOf address "+" < 0 →
  wildcardError address (pf_allowWildcard p) false = None →
  findAddress (ByAddrview (addrview address)) (addresses w) = None →
  addresses w !! newId = None →
  run (PostForwardedAddress norm p) calm w
  = (set_addresses
       (insert newId
          (AddrDoc None address (addrview address)
             (Some (boundTargets (addresses w) (descriptors norm (nextId w) ts)
                      (mailKeys norm ts)))
             (pf_forwards p) (Some autoreply) (clock w)))
       (afterIds 1 (afterTargets ts w)),
     Reply 200 (CreatedJson true newId)).
Proof.
  intros address autoreply newId Hts Hpass Hplus Hwild Hnone Hfree.
  unfold PostForwardedAddress. fold address. rewrite Hts.
  rewrite (targetsLoop_passes _ _ _ Hpass). no_plus Hplus. rewrite Hwild.
  cbn [run]. unfold call. cbn [calm quiet interfere fault id].
  unfold afterTargets at 1. rewrite addresses_afterIds, Hnone.
  rewrite resolveUsers_quiet by done.
  cbn [run]. unfold callInsert, insertAddress.
  cbn [calm quiet interfere fault id d_addrview app].
  change (addresses (afterTargets ts w)) with (addresses w).
  change (nextId (afterTargets ts w)) with newId.
  by rewrite Hnone, Hfree.
Qed.

(** *** Autoreply text and html *)










(** *** The default address of a new address's owner *)

(** C9.  The promotion at creation is best effort.  When the insert of a
    user address has succeeded and [main] is set or the owner has no
    default address, the handler sets the owner's [address]; whether that
    update succeeds or fails, the request is answered with success and the
    id of the new record, and the inserted record stays in the
    collection.  [f] gives the failure of each store call; only the
    update of the owner may fail here. *)
Theorem promotion_is_best_effort norm p f w u :
  let address := norm (pu_address p) in
  let doc :=
    AddrDoc (Some (pu_user p)) address (addrview address) None JS.Undefined None
      (clock w) in
  let after := run (PostUserAddress norm p) (faults f) w in
  JS.indexOf address "+" < 0 →
  wildcardError address (pu_allowWildcard p) (pu_main p) = None →
  f usersFindOne = None → f addressesFindOne = None → f addressesInsertOne = None →
  users w !! pu_user p = Some u →
  findAddress (ByAddrview (addrview address)) (addresses w) = None →
  addresses w !! nextId w = None →
  falsy (u_address u) || pu_main p = true →
  after.2 = Reply 200 (CreatedJson true (nextId w))
  ∧ addresses after.1 = <[nextId w := doc]> (addresses w)
  ∧ addresses after.1 !! nextId w = Some doc
  ∧ users after.1
    = match f usersFindOneAndUpdate with
      | None => <[pu_user p := UserDoc (Some address)]> (users w)
      | Some _ => users w
      end.
Proof.
  intros address doc after Hplus Hwild Hf1 Hf2 Hf3 Hu Hnone Hfree Hpromote.
  subst after. unfold PostUserAddress. fold address. no_plus Hplus. rewrite Hwild.
  cbn [run]. unfold call. cbn [faults interfere fault id]. rewrite Hf1, Hu.
  cbn [run]. unfold call. cbn [faults interfere fault id]. rewrite Hf2, Hnone.
  cbn [run]. unfold callInsert, insertAddress.
  cbn [faults interfere fault id d_addrview]. rewrite Hf3, Hnone, Hfree.
  rewrite Hpromote. cbn [run]. unfold call, setUserAddress.
  cbn [faults interfere fault id set_addresses set_nextId users addresses].
  destruct (f usersFindOneAndUpdate) as [err|].
  - cbn [run fst snd addresses users]. split_and!; try done. apply lookup_insert_eq.
  - rewrite Hu. cbn [run fst snd addresses users set_users].
    split_and!; try done. apply lookup_insert_eq.
Qed.

Lemma promotion_is_best_effort_witness :
  let p := PostUserAddressParams alice "new@x.org" true false in
  let f := λ c, match c with usersFindOneAndUpdate => Some "timeout" | _ => None end in
  let doc := AddrDoc (Some alice) "new@x.org" "new@x.org" None JS.Undefined None 1000 in
  let after := run (PostUserAddress lowerCaseAddress p) (faults f) directory in
  after.2 = Reply 200 (CreatedJson true 100%N)
  ∧ addresses after.1 = <[100%N := doc]> (addresses directory)
  ∧ addresses after.1 !! 100%N = Some doc
  ∧ users after.1 = users directory.
Proof.
  apply (promotion_is_best_effort lowerCaseAddress
           (PostUserAddressParams alice "new@x.org" true false)
           (λ c, match c with usersFindOneAndUpdate => Some "timeout" | _ => None end)
           directory (UserDoc (Some "alice@x.org"))); reflexivity.
Defined.

(** *** A zero quota in an update *)






(** *** The forwarding status of an address *)

Lemma forwardedInfo_run maxForwards MAX_FORWARDS i d key env w :
  let w1 := interfere (env redisExec) w in
  ∃ limits,
    run (forwardedInfo maxForwards MAX_FORWARDS i d key) env w
    = (w1,
       Reply 200
         (ForwardedJson i (d_address d) (List.map t_value <$> d_targets d) limits
            (default {[ "enabled" := JS.Bool false ]} (d_autoreply d)) (d_created d)))
    ∧ allowed limits = JS.or (JS.or (JS.Number (d_forwards d)) maxForwards) MAX_FORWARDS
    ∧ (fault (env redisExec) = None → counters w1 !! key = None →
       used limits = JS.Num 0 ∧ ttl limits = JS.Bool false)
    ∧ (is_Some (fault (env redisExec)) →
       used limits = JS.Num 0 ∧ ttl limits = JS.Num 0).
Proof.
  intros w1. unfold forwardedInfo. cbn [run]. fold w1.
  destruct (fault (env redisExec)) as [err|] eqn:Hf; cbn [run].
  - eexists. split; [reflexivity|]. cbn [allowed used ttl]. split; [done|].
    split; [done|]. intros _. by vm_compute.
  - eexists. split; [reflexivity|]. cbn [allowed used ttl]. split; [done|].
    split; [|by intros [? ?]]. intros _ Hnone.
    unfold counterReply. rewrite Hnone. by vm_compute.
Qed.

Lemma allowed_own_quota maxForwards MAX_FORWARDS z :
  z ≠ 0 → JS.or (JS.or (JS.Number (JS.Num z)) maxForwards) MAX_FORWARDS = JS.Num z.
Proof.
  intros Hz. unfold JS.or. cbn [JS.Number JS.truthy].
  destruct (Z.eqb_spec z 0); [done|]. cbn [negb JS.truthy].
  by destruct (Z.eqb_spec z 0).
Qed.

Lemma allowed_default maxForwards MAX_FORWARDS v :
  v = JS.Num 0 ∨ v = JS.Undefined →
  JS.or (JS.or (JS.Number v) maxForwards) MAX_FORWARDS = JS.or maxForwards MAX_FORWARDS.
Proof. by intros [-> | ->]. Qed.

(** C8, amended.  Reading the status of an existing forwarded address
    never fails because of the counter store: whatever the store answers,
    and when it cannot be reached, the request succeeds.  [allowed] is the
    record's own quota when that is not zero, and otherwise the
    platform's ([config.maxForwards], or [consts.MAX_FORWARDS] when that
    is not set).  Without a counter for the address, [used] is 0 and [ttl]
    is [false] (unbounded); when the counter store cannot be reached,
    [used] is 0 and [ttl] is 0.  The same holds for the resolve request
    on the address string of a forwarded address. *)
Theorem forwarding_status norm maxForwards MAX_FORWARDS :
  (∀ i d env w,
     let w1 := interfere (env addressesFindOne) w in
     let w2 := interfere (env redisExec) w1 in
     fault (env addressesFindOne) = None →
     addresses w1 !! i = Some d →
     is_Some (d_targets d) → d_user d = None →
     ∃ limits,
       run (GetForwardedAddress maxForwards MAX_FORWARDS i) env w
       = (w2,
          Reply 200
            (ForwardedJson i (d_address d) (List.map t_value <$> d_targets d) limits
               (default {[ "enabled" := JS.Bool false ]} (d_autoreply d)) (d_created d)))
       ∧ (∀ z, d_forwards d = JS.Num z → z ≠ 0 → allowed limits = JS.Num z)
       ∧ (d_forwards d = JS.Num 0 ∨ d_forwards d = JS.Undefined →
          allowed limits = JS.or maxForwards MAX_FORWARDS)
       ∧ (fault (env redisExec) = None → counters w2 !! counterKey i = None →
          used limits = JS.Num 0 ∧ ttl limits = JS.Bool false)
       ∧ (is_Some (fault (env redisExec)) →
          used limits = JS.Num 0 ∧ ttl limits = JS.Num 0))
  ∧ (∀ address i d env w,
     let w1 := interfere (env addressesFindOne) w in
     let w2 := interfere (env redisExec) w1 in
     0 <= JS.indexOf address "@" →
     fault (env addressesFindOne) = None →
     findAddress (ByAddrview (addrview (norm address))) (addresses w1) = Some (i, d) →
     d_user d = None →
     ∃ limits,
       run (GetAddressInfo norm maxForwards MAX_FORWARDS address) env w
       = (w2,
          Reply 200
            (ForwardedJson i (d_address d) (List.map t_value <$> d_targets d) limits
               (default {[ "enabled" := JS.Bool false ]} (d_autoreply d)) (d_created d)))
       ∧ (∀ z, d_forwards d = JS.Num z → z ≠ 0 → allowed limits = JS.Num z)
       ∧ (d_forwards d = JS.Num 0 ∨ d_forwards d = JS.Undefined →
          allowed limits = JS.or maxForwards MAX_FORWARDS)
       ∧ (fault (env redisExec) = None → counters w2 !! counterKey i = None →
          used limits = JS.Num 0 ∧ ttl limits = JS.Bool false)
       ∧ (is_Some (fault (env redisExec)) →
          used limits = JS.Num 0 ∧ ttl limits = JS.Num 0)).
Proof.
  split.
  - intros i d env w w1 w2 Hf Hd [old Hold] Hu.
    destruct (forwardedInfo_run maxForwards MAX_FORWARDS i d (counterKey i) env w1)
      as (limits & Hrun & Hallowed & Hnone & Hdown).
    exists limits. split_and!; try done.
    + unfold GetForwardedAddress. cbn [run]. unfold call. rewrite Hf. fold w1.
      cbn [findAddress]. rewrite Hd. cbn [fmap option_fmap option_map].
      rewrite Hold, Hu. rewrite Hold in Hrun. exact Hrun.
    + intros z Hz Hne. rewrite Hallowed, Hz. by apply allowed_own_quota.
    + intros Hz. rewrite Hallowed. by apply allowed_default.
  - intros address i d env w w1 w2 Hat Hf Hfind Hu.
    destruct (forwardedInfo_run maxForwards MAX_FORWARDS i d (counterKey i) env w1)
      as (limits & Hrun & Hallowed & Hnone & Hdown).
    exists limits. split_and!; try done.
    + unfold GetAddressInfo.
      destruct (Z.leb_spec 0 (JS.indexOf address "@")); [|lia].
      cbn [run]. unfold call. rewrite Hf. fold w1. rewrite Hfind, Hu. exact Hrun.
    + intros z Hz Hne. rewrite Hallowed, Hz. by apply allowed_own_quota.
    + intros Hz. rewrite Hallowed. by apply allowed_default.
Qed.

Lemma forwarding_status_witness :
  (∃ limits,
     run (GetForwardedAddress (JS.Num 2000) (JS.Num 2000) 12%N) calm directory
     = (directory,
        Reply 200
          (ForwardedJson 12%N "info@x.org" (Some ["alice@x.org"; "smtp://mx.y.org:25"])
             limits infoAutoreply 30))
     ∧ allowed limits = JS.Num 50
     ∧ used limits = JS.Num 0 ∧ ttl limits = JS.Bool false)
  ∧ (∃ limits,
     run (GetAddressInfo lowerCaseAddress (JS.Num 2000) (JS.Num 2000) "In.Fo@x.org")
       trackerDown directory
     = (directory,
        Reply 200
          (ForwardedJson 12%N "info@x.org" (Some ["alice@x.org"; "smtp://mx.y.org:25"])
             limits infoAutoreply 30))
     ∧ allowed limits = JS.Num 50
     ∧ used limits = JS.Num 0 ∧ ttl limits = JS.Num 0).
Proof.
  destruct (forwarding_status lowerCaseAddress (JS.Num 2000) (JS.Num 2000)) as (H1 & H2).
  split.
  - destruct (H1 12%N info calm directory) as (limits & Hrun & Hown & _ & Hnone & _);
      [reflexivity|reflexivity|eexists; reflexivity|reflexivity|].
    exists limits. split; [exact Hrun|]. split; [by apply (Hown 50)|].
    apply Hnone; reflexivity.
  - destruct (H2 "In.Fo@x.org" 12%N info trackerDown directory)
      as (limits & Hrun & Hown & _ & _ & Hdown);
      [vm_compute; discriminate|reflexivity|vm_compute; reflexivity|reflexivity|].
    exists limits. split; [exact Hrun|]. split; [by apply (Hown 50)|].
    apply Hdown. eexists; reflexivity.
Defined.

(** C8 as stated fails when the counter store cannot be reached: the
    status of [info@x.org] is then reported with [used] 0 and [ttl] 0, not
    with the [false] that stands for an unbounded ttl. *)
Lemma tracker_down_reports_ttl_zero :
  run (GetForwardedAddress (JS.Num 2000) (JS.Num 2000) 12%N) trackerDown directory
  = (directory,
     Reply 200
       (ForwardedJson 12%N "info@x.org" (Some ["alice@x.org"; "smtp://mx.y.org:25"])
          (ForwardLimits (JS.Num 50) (JS.Num 0) (JS.Num 0)) infoAutoreply 30))
  ∧ JS.Num 0 ≠ JS.Bool false.
Proof. split; [vm_compute; reflexivity|discriminate]. Qed.

(** ** Further properties of the handlers *)

(** *** The canonical key is canonical *)

Lemma indexOf_split s c :
  0 <= JS.indexOf s c →
  ∃ l d, s = l +:+ String c d ∧ JS.indexOf l c = -1.
Proof.
  induction s as [|a s IH]; cbn [JS.indexOf]; [lia|].
  destruct (Ascii.eqb a c) eqn:E.
  - apply Ascii.eqb_eq in E as ->. intros _. by exists EmptyString, s.
  - destruct (Z.ltb_spec (JS.indexOf s c) 0); [lia|]. intros _.
    destruct IH as (l & d & -> & Hl); [lia|].
    exists (String a l), d. split; [done|].
    cbn [JS.indexOf]. rewrite E, Hl. done.
Qed.

Lemma indexOf_removeDots_at l :
  JS.indexOf l "@" = -1 → JS.indexOf (JS.removeDots l) "@" = -1.
Proof.
  induction l as [|a l IH]; [done|]. intros H.
  apply indexOf_tail in H as [Ha Hl]. cbn [JS.removeDots].
  destruct (Ascii.eqb a "."); [auto|].
  cbn [JS.indexOf]. rewrite Ha, (IH Hl). done.
Qed.

Lemma removeDots_idemp l : JS.removeDots (JS.removeDots l) = JS.removeDots l.
Proof.
  induction l as [|a l IH]; [done|]. cbn [JS.removeDots].
  destruct (Ascii.eqb a ".") eqn:E; [done|].
  cbn [JS.removeDots]. by rewrite E, IH.
Qed.

Lemma removeDots_no_dot l : JS.indexOf (JS.removeDots l) "." = -1.
Proof.
  induction l as [|a l IH]; [done|]. cbn [JS.removeDots].
  destruct (Ascii.eqb a ".") eqn:E; [done|].
  cbn [JS.indexOf]. by rewrite E, IH.
Qed.

Lemma drop_suffix_no_at n s :
  JS.indexOf s "@" = -1 → JS.indexOf (JS.drop n s) "@" = -1.
Proof.
  revert s. induction n as [|n IH]; intros s H; [by destruct s|].
  destruct s as [|a s]; [done|]. cbn [JS.drop].
  apply indexOf_tail in H as [_ H]. auto.
Qed.

Lemma drop_length n s :
  String.length (JS.drop n s) = (String.length s - n)%nat.
Proof.
  revert s. induction n as [|n IH]; intros [|a s]; cbn [JS.drop String.length];
    rewrite ?IH; lia.
Qed.

Lemma take_all n s : (String.length s <= n)%nat → JS.take n s = s.
Proof.
  revert s. induction n as [|n IH]; intros [|a s]; cbn [JS.take String.length];
    intros; try done; try lia.
  rewrite IH; [done|lia].
Qed.

Lemma addrview_without_at s :
  JS.indexOf s "@" = -1 →
  addrview s = JS.drop (String.length s - 1) s.
Proof.
  intros H. unfold addrview. rewrite H.
  unfold JS.substr, JS.substrFrom, JS.len.
  replace (0 <? 0) with false by done. replace (-1 <? 0) with true by done.
  assert (H0 : Z.min (Z.max (-1) 0)
                 (Z.of_nat (String.length s) - Z.min 0 (Z.of_nat (String.length s))) = 0)
    by lia.
  rewrite H0. cbn [Z.to_nat JS.take].
  assert (H1 : Z.to_nat (Z.max (Z.of_nat (String.length s) + -1) 0)
               = (String.length s - 1)%nat) by lia.
  rewrite H1. destruct (JS.drop (Z.to_nat _) s); reflexivity.
Qed.

(** X1.  The canonical key is a fixed point of its own computation, for
    every string: computing the key of a key gives the key again.  For a
    string with an [@], the key has no dot before its first [@]. *)
Theorem addrview_canonical s :
  addrview (addrview s) = addrview s
  ∧ (0 <= JS.indexOf s "@" →
     ∃ l d, addrview s = l +:+ "@" +:+ d
            ∧ JS.indexOf l "@" = -1 ∧ JS.indexOf l "." = -1).
Proof.
  destruct (Z.le_gt_cases 0 (JS.indexOf s "@")) as [Hat|Hno].
  - destruct (indexOf_split s "@" Hat) as (l & d & -> & Hl).
    rewrite addrview_split by done.
    split.
    + rewrite addrview_split by (by apply indexOf_removeDots_at).
      by rewrite removeDots_idemp.
    + intros _. exists (JS.removeDots l), d.
      split; [done|]. split; [by apply indexOf_removeDots_at|apply removeDots_no_dot].
  - assert (Hs : JS.indexOf s "@" = -1)
      by (pose proof (indexOf_lower_bound s "@"); lia).
    split; [|lia].
    rewrite (addrview_without_at s Hs).
    set (t := JS.drop (String.length s - 1) s).
    assert (Ht : JS.indexOf t "@" = -1) by (by apply drop_suffix_no_at).
    rewrite (addrview_without_at t Ht).
    assert (Hlen : (String.length t <= 1)%nat)
      by (subst t; rewrite drop_length; lia).
    destruct t as [|a [|b t]]; cbn [String.length] in *; try done; lia.
Qed.

Lemma addrview_canonical_witness :
  addrview (addrview "j.o.e@x.org") = addrview "j.o.e@x.org"
  ∧ ∃ l d, addrview "j.o.e@x.org" = l +:+ "@" +:+ d
           ∧ JS.indexOf l "@" = -1 ∧ JS.indexOf l "." = -1.
Proof.
  destruct (addrview_canonical "j.o.e@x.org") as [H1 H2].
  split; [exact H1|]. apply H2. vm_compute. discriminate.
Defined.

(** *** Requests are answered *)

Lemma replies_sound a :
  replies a → ∀ env w, answered (run a env w).2.
Proof.
  induction a as [| |k IH|k IH|i k IH|i address k IH|q k IH|al k IH|d k IH
                  |i u k IH|i k IH|key k IH];
    cbn [replies]; intros Hk env w; try done; cbn [run]; unfold call, callInsert.
  - by eexists _, _.
  - by apply IH.
  - by apply IH.
  - destruct (fault (env usersFindOne)); by apply IH.
  - destruct (fault (env usersFindOneAndUpdate)); [by apply IH|].
    destruct (setUserAddress _ _ _). by apply IH.
  - destruct (fault (env addressesFindOne)); by apply IH.
  - destruct (fault (env addressesFind)); by apply IH.
  - destruct (fault (env addressesInsertOne)); [by apply IH|].
    destruct (insertAddress _ _). by apply IH.
  - destruct (fault (env addressesFindOneAndUpdate)); [by apply IH|].
    destruct (updateAddress _ _ _). by apply IH.
  - destruct (fault (env addressesDeleteOne)); [by apply IH|].
    destruct (deleteAddress _ _). by apply IH.
  - destruct (fault (env redisExec)); by apply IH.
Qed.

Lemma replies_targetsLoop norm self ts :
  ∀ seen al k,
    (∀ seen' al', replies (k seen' al')) →
    replies (targetsLoop norm self ts seen al k).
Proof.
  induction ts as [|t ts IH]; intros seen al k Hk; cbn [targetsLoop]; [done|].
  repeat match goal with
         | |- context [if ?b then _ else _] => destruct b
         end; cbn [replies]; auto.
Qed.

Lemma replies_resolveUsers ts al done :
  (∀ ts', replies (done ts')) → replies (resolveUsers ts al done).
Proof.
  intros Hk. unfold resolveUsers. destruct al; [done|].
  cbn [replies]. intros [err|l]; [done|apply Hk].
Qed.

Ltac replies_cases :=
  repeat first
    [ progress cbn [replies]
    | progress intros
    | match goal with
      | |- replies (match ?x with _ => _ end) => destruct x
      | |- replies (if ?b then _ else _) => destruct b
      | |- replies (let _ := _ in _) => cbv zeta
      end
    | done ].

Lemma PostUserAddress_replies norm p : replies (PostUserAddress norm p).
Proof. unfold PostUserAddress, databaseError. replies_cases. Qed.

Lemma PutUserAddress_replies p : replies (PutUserAddress p).
Proof. unfold PutUserAddress, databaseError. replies_cases. Qed.

Lemma DeleteForwardedAddress_replies i : replies (DeleteForwardedAddress i).
Proof. unfold DeleteForwardedAddress, databaseError. replies_cases. Qed.

Lemma forwardedInfo_replies maxForwards MAX_FORWARDS i d key :
  replies (forwardedInfo maxForwards MAX_FORWARDS i d key).
Proof. unfold forwardedInfo. replies_cases. Qed.

Lemma GetForwardedAddress_replies maxForwards MAX_FORWARDS i :
  replies (GetForwardedAddress maxForwards MAX_FORWARDS i).
Proof.
  unfold GetForwardedAddress, databaseError. cbn [replies].
  intros [err|[[j d]|]]; try done.
  destruct (d_targets d), (d_user d); try done; try apply forwardedInfo_replies.
Qed.

Lemma GetAddressInfo_replies norm maxForwards MAX_FORWARDS address :
  replies (GetAddressInfo norm maxForwards MAX_FORWARDS address).
Proof.
  unfold GetAddressInfo, databaseError. cbn [replies].
  intros [err|[[j d]|]]; try done.
  destruct (d_user d); try done; try apply forwardedInfo_replies.
Qed.

Lemma PutForwardedAddress_replies norm p : replies (PutForwardedAddress norm p).
Proof.
  unfold PutForwardedAddress, databaseError. cbn [replies].
  intros [err|[[j d]|]]; try done.
  destruct (d_targets d) as [old|], (d_user d) as [owner|]; try done.
  destruct (uf_targets p) as [ts|]; [|replies_cases].
  apply replies_targetsLoop. intros seen al.
  apply replies_resolveUsers. intros [|t' l']; replies_cases.
Qed.

Lemma PostForwardedAddress_replies norm p :
  is_Some (pf_targets p) → replies (PostForwardedAddress norm p).
Proof.
  intros [ts Hts]. unfold PostForwardedAddress, databaseError. rewrite Hts.
  apply replies_targetsLoop. intros seen al.
  destruct (0 <=? JS.indexOf _ "+"); [done|].
  destruct (wildcardError _ _ _); [done|].
  cbn [replies]. intros [err|[x|]]; try done.
  apply replies_resolveUsers. intros ts'. replies_cases.
Qed.

Lemma autoreplyFields_no_test a raw : firstInTest a = None → autoreplyFields a raw = a.
Proof.
  unfold firstInTest, autoreplyFields.
  destruct (JS.truthy (field a "subject")); cbn [negb andb]; [|done].
  destruct (JS.truthy (field a "text")); cbn [negb andb]; [|done].
  by destruct (JS.truthy (field a "html")).
Qed.

(** X2.  Every create, promote, update, delete-forwarded and read request
    is answered with a response, whatever the store calls return and
    whatever other clients write in between, with these exceptions on the
    two forwarded-address routes: a request whose autoreply parameter was
    sent as a string, and whose validated autoreply has no content under
    [subject], [text] or [html], ends in the [TypeError] of the first [in]
    that is evaluated, before any store call; and
    [POST /addresses/forwarded] is answered given that the request has a
    [targets] field. *)
Theorem requests_are_answered norm maxForwards MAX_FORWARDS env w :
  (∀ p, answered (run (PostUserAddress norm p) env w).2)
  ∧ (∀ p, answered (run (PutUserAddress p) env w).2)
  ∧ (∀ address targets forwards allowWildcard autoreply sent,
       let request :=
         PostForwardedRequest norm address targets forwards allowWildcard autoreply sent in
       match failingIn autoreply sent with
       | Some (key, s) => run request env w = (w, Uncaught (inOperatorError key s))
       | None => is_Some targets → answered (run request env w).2
       end)
  ∧ (∀ address targets forwards autoreply sent,
       let request := PutForwardedRequest norm address targets forwards autoreply sent in
       match failingIn autoreply sent with
       | Some (key, s) => run request env w = (w, Uncaught (inOperatorError key s))
       | None => answered (run request env w).2
       end)
  ∧ (∀ i, answered (run (DeleteForwardedAddress i) env w).2)
  ∧ (∀ i, answered (run (GetForwardedAddress maxForwards MAX_FORWARDS i) env w).2)
  ∧ (∀ a, answered (run (GetAddressInfo norm maxForwards MAX_FORWARDS a) env w).2).
Proof.
  split_and!; intros.
  - apply replies_sound, PostUserAddress_replies.
  - apply replies_sound, PutUserAddress_replies.
  - subst request. unfold PostForwardedRequest, withSent.
    destruct sent as [o|s].
    + cbn [failingIn]. intros Hts. by apply replies_sound, PostForwardedAddress_replies.
    + destruct (failingIn autoreply (SentText s)) as [[key s']|] eqn:Hin.
      * unfold failingIn in Hin. destruct (autoreply ≫= firstInTest); [|done].
        by injection Hin as <- <-.
      * intros Hts. by apply replies_sound, PostForwardedAddress_replies.
  - subst request. unfold PutForwardedRequest, withSent.
    destruct sent as [o|s].
    + cbn [failingIn]. apply replies_sound, PutForwardedAddress_replies.
    + destruct (failingIn autoreply (SentText s)) as [[key s']|] eqn:Hin.
      * unfold failingIn in Hin. destruct (autoreply ≫= firstInTest); [|done].
        by injection Hin as <- <-.
      * apply replies_sound, PutForwardedAddress_replies.
  - apply replies_sound, DeleteForwardedAddress_replies.
  - apply replies_sound, GetForwardedAddress_replies.
  - apply replies_sound, GetAddressInfo_replies.
Qed.

Lemma requests_are_answered_witness :
  answered
    (run (PostForwardedRequest lowerCaseAddress "x+y@x.org" (Some ["nowhere"]) (JS.Num 0)
            false None (SentObject ∅))
       trackerDown directory).2
  ∧ run (PutForwardedRequest lowerCaseAddress 12%N None JS.Undefined (Some ∅)
           (SentText "{}")) calm directory
    = (directory, Uncaught (inOperatorError "subject" "{}")).
Proof.
  destruct (requests_are_answered lowerCaseAddress (JS.Num 2000) (JS.Num 2000)
              trackerDown directory) as (_ & _ & H & _).
  destruct (requests_are_answered lowerCaseAddress (JS.Num 2000) (JS.Num 2000)
              calm directory) as (_ & _ & _ & H' & _).
  split.
  - apply (H "x+y@x.org" (Some ["nowhere"]) (JS.Num 0) false None (SentObject ∅)).
    eexists; reflexivity.
  - exact (H' 12%N None JS.Undefined (Some ∅) (SentText "{}")).
Defined.

(** X3.  The two paths that do end in a [TypeError]: creating a forwarded
    address with no [targets] field, before any store call; and deleting,
    as a user address, a record that has no [user] (a forwarded address),
    after both lookups.  In both cases nothing is written.  A delete
    request that finds a record with an owner is answered. *)
Theorem requests_that_throw norm :
  (∀ p env w,
     pf_targets p = None →
     run (PostForwardedAddress norm p) env w
     = (w, Uncaught "TypeError: Cannot read property 'length' of undefined"))
  ∧ (∀ p env w u d,
     let w1 := interfere (env usersFindOne) w in
     let w2 := interfere (env addressesFindOne) w1 in
     fault (env usersFindOne) = None →
     users w1 !! ua_user p = Some u →
     fault (env addressesFindOne) = None →
     addresses w2 !! ua_address p = Some d →
     (d_user d = None →
      run (DeleteUserAddress p) env w
      = (w2, Uncaught "TypeError: Cannot read property 'toString' of undefined"))
     ∧ (is_Some (d_user d) → answered (run (DeleteUserAddress p) env w).2)).
Proof.
  split.
  - intros p env w Hts. unfold PostForwardedAddress. by rewrite Hts.
  - intros p env w u d w1 w2 Hf1 Hu Hf2 Hd.
    unfold DeleteUserAddress. cbn [run]. unfold call. rewrite Hf1. fold w1.
    rewrite Hu. cbn [run]. unfold call. rewrite Hf2. fold w2.
    cbn [findAddress]. rewrite Hd. cbn [fmap option_fmap option_map].
    split.
    + by intros ->.
    + intros [owner ->].
      destruct (negb (owner =? ua_user p)%N); [by eexists _, _|].
      destruct (bool_decide _); [by eexists _, _|].
      cbn [run]. unfold call.
      destruct (fault (env addressesDeleteOne)); [by eexists _, _|].
      destruct (deleteAddress _ _). by eexists _, _.
Qed.

Lemma requests_that_throw_witness :
  run (PostForwardedAddress lowerCaseAddress
         (PostForwardedParams "list@x.org" None (JS.Num 0) false None ∅)) calm directory
  = (directory, Uncaught "TypeError: Cannot read property 'length' of undefined")
  ∧ run (DeleteUserAddress (UserAddressParams alice 12%N true)) calm directory
    = (directory, Uncaught "TypeError: Cannot read property 'toString' of undefined").
Proof.
  destruct (requests_that_throw lowerCaseAddress) as [H1 H2].
  split.
  - by apply H1.
  - apply (H2 (UserAddressParams alice 12%N true) calm directory
             (UserDoc (Some "alice@x.org")) info); reflexivity.
Defined.

(** *** What the requests on a user's addresses can change *)

Ltac fstep :=
  cbn [run fst snd]; unfold call, callInsert; cbn [faults interfere fault id].

Lemma PutUserAddress_effect p f w :
  let after := run (PutUserAddress p) (faults f) w in
  addresses after.1 = addresses w
  ∧ ((users after.1 = users w ∧ after.2 ≠ Reply 200 (SuccessJson true))
     ∨ (∃ d,
          ua_main p = true
          ∧ is_Some (users w !! ua_user p)
          ∧ addresses w !! ua_address p = Some d
          ∧ d_user d = Some (ua_user p)
          ∧ JS.indexOf (d_address d) "*" < 0
          ∧ users after.1 = <[ua_user p := UserDoc (Some (d_address d))]> (users w)
          ∧ after.2 = Reply 200 (SuccessJson true))).
Proof.
  cbv zeta. unfold PutUserAddress, databaseError.
  destruct (ua_main p) eqn:Hmain; cbn [negb]; [|by split; [|left]].
  fstep. destruct (f usersFindOne); [by split; [|left]|].
  destruct (users w !! ua_user p) as [u|] eqn:Hu; [|by split; [|left]].
  fstep. destruct (f addressesFindOne); [by split; [|left]|].
  cbn [findAddress]. destruct (addresses w !! ua_address p) as [d|] eqn:Hd;
    cbn [fmap option_fmap option_map]; [|by split; [|left]].
  destruct (d_user d) as [owner|] eqn:Ho; [|by split; [|left]].
  destruct (N.eqb_spec owner (ua_user p)) as [->|?]; cbn [negb]; [|by split; [|left]].
  destruct (bool_decide _); [by split; [|left]|].
  destruct (Z.leb_spec 0 (JS.indexOf (d_address d) "*")); cbn [andb];
    [by split; [|left]|].
  fstep. destruct (f usersFindOneAndUpdate); [by split; [|left]|].
  unfold setUserAddress. rewrite Hu. fstep.
  split; [done|]. right. exists d. by split_and!.
Qed.

(** X4.  Whatever store call fails, a promote request changes no address
    record, and it changes the [users] collection in one way only: with
    [main] set, for an existing user and a record of that user whose
    address has no [*], the user's default becomes that record's address,
    and exactly then the response is a success.  So a default is never
    unset, never set to another user's or a forwarded address, and never
    set to a wildcard address by this request. *)
Theorem promote_effect p f w :
  let after := run (PutUserAddress p) (faults f) w in
  addresses after.1 = addresses w
  ∧ ((users after.1 = users w ∧ after.2 ≠ Reply 200 (SuccessJson true))
     ∨ (∃ d,
          ua_main p = true
          ∧ is_Some (users w !! ua_user p)
          ∧ addresses w !! ua_address p = Some d
          ∧ d_user d = Some (ua_user p)
          ∧ JS.indexOf (d_address d) "*" < 0
          ∧ users after.1 = <[ua_user p := UserDoc (Some (d_address d))]> (users w)
          ∧ after.2 = Reply 200 (SuccessJson true))).
Proof. exact (PutUserAddress_effect p f w). Qed.

Lemma DeleteUserAddress_effect p f w :
  let after := run (DeleteUserAddress p) (faults f) w in
  users after.1 = users w
  ∧ ((addresses after.1 = addresses w ∧ after.2 ≠ Reply 200 (SuccessJson true))
     ∨ (∃ u d,
          users w !! ua_user p = Some u
          ∧ addresses w !! ua_address p = Some d
          ∧ d_user d = Some (ua_user p)
          ∧ u_address u ≠ Some (d_address d)
          ∧ addresses after.1 = delete (ua_address p) (addresses w)
          ∧ after.2 = Reply 200 (SuccessJson true))).
Proof.
  cbv zeta. unfold DeleteUserAddress, databaseError.
  fstep. destruct (f usersFindOne); [by split; [|left]|].
  destruct (users w !! ua_user p) as [u|] eqn:Hu; [|by split; [|left]].
  fstep. destruct (f addressesFindOne); [by split; [|left]|].
  cbn [findAddress]. destruct (addresses w !! ua_address p) as [d|] eqn:Hd;
    cbn [fmap option_fmap option_map]; [|by split; [|left]].
  destruct (d_user d) as [owner|] eqn:Ho; [|by split; [|left]].
  destruct (N.eqb_spec owner (ua_user p)) as [->|?]; cbn [negb]; [|by split; [|left]].
  destruct (bool_decide_reflect (Some (d_address d) = u_address u)) as [Heq|Hne];
    [by split; [|left]|].
  fstep. destruct (f addressesDeleteOne); [by split; [|left]|].
  unfold deleteAddress. rewrite Hd. fstep.
  split; [done|]. right. exists u, d. by split_and!.
Qed.

(** X5.  Whatever store call fails, a delete request on a user's address
    changes no user, and it changes the [addresses] collection in one way
    only: for an existing user and a record of that user whose address is
    not the user's default, that record is removed, and exactly then the
    response is a success.  No other record is ever removed. *)
Theorem delete_effect p f w :
  let after := run (DeleteUserAddress p) (faults f) w in
  users after.1 = users w
  ∧ ((addresses after.1 = addresses w ∧ after.2 ≠ Reply 200 (SuccessJson true))
     ∨ (∃ u d,
          users w !! ua_user p = Some u
          ∧ addresses w !! ua_address p = Some d
          ∧ d_user d = Some (ua_user p)
          ∧ u_address u ≠ Some (d_address d)
          ∧ addresses after.1 = delete (ua_address p) (addresses w)
          ∧ after.2 = Reply 200 (SuccessJson true))).
Proof. exact (DeleteUserAddress_effect p f w). Qed.

(** X6.  The three requests on a user's addresses answer an unknown user
    with [UserNotFound], and promote and delete answer a record of
    another user with a 404 [AddressNotFound]; in each case the world is
    left as it was. *)
Theorem unknown_user_or_foreign_address norm :
  (∀ p w,
     let address := norm (pu_address p) in
     JS.indexOf address "+" < 0 →
     wildcardError address (pu_allowWildcard p) (pu_main p) = None →
     users w !! pu_user p = None →
     run (PostUserAddress norm p) calm w = (w, Reply 200 userNotFound))
  ∧ (∀ p w,
     users w !! ua_user p = None →
     (ua_main p = true →
      run (PutUserAddress p) calm w = (w, Reply 200 userNotFound))
     ∧ run (DeleteUserAddress p) calm w = (w, Reply 200 userNotFound))
  ∧ (∀ p w u d owner,
     users w !! ua_user p = Some u →
     addresses w !! ua_address p = Some d →
     d_user d = Some owner → owner ≠ ua_user p →
     (ua_main p = true →
      run (PutUserAddress p) calm w = (w, Reply 404 addressNotFound))
     ∧ run (DeleteUserAddress p) calm w = (w, Reply 404 addressNotFound)).
Proof.
  split_and!.
  - intros p w address Hplus Hwild Hu.
    unfold PostUserAddress. fold address. no_plus Hplus. rewrite Hwild.
    cbn [run]. unfold call. cbn [calm quiet interfere fault id]. by rewrite Hu.
  - intros p w Hu. split.
    + intros Hmain. unfold PutUserAddress. rewrite Hmain. cbn [negb run].
      unfold call. cbn [calm quiet interfere fault id]. by rewrite Hu.
    + unfold DeleteUserAddress. cbn [run].
      unfold call. cbn [calm quiet interfere fault id]. by rewrite Hu.
  - intros p w u d owner Hu Hd Ho Hne.
    assert (Hneq : (owner =? ua_user p)%N = false) by (by apply N.eqb_neq).
    split.
    + intros Hmain. unfold PutUserAddress. rewrite Hmain. cbn [negb run].
      unfold call. cbn [calm quiet interfere fault id]. rewrite Hu.
      cbn [run]. unfold call. cbn [calm quiet interfere fault id findAddress].
      rewrite Hd. cbn [fmap option_fmap option_map]. by rewrite Ho, Hneq.
    + unfold DeleteUserAddress. cbn [run].
      unfold call. cbn [calm quiet interfere fault id]. rewrite Hu.
      cbn [run]. unfold call. cbn [calm quiet interfere fault id findAddress].
      rewrite Hd. cbn [fmap option_fmap option_map]. by rewrite Ho, Hneq.
Qed.

Lemma unknown_user_or_foreign_address_witness :
  run (PostUserAddress lowerCaseAddress (PostUserAddressParams 7%N "bob@x.org" false false))
    calm directory
  = (directory, Reply 200 userNotFound)
  ∧ run (DeleteUserAddress (UserAddressParams 7%N 11%N true)) calm directory
    = (directory, Reply 200 userNotFound)
  ∧ run (PutUserAddress (UserAddressParams alice 50%N true)) calm (otherClient directory)
    = (otherClient directory, Reply 404 addressNotFound).
Proof.
  destruct (unknown_user_or_foreign_address lowerCaseAddress) as (H1 & H2 & H3).
  split_and!.
  - apply (H1 (PostUserAddressParams 7%N "bob@x.org" false false) directory);
      vm_compute; reflexivity.
  - apply (H2 (UserAddressParams 7%N 11%N true) directory). reflexivity.
  - apply (H3 (UserAddressParams alice 50%N true) (otherClient directory)
             (UserDoc (Some "alice@x.org"))
             (AddrDoc (Some 2%N) "abc@x.org" "abc@x.org" None JS.Undefined None 999) 2%N);
      try reflexivity. vm_compute. discriminate.
Defined.

(** *** What the create requests can change *)

Lemma findAddress_none_key k (m : gmap N addrdoc) i d :
  findAddress (ByAddrview k) m = None → m !! i = Some d → d_addrview d ≠ k.
Proof.
  unfold findAddress, withAddrview. intros Hnone Hd Hk.
  assert (Hin : (i, d) ∈ List.filter (λ p, String.eqb (d_addrview p.2) k) (map_to_list m)).
  { apply list_elem_of_In, filter_In. split.
    - apply list_elem_of_In, elem_of_map_to_list, Hd.
    - cbn. by apply String.eqb_eq. }
  destruct (List.filter _ _); [by apply elem_of_nil in Hin|discriminate].
Qed.

Lemma wildcardError_is_error address allow main body :
  wildcardError address allow main = Some body → ∃ message, body = ErrorJson message None.
Proof.
  unfold wildcardError, invalidWildcard.
  repeat match goal with
         | |- context [if ?b then _ else _] => destruct b
         end; intros [= <-]; by eexists.
Qed.

Ltac stay := fstep; left; split_and!; first [done | intros; discriminate].

Lemma PostUserAddress_effect norm p f w :
  let address := norm (pu_address p) in
  let doc :=
    AddrDoc (Some (pu_user p)) address (addrview address) None JS.Undefined None
      (clock w) in
  let after := run (PostUserAddress norm p) (faults f) w in
  (addresses after.1 = addresses w ∧ users after.1 = users w
   ∧ ∀ i, after.2 ≠ Reply 200 (CreatedJson true i))
  ∨ (JS.indexOf address "+" < 0
     ∧ wildcardError address (pu_allowWildcard p) (pu_main p) = None
     ∧ findAddress (ByAddrview (addrview address)) (addresses w) = None
     ∧ addresses w !! nextId w = None
     ∧ addresses after.1 = <[nextId w := doc]> (addresses w)
     ∧ after.2 = Reply 200 (CreatedJson true (nextId w))
     ∧ ∃ u, users w !! pu_user p = Some u
         ∧ (users after.1 = users w
            ∨ (falsy (u_address u) || pu_main p = true
               ∧ users after.1 = <[pu_user p := UserDoc (Some address)]> (users w)))).
Proof.
  intros address doc after. subst after.
  unfold PostUserAddress, databaseError. fold address.
  destruct (Z.leb_spec 0 (JS.indexOf address "+")) as [?|Hplus]; [stay|].
  destruct (wildcardError address _ _) eqn:Hwild;
    [apply wildcardError_is_error in Hwild as [message ->]; stay|].
  fstep. destruct (f usersFindOne); [stay|].
  destruct (users w !! pu_user p) as [u|] eqn:Hu; [|stay].
  fstep. destruct (f addressesFindOne); [stay|].
  destruct (findAddress _ (addresses w)) as [x|] eqn:Hnone; [stay|].
  fstep. destruct (f addressesInsertOne); [stay|].
  unfold insertAddress. cbn [d_addrview]. rewrite Hnone.
  destruct (addresses w !! nextId w) eqn:Hfree; [stay|].
  destruct (falsy (u_address u) || pu_main p) eqn:Hp;
    [destruct (f usersFindOneAndUpdate) eqn:Hf4|];
    fstep; rewrite ?Hf4; unfold setUserAddress;
    cbn [set_addresses set_nextId users addresses]; rewrite ?Hu; fstep; cbn [set_users users addresses];
    right; split_and!;
    first [done | exists u; split; [done|]; first [by left | by right]].
Qed.

(** X7.  Whatever store call fails, a request for a new user address
    either inserts nothing and promotes nothing, and is then not answered
    with a created id, or it inserts exactly one record: for an existing
    user, under a free id, owned by the user, with the normalized address,
    its key and the time of the request, after the address has passed the
    [+] and wildcard checks and the lookup has found its key free; the
    response then carries the new id.  The owner's default changes only
    together with such an insert, only to the new address, and only when
    [main] was set or the owner had no default. *)
Theorem create_user_address_effect norm p f w :
  let address := norm (pu_address p) in
  let doc :=
    AddrDoc (Some (pu_user p)) address (addrview address) None JS.Undefined None
      (clock w) in
  let after := run (PostUserAddress norm p) (faults f) w in
  (addresses after.1 = addresses w ∧ users after.1 = users w
   ∧ ∀ i, after.2 ≠ Reply 200 (CreatedJson true i))
  ∨ (JS.indexOf address "+" < 0
     ∧ wildcardError address (pu_allowWildcard p) (pu_main p) = None
     ∧ findAddress (ByAddrview (addrview address)) (addresses w) = None
     ∧ addresses w !! nextId w = None
     ∧ addresses after.1 = <[nextId w := doc]> (addresses w)
     ∧ after.2 = Reply 200 (CreatedJson true (nextId w))
     ∧ ∃ u, users w !! pu_user p = Some u
         ∧ (users after.1 = users w
            ∨ (falsy (u_address u) || pu_main p = true
               ∧ users after.1 = <[pu_user p := UserDoc (Some address)]> (users w)))).
Proof. exact (PostUserAddress_effect norm p f w). Qed.

Lemma targetsLoop_refuses norm self ts :
  ¬ Forall (λ t, passes norm self t = true) ts →
  ∀ seen al k env w,
    ∃ n message,
      run (targetsLoop norm self ts seen al k) env w
      = (afterIds n w, Reply 200 (ErrorJson message (Some "InputValidationError"))).
Proof.
  induction ts as [|t ts IH]; intros Hnot seen al k env w;
    [by destruct Hnot|].
  cbn [targetsLoop].
  change (negb (JS.isSmtp t) && negb (JS.isHttp t) && (0 <=? JS.indexOf t "@"))
    with (isMailTarget t).
  destruct (passes norm self t) eqn:Hp.
  - assert (Hrest : ¬ Forall (λ t, passes norm self t = true) ts)
      by (intros H; apply Hnot; by constructor).
    destruct (passes_inv _ _ _ Hp) as [[Hm Hk]|[Hm [Hr|[Hr Hh]]]]; rewrite Hm.
    + fold (targetKey norm t). rewrite Hk. cbn [run].
      destruct (IH Hrest (seen ++ [(Target (nextId w) mail t None, Some (targetKey norm t))])
                  (al ++ [targetKey norm t]) k env (set_nextId (nextId w + 1)%N w))
        as (n & message & ->).
      exists (1 + n)%N, message.
      by rewrite set_nextId_afterIds, afterIds_afterIds.
    + rewrite Hr. cbn [run].
      destruct (IH Hrest (seen ++ [(Target (nextId w) relay t None, None)]) al k env
                  (set_nextId (nextId w + 1)%N w)) as (n & message & ->).
      exists (1 + n)%N, message.
      by rewrite set_nextId_afterIds, afterIds_afterIds.
    + rewrite Hr, Hh. cbn [run].
      destruct (IH Hrest (seen ++ [(Target (nextId w) http t None, None)]) al k env
                  (set_nextId (nextId w + 1)%N w)) as (n & message & ->).
      exists (1 + n)%N, message.
      by rewrite set_nextId_afterIds, afterIds_afterIds.
  - unfold passes, knownTarget, selfTarget in Hp. fold (targetKey norm t).
    destruct (isMailTarget t).
    + destruct (String.eqb (targetKey norm t) self); [|done].
      cbn [run]. exists 0%N. eexists. by rewrite afterIds_0.
    + destruct (JS.isSmtp t); [done|]. destruct (JS.isHttp t); [done|].
      cbn [run]. exists 0%N. eexists. by rewrite afterIds_0.
Qed.

Lemma Forall_passes_dec norm self ts :
  Forall (λ t, passes norm self t = true) ts
  ∨ ¬ Forall (λ t, passes norm self t = true) ts.
Proof.
  destruct (decide (Forall (λ t, passes norm self t = true) ts)); auto.
Qed.

Lemma resolveUsers_faults ts al done f w :
  run (resolveUsers ts al done) (faults f) w
  = run (done (boundTargets (addresses w) ts al)) (faults f) w
  ∨ (∃ err, run (resolveUsers ts al done) (faults f) w = run (databaseError err) (faults f) w).
Proof.
  unfold resolveUsers, boundTargets. destruct al as [|a al]; [by left|].
  fstep. destruct (f addressesFind) as [err|]; [right; by exists err|by left].
Qed.

Lemma PostForwardedAddress_effect norm p f w :
  let address := norm (pf_address p) in
  let autoreply :=
    match pf_autoreply p with
    | Some a => autoreplyFields a (pf_rawAutoreply p)
    | None => {[ "enabled" := JS.Bool false ]}
    end in
  let after := run (PostForwardedAddress norm p) (faults f) w in
  users after.1 = users w
  ∧ ((addresses after.1 = addresses w ∧ ∀ i, after.2 ≠ Reply 200 (CreatedJson true i))
     ∨ (∃ ts,
          let newId := (nextId w + N.of_nat (length ts))%N in
          pf_targets p = Some ts
          ∧ Forall (λ t, passes norm (addrview address) t = true) ts
          ∧ JS.indexOf address "+" < 0
          ∧ wildcardError address (pf_allowWildcard p) false = None
          ∧ findAddress (ByAddrview (addrview address)) (addresses w) = None
          ∧ addresses w !! newId = None
          ∧ addresses after.1
            = <[newId :=
                  AddrDoc None address (addrview address)
                    (Some (boundTargets (addresses w) (descriptors norm (nextId w) ts)
                             (mailKeys norm ts)))
                    (pf_forwards p) (Some autoreply) (clock w)]> (addresses w)
          ∧ after.2 = Reply 200 (CreatedJson true newId))).
Proof.
  intros address autoreply after. subst after.
  unfold PostForwardedAddress. fold address.
  destruct (pf_targets p) as [ts|] eqn:Hts; [|by split; [|left]].
  destruct (Forall_passes_dec norm (addrview address) ts) as [Hpass|Hnot].
  2:{ edestruct (targetsLoop_refuses norm (addrview address) ts Hnot)
        as (n & message & ->). by split; [|left]. }
  rewrite (targetsLoop_passes _ _ _ Hpass). cbn [app].
  destruct (Z.leb_spec 0 (JS.indexOf address "+")) as [?|Hplus]; [by split; [|left]|].
  destruct (wildcardError address _ _) eqn:Hwild;
    [apply wildcardError_is_error in Hwild as [message ->]; by split; [|left]|].
  fstep. destruct (f addressesFindOne); [by split; [|left]|].
  change (addresses (afterTargets ts w)) with (addresses w).
  destruct (findAddress _ (addresses w)) as [x|] eqn:Hnone; [by split; [|left]|].
  destruct (resolveUsers_faults (descriptors norm (nextId w) ts) (mailKeys norm ts)
              (λ targets, NewDate (λ now,
                 AddressesInsertOne
                   (AddrDoc None address (addrview address) (Some targets)
                      (pf_forwards p) (Some autoreply) now)
                   (λ r, match r with
                         | inl err => databaseError err
                         | inr insertId => Respond 200 (CreatedJson true insertId)
                         end)))
              f (afterTargets ts w)) as [Hres|[err Hres]].
  2:{ subst autoreply. rewrite Hres. by split; [|left]. }
  subst autoreply. rewrite Hres. clear Hres.
  fstep. destruct (f addressesInsertOne); [by split; [|left]|].
  unfold insertAddress. cbn [d_addrview].
  change (addresses (afterTargets ts w)) with (addresses w).
  change (nextId (afterTargets ts w)) with (nextId w + N.of_nat (length ts))%N.
  rewrite Hnone.
  destruct (addresses w !! (nextId w + N.of_nat (length ts))%N) eqn:Hfree;
    [by split; [|left]|].
  split; [done|]. right. exists ts. by split_and!.
Qed.

(** X8.  Whatever store call fails, a request for a new forwarded address
    changes no user and either inserts nothing, and is then not answered
    with a created id, or inserts exactly one record: under a free id,
    without owner, with the normalized address and its key, the
    descriptors of the request's targets, the request's quota and
    normalized autoreply, after every target has passed the loop, the
    address has passed the [+] and wildcard checks and the lookup has
    found its key free. *)
Theorem create_forwarded_address_effect norm p f w :
  let address := norm (pf_address p) in
  let autoreply :=
    match pf_autoreply p with
    | Some a => autoreplyFields a (pf_rawAutoreply p)
    | None => {[ "enabled" := JS.Bool false ]}
    end in
  let after := run (PostForwardedAddress norm p) (faults f) w in
  users after.1 = users w
  ∧ ((addresses after.1 = addresses w ∧ ∀ i, after.2 ≠ Reply 200 (CreatedJson true i))
     ∨ (∃ ts,
          let newId := (nextId w + N.of_nat (length ts))%N in
          pf_targets p = Some ts
          ∧ Forall (λ t, passes norm (addrview address) t = true) ts
          ∧ JS.indexOf address "+" < 0
          ∧ wildcardError address (pf_allowWildcard p) false = None
          ∧ findAddress (ByAddrview (addrview address)) (addresses w) = None
          ∧ addresses w !! newId = None
          ∧ addresses after.1
            = <[newId :=
                  AddrDoc None address (addrview address)
                    (Some (boundTargets (addresses w) (descriptors norm (nextId w) ts)
                             (mailKeys norm ts)))
                    (pf_forwards p) (Some autoreply) (clock w)]> (addresses w)
          ∧ after.2 = Reply 200 (CreatedJson true newId))).
Proof. exact (PostForwardedAddress_effect norm p f w). Qed.

(** *** What the requests on a forwarded address can change *)

Lemma PutForwardedAddress_effect norm p f w :
  let after := run (PutForwardedAddress norm p) (faults f) w in
  users after.1 = users w
  ∧ ((addresses after.1 = addresses w ∧ after.2 ≠ Reply 200 (SuccessJson true))
     ∨ (∃ d,
          let d' := applySet (putSetDoc norm p (addresses w) (nextId w)) d in
          addresses w !! uf_address p = Some d
          ∧ is_Some (d_targets d) ∧ d_user d = None
          ∧ Forall (λ t, passes norm (d_addrview d) t = true) (targetsOf (uf_targets p))
          ∧ addresses after.1 = <[uf_address p := d']> (addresses w)
          ∧ d_address d' = d_address d ∧ d_addrview d' = d_addrview d
          ∧ d_user d' = None ∧ is_Some (d_targets d')
          ∧ d_created d' = d_created d
          ∧ after.2 = Reply 200 (SuccessJson true))).
Proof.
  cbv zeta. unfold PutForwardedAddress, databaseError.
  fstep. destruct (f addressesFindOne) eqn:Hf1; [by split; [|left]|].
  cbn [findAddress]. destruct (addresses w !! uf_address p) as [d|] eqn:Hd;
    cbn [fmap option_fmap option_map]; [|by split; [|left]].
  destruct (d_targets d) as [old|] eqn:Hold; [|by split; [|left]].
  destruct (d_user d) as [owner|] eqn:Ho; [by split; [|left]|].
  assert (Hshape : ∀ u, is_Some (d_targets (applySet u d))).
  { intros u. unfold applySet. cbn [d_targets]. rewrite Hold.
    destruct (upd_targets u); by eexists. }
  destruct (uf_targets p) as [ts|] eqn:Hts.
  - destruct (Forall_passes_dec norm (d_addrview d) ts) as [Hpass|Hnot].
    2:{ edestruct (targetsLoop_refuses norm (d_addrview d) ts Hnot)
          as (n & message & ->). by split; [|left]. }
    rewrite (targetsLoop_passes _ _ _ Hpass). cbn [app].
    match goal with
    | |- context [run (resolveUsers ?t ?a ?k) _ _] =>
        destruct (resolveUsers_faults t a k f (afterTargets ts w)) as [Hres|[err Hres]];
          rewrite Hres; clear Hres
    end.
    2:{ by split; [|left]. }
    change (addresses (afterTargets ts w)) with (addresses w).
    destruct (boundTargets _ _ _) as [|t l] eqn:Hb;
      cbn [upd_forwards upd_autoreply]; fstep;
      (destruct (f addressesFindOneAndUpdate); [by split; [|left]|]);
      unfold updateAddress; change (addresses (afterTargets ts w)) with (addresses w);
      rewrite Hd; fstep; (split; [done|]); right; exists d;
      unfold putSetDoc; rewrite Hts, Hb;
      cbn [set_addresses addresses targetsOf default from_option id];
      split_and!; try done; try (by eexists).
  - fstep. destruct (f addressesFindOneAndUpdate); [by split; [|left]|].
    unfold updateAddress. rewrite Hd. fstep. split; [done|]. right. exists d.
    unfold putSetDoc. rewrite Hts. cbn [set_addresses addresses targetsOf default].
    split_and!; try done; by eexists.
Qed.

(** X9.  Whatever store call fails, an update of a forwarded address
    changes no user and at most the one record it names, and that only
    when the record is a forwarded address (targets, no owner) and every
    new target passes the loop: the record then gets the [$set] document
    of the request, which leaves its address, key, owner and creation
    time as they are, and the response is a success.  A user address is
    never touched by this request. *)
Theorem update_forwarded_address_effect norm p f w :
  let after := run (PutForwardedAddress norm p) (faults f) w in
  users after.1 = users w
  ∧ ((addresses after.1 = addresses w ∧ after.2 ≠ Reply 200 (SuccessJson true))
     ∨ (∃ d,
          let d' := applySet (putSetDoc norm p (addresses w) (nextId w)) d in
          addresses w !! uf_address p = Some d
          ∧ is_Some (d_targets d) ∧ d_user d = None
          ∧ Forall (λ t, passes norm (d_addrview d) t = true) (targetsOf (uf_targets p))
          ∧ addresses after.1 = <[uf_address p := d']> (addresses w)
          ∧ d_address d' = d_address d ∧ d_addrview d' = d_addrview d
          ∧ d_user d' = None ∧ is_Some (d_targets d')
          ∧ d_created d' = d_created d
          ∧ after.2 = Reply 200 (SuccessJson true))).
Proof. exact (PutForwardedAddress_effect norm p f w). Qed.

Lemma DeleteForwardedAddress_effect i f w :
  let after := run (DeleteForwardedAddress i) (faults f) w in
  users after.1 = users w
  ∧ ((addresses after.1 = addresses w ∧ after.2 ≠ Reply 200 (SuccessJson true))
     ∨ (∃ d,
          addresses w !! i = Some d
          ∧ is_Some (d_targets d) ∧ d_user d = None
          ∧ addresses after.1 = delete i (addresses w)
          ∧ after.2 = Reply 200 (SuccessJson true)))
  ∧ (∀ d, addresses w !! i = Some d → is_Some (d_user d) → f addressesFindOne = None →
       after = (w, Reply 404 addressNotFound)).
Proof.
  cbv zeta. unfold DeleteForwardedAddress, databaseError, addressNotFound.
  fstep. destruct (f addressesFindOne) eqn:Hf1.
  { split; [done|]. split; [by left|]. by intros. }
  cbn [findAddress]. destruct (addresses w !! i) as [d|] eqn:Hd;
    cbn [fmap option_fmap option_map].
  2:{ split; [done|]. split; [by left|]. by intros. }
  destruct (d_targets d) as [old|] eqn:Hold, (d_user d) as [owner|] eqn:Ho.
  - split; [done|]. split; [by left|]. by intros.
  - fstep. destruct (f addressesDeleteOne).
    + split; [done|]. split; [by left|]. intros d' [= <-] [? ?]. congruence.
    + unfold deleteAddress. rewrite Hd. fstep. split; [done|]. split.
      * right. exists d. split_and!; try done; try (by eexists).
      * intros d' [= <-] [? ?]. congruence.
  - split; [done|]. split; [by left|]. by intros.
  - split; [done|]. split; [by left|]. intros d' [= <-] [? ?]. congruence.
Qed.

(** X10.  Whatever store call fails, deleting a forwarded address changes
    no user and removes at most the one record it names, and that only
    when the record is a forwarded address; a user address is answered
    with a 404 and stays. *)
Theorem delete_forwarded_address_effect i f w :
  let after := run (DeleteForwardedAddress i) (faults f) w in
  users after.1 = users w
  ∧ ((addresses after.1 = addresses w ∧ after.2 ≠ Reply 200 (SuccessJson true))
     ∨ (∃ d,
          addresses w !! i = Some d
          ∧ is_Some (d_targets d) ∧ d_user d = None
          ∧ addresses after.1 = delete i (addresses w)
          ∧ after.2 = Reply 200 (SuccessJson true)))
  ∧ (∀ d, addresses w !! i = Some d → is_Some (d_user d) → f addressesFindOne = None →
       after = (w, Reply 404 addressNotFound)).
Proof. exact (DeleteForwardedAddress_effect i f w). Qed.

Lemma delete_forwarded_address_effect_witness :
  run (DeleteForwardedAddress 11%N) (faults (λ _, None)) directory
  = (directory, Reply 404 addressNotFound).
Proof.
  destruct (delete_forwarded_address_effect 11%N (λ _, None) directory) as (_ & _ & H).
  apply (H aliceAlias); [reflexivity|eexists; reflexivity|reflexivity].
Defined.

(** *** What the requests keep *)

Lemma recordsWellFormed_insert (m : gmap N addrdoc) i d :
  recordsWellFormed m →
  findAddress (ByAddrview (d_addrview d)) m = None →
  d_addrview d = addrview (d_address d) → wellShaped d →
  recordsWellFormed (<[i := d]> m).
Proof.
  intros (Hk & Hs & Hu) Hfree Hkey Hshape. split_and!.
  - intros j dj. rewrite lookup_insert. case_decide; [by intros [= <-]|]. apply Hk.
  - intros j dj. rewrite lookup_insert. case_decide; [by intros [= <-]|]. apply Hs.
  - intros j j' dj dj'. rewrite !lookup_insert.
    repeat case_decide; subst; intros Hj Hj' Heq; simplify_eq; try done.
    + by destruct (findAddress_none_key _ _ _ _ Hfree Hj').
    + by destruct (findAddress_none_key _ _ _ _ Hfree Hj).
    + by apply (Hu j j' dj dj').
Qed.

Lemma recordsWellFormed_update (m : gmap N addrdoc) i d d' :
  recordsWellFormed m → m !! i = Some d →
  d_address d' = d_address d → d_addrview d' = d_addrview d → wellShaped d' →
  recordsWellFormed (<[i := d']> m).
Proof.
  intros (Hk & Hs & Hu) Hd Ha Hv Hshape. split_and!.
  - intros j dj. rewrite lookup_insert. case_decide; [|apply Hk].
    intros [= <-]. rewrite Ha, Hv. by apply (Hk i).
  - intros j dj. rewrite lookup_insert. case_decide; [by intros [= <-]|]. apply Hs.
  - intros j j' dj dj'. rewrite !lookup_insert.
    repeat case_decide; subst; intros Hj Hj' Heq; simplify_eq; try done.
    + rewrite Hv in Heq. by apply (Hu j j' d dj').
    + rewrite Hv in Heq. by apply (Hu j j' dj d).
    + by apply (Hu j j' dj dj').
Qed.

Lemma recordsWellFormed_delete (m : gmap N addrdoc) i :
  recordsWellFormed m → recordsWellFormed (delete i m).
Proof.
  intros (Hk & Hs & Hu). split_and!.
  - intros j dj Hj. apply lookup_delete_Some in Hj as [_ Hj]. by apply (Hk j).
  - intros j dj Hj. apply lookup_delete_Some in Hj as [_ Hj]. by apply (Hs j).
  - intros j j' dj dj' Hj Hj'.
    apply lookup_delete_Some in Hj as [_ Hj]. apply lookup_delete_Some in Hj' as [_ Hj'].
    by apply (Hu j j' dj dj').
Qed.

(** X11.  Run one after another, with store calls that may fail, the six
    writing requests keep the [addresses] collection well formed: every
    record's [addrview] is the key of its address, every record is either
    a user address or a forwarded address, and no two records share a
    key. *)
Theorem records_stay_well_formed norm f w :
  recordsWellFormed (addresses w) →
  (∀ p, recordsWellFormed (addresses (run (PostUserAddress norm p) (faults f) w).1))
  ∧ (∀ p, recordsWellFormed (addresses (run (PutUserAddress p) (faults f) w).1))
  ∧ (∀ p, recordsWellFormed (addresses (run (DeleteUserAddress p) (faults f) w).1))
  ∧ (∀ p, recordsWellFormed (addresses (run (PostForwardedAddress norm p) (faults f) w).1))
  ∧ (∀ p, recordsWellFormed (addresses (run (PutForwardedAddress norm p) (faults f) w).1))
  ∧ (∀ i, recordsWellFormed (addresses (run (DeleteForwardedAddress i) (faults f) w).1)).
Proof.
  intros Hwf. split_and!.
  - intros p.
    destruct (PostUserAddress_effect norm p f w)
      as [(-> & _)|(_ & _ & Hfree & _ & -> & _)]; [done|].
    apply recordsWellFormed_insert; try done. left. split; [by eexists|done].
  - intros p. by destruct (PutUserAddress_effect p f w) as [-> _].
  - intros p.
    destruct (DeleteUserAddress_effect p f w) as [_ [[-> _]|(u & d & _ & _ & _ & _ & -> & _)]];
      [done|by apply recordsWellFormed_delete].
  - intros p.
    destruct (PostForwardedAddress_effect norm p f w)
      as [_ [[-> _]|(ts & _ & _ & _ & _ & Hfree & _ & -> & _)]]; [done|].
    apply recordsWellFormed_insert; try done. right. split; [done|by eexists].
  - intros p.
    destruct (PutForwardedAddress_effect norm p f w)
      as [_ [[-> _]|(d & Hd & _ & _ & _ & -> & Ha & Hv & Hu & Ht & _)]]; [done|].
    apply (recordsWellFormed_update _ _ d); try done. by right.
  - intros i.
    destruct (DeleteForwardedAddress_effect i f w)
      as (_ & [[-> _]|(d & _ & _ & _ & -> & _)] & _);
      [done|by apply recordsWellFormed_delete].
Qed.

Lemma directory_well_formed : recordsWellFormed (addresses directory).
Proof.
  assert (Hall : ∀ i d, addresses directory !! i = Some d →
            (i = 10%N ∧ d = aliceMain) ∨ (i = 11%N ∧ d = aliceAlias)
            ∨ (i = 12%N ∧ d = info)).
  { intros i d Hd. unfold directory in Hd. cbn [addresses] in Hd.
    repeat (apply lookup_insert_Some in Hd as [[<- <-]|[? Hd]]; [auto|]).
    apply lookup_singleton_Some in Hd as [<- <-]. auto. }
  split_and!.
  - intros i d Hd. by destruct (Hall i d Hd) as [[-> ->]|[[-> ->]|[-> ->]]].
  - intros i d Hd.
    destruct (Hall i d Hd) as [[-> ->]|[[-> ->]|[-> ->]]];
      [left|left|right]; split; try done; by eexists.
  - intros i j di dj Hi Hj.
    destruct (Hall i di Hi) as [[-> ->]|[[-> ->]|[-> ->]]],
             (Hall j dj Hj) as [[-> ->]|[[-> ->]|[-> ->]]]; done.
Qed.

Lemma records_stay_well_formed_witness :
  recordsWellFormed
    (addresses
       (run (PostUserAddress lowerCaseAddress
               (PostUserAddressParams alice "new@x.org" true false))
          (faults (λ _, None)) directory).1).
Proof.
  destruct (records_stay_well_formed lowerCaseAddress (λ _, None) directory
              directory_well_formed) as (H & _).
  apply H.
Defined.

Lemma defaultsOwned_fresh w i d w' :
  defaultsOwned w → addresses w !! i = None →
  addresses w' = <[i := d]> (addresses w) →
  (users w' = users w
   ∨ ∃ u, d_user d = Some u ∧ users w' = <[u := UserDoc (Some (d_address d))]> (users w)) →
  defaultsOwned w'.
Proof.
  intros Hown Hfree Ha Hu v a Hv.
  assert (Hold : users w !! v = Some (UserDoc (Some a)) →
                 ∃ j dj, addresses w' !! j = Some dj ∧ d_user dj = Some v ∧ d_address dj = a).
  { intros Hw. destruct (Hown v a Hw) as (j & dj & Hj & Ho & Hadr).
    exists j, dj. split; [|done]. rewrite Ha, lookup_insert_ne; [done|congruence]. }
  destruct Hu as [Hu|(u & Ho & Hu)]; rewrite Hu in Hv; [auto|].
  rewrite lookup_insert in Hv. case_decide; [|auto].
  injection Hv as <-. subst v. exists i, d. by rewrite Ha, lookup_insert_eq.
Qed.

(** X12.  Run one after another, with store calls that may fail, the six
    writing requests keep every user's default address backed by a
    record: when each default address is the address of a record owned by
    that user before a request, it is so after it.  In particular no
    delete removes the record of a default address, and a promotion or a
    creation sets a default only to the address of a record it finds or
    inserts for that user. *)
Theorem defaults_stay_owned norm f w :
  defaultsOwned w →
  (∀ p, defaultsOwned (run (PostUserAddress norm p) (faults f) w).1)
  ∧ (∀ p, defaultsOwned (run (PutUserAddress p) (faults f) w).1)
  ∧ (∀ p, defaultsOwned (run (DeleteUserAddress p) (faults f) w).1)
  ∧ (∀ p, defaultsOwned (run (PostForwardedAddress norm p) (faults f) w).1)
  ∧ (∀ p, defaultsOwned (run (PutForwardedAddress norm p) (faults f) w).1)
  ∧ (∀ i, defaultsOwned (run (DeleteForwardedAddress i) (faults f) w).1).
Proof.
  intros Hown. split_and!.
  - intros p.
    destruct (PostUserAddress_effect norm p f w)
      as [(Ha & Hu & _)|(_ & _ & _ & Hfree & Ha & _ & u & _ & Hu)].
    + intros v a. rewrite Hu, Ha. apply Hown.
    + eapply (defaultsOwned_fresh w (nextId w)); [done|done|exact Ha|].
      destruct Hu as [Hu|[_ Hu]]; [by left|right]. by eexists.
  - intros p. destruct (PutUserAddress_effect p f w) as [Ha [[Hu _]|(d & _ & _ & Hd & Ho & _ & Hu & _)]].
    + intros v a. rewrite Hu, Ha. apply Hown.
    + intros v a. rewrite Hu, Ha, lookup_insert. case_decide; [|apply Hown].
      intros [= <-]. subst v. by exists (ua_address p), d.
  - intros p.
    destruct (DeleteUserAddress_effect p f w) as [Hu [[Ha _]|(u & d & Hus & Hd & Ho & Hne & Ha & _)]].
    + intros v a. rewrite Hu, Ha. apply Hown.
    + intros v a. rewrite Hu, Ha. intros Hv.
      destruct (Hown v a Hv) as (j & dj & Hj & Hoj & Hadr).
      exists j, dj. split; [|done]. rewrite lookup_delete_ne; [done|].
      intros <-. rewrite Hd in Hj. injection Hj as <-.
      rewrite Ho in Hoj. injection Hoj as <-. rewrite Hus in Hv.
      injection Hv as ->. by rewrite <- Hadr in Hne.
  - intros p.
    destruct (PostForwardedAddress_effect norm p f w)
      as [Hu [[Ha _]|(ts & _ & _ & _ & _ & _ & Hfree & Ha & _)]].
    + intros v a. rewrite Hu, Ha. apply Hown.
    + eapply (defaultsOwned_fresh w); [done|exact Hfree|exact Ha|by left].
  - intros p.
    destruct (PutForwardedAddress_effect norm p f w)
      as [Hu [[Ha _]|(d & Hd & _ & Ho & _ & Ha & _)]].
    + intros v a. rewrite Hu, Ha. apply Hown.
    + intros v a. rewrite Hu, Ha. intros Hv.
      destruct (Hown v a Hv) as (j & dj & Hj & Hoj & Hadr).
      exists j, dj. split; [|done]. rewrite lookup_insert_ne; [done|].
      intros <-. rewrite Hd in Hj. injection Hj as <-. congruence.
  - intros i.
    destruct (DeleteForwardedAddress_effect i f w)
      as (Hu & [[Ha _]|(d & Hd & _ & Ho & Ha & _)] & _).
    + intros v a. rewrite Hu, Ha. apply Hown.
    + intros v a. rewrite Hu, Ha. intros Hv.
      destruct (Hown v a Hv) as (j & dj & Hj & Hoj & Hadr).
      exists j, dj. split; [|done]. rewrite lookup_delete_ne; [done|].
      intros <-. rewrite Hd in Hj. injection Hj as <-. congruence.
Qed.

Lemma directory_defaults_owned : defaultsOwned directory.
Proof.
  intros u a Hu. unfold directory in Hu. cbn [users] in Hu.
  apply lookup_singleton_Some in Hu as [<- [= <-]]. by exists 10%N, aliceMain.
Qed.

Lemma defaults_stay_owned_witness :
  defaultsOwned (run (DeleteUserAddress (UserAddressParams alice 10%N true))
                   (faults (λ _, None)) directory).1.
Proof.
  destruct (defaults_stay_owned lowerCaseAddress (λ _, None) directory
              directory_defaults_owned) as (_ & _ & H & _).
  apply H.
Defined.

(** *** Creating and then resolving *)

Lemma filter_unique {A} (p : A → bool) (l : list A) x :
  NoDup l → x ∈ l → p x = true → (∀ y, y ∈ l → p y = true → y = x) →
  List.filter p l = [x].
Proof.
  induction l as [|a l IH]; intros Hnd Hin Hp Hall; [by apply elem_of_nil in Hin|].
  apply NoDup_cons in Hnd as [Ha Hnd]. cbn [List.filter].
  destruct (p a) eqn:Hpa.
  - assert (a = x) as -> by (apply Hall; [left|done]).
    f_equal. clear IH Hin.
    induction l as [|b l IHl]; [done|]. cbn [List.filter].
    destruct (p b) eqn:Hpb.
    + assert (b = x) as -> by (apply Hall; [right; left|done]).
      destruct Ha. left.
    + apply IHl.
      * intros H. apply Ha. by right.
      * by apply NoDup_cons in Hnd as [_ ?].
      * intros y Hy. apply Hall. apply elem_of_cons in Hy as [->|Hy]; [left|].
        right. by right.
  - apply IH; try done.
    + apply elem_of_cons in Hin as [->|Hin]; [congruence|done].
    + intros y Hy. apply Hall. by right.
Qed.

Lemma findAddress_unique (m : gmap N addrdoc) i d :
  m !! i = Some d →
  (∀ j dj, m !! j = Some dj → d_addrview dj = d_addrview d → j = i) →
  findAddress (ByAddrview (d_addrview d)) m = Some (i, d).
Proof.
  intros Hd Huniq. unfold findAddress, withAddrview.
  rewrite (filter_unique _ _ (i, d)); [done| | | |].
  - apply NoDup_map_to_list.
  - by apply elem_of_map_to_list.
  - cbn. apply String.eqb_refl.
  - intros [j dj] Hj Hk. apply elem_of_map_to_list in Hj. cbn in Hk.
    apply String.eqb_eq in Hk. assert (j = i) as -> by (by apply (Huniq j dj)).
    congruence.
Qed.

Lemma findAddress_insert_fresh (m : gmap N addrdoc) i d :
  findAddress (ByAddrview (d_addrview d)) m = None →
  findAddress (ByAddrview (d_addrview d)) (<[i := d]> m) = Some (i, d).
Proof.
  intros Hfree. apply findAddress_unique; [apply lookup_insert_eq|].
  intros j dj Hj Hk. destruct (decide (j = i)) as [|Hne]; [done|].
  rewrite lookup_insert_ne in Hj by done.
  by destruct (findAddress_none_key _ _ _ _ Hfree Hj).
Qed.

Lemma PostUserAddress_calm norm p w u :
  let address := norm (pu_address p) in
  JS.indexOf address "+" < 0 →
  wildcardError address (pu_allowWildcard p) (pu_main p) = None →
  users w !! pu_user p = Some u →
  findAddress (ByAddrview (addrview address)) (addresses w) = None →
  addresses w !! nextId w = None →
  run (PostUserAddress norm p) calm w
  = (set_users
       (if falsy (u_address u) || pu_main p
        then insert (pu_user p) (UserDoc (Some address)) else id)
       (set_addresses
          (insert (nextId w)
             (AddrDoc (Some (pu_user p)) address (addrview address) None JS.Undefined
                None (clock w)))
          (afterIds 1 w)),
     Reply 200 (CreatedJson true (nextId w))).
Proof.
  intros address Hplus Hwild Hu Hnone Hfree.
  unfold PostUserAddress. fold address. no_plus Hplus. rewrite Hwild.
  cbn [run]. unfold call. cbn [calm quiet interfere fault id]. rewrite Hu.
  cbn [run]. unfold call. cbn [calm quiet interfere fault id]. rewrite Hnone.
  cbn [run]. unfold callInsert, insertAddress.
  cbn [calm quiet interfere fault id d_addrview]. rewrite Hnone, Hfree.
  destruct (falsy (u_address u) || pu_main p); cbn [run]; [|done].
  unfold call, setUserAddress. cbn [calm quiet interfere fault id].
  cbn [set_addresses set_nextId users]. by rewrite Hu.
Qed.

Lemma GetAddressInfo_user norm maxForwards MAX_FORWARDS a i d u env w :
  let w1 := interfere (env addressesFindOne) w in
  0 <= JS.indexOf a "@" →
  fault (env addressesFindOne) = None →
  findAddress (ByAddrview (addrview (norm a))) (addresses w1) = Some (i, d) →
  d_user d = Some u →
  run (GetAddressInfo norm maxForwards MAX_FORWARDS a) env w
  = (w1, Reply 200 (UserAddressJson i (d_address d) u (d_created d))).
Proof.
  intros w1 Hat Hf Hfind Hu. unfold GetAddressInfo.
  destruct (Z.leb_spec 0 (JS.indexOf a "@")); [|lia].
  cbn [run]. unfold call. rewrite Hf. fold w1. by rewrite Hfind, Hu.
Qed.

(** X13.  A user address that has just been created resolves: after a
    successful create request, the resolve request for the same address,
    or for any address with the same canonical key (another placement of
    dots, another case), is answered with the new record's id, its
    normalized address, its owner and its creation time, and makes no call
    to the counter store. *)
Theorem created_user_address_resolves norm maxForwards MAX_FORWARDS p w u a env :
  let address := norm (pu_address p) in
  let created := run (PostUserAddress norm p) calm w in
  JS.indexOf address "+" < 0 →
  wildcardError address (pu_allowWildcard p) (pu_main p) = None →
  users w !! pu_user p = Some u →
  findAddress (ByAddrview (addrview address)) (addresses w) = None →
  addresses w !! nextId w = None →
  0 <= JS.indexOf a "@" →
  addrview (norm a) = addrview address →
  fault (env addressesFindOne) = None →
  interfere (env addressesFindOne) = id →
  created.2 = Reply 200 (CreatedJson true (nextId w))
  ∧ run (GetAddressInfo norm maxForwards MAX_FORWARDS a) env created.1
    = (created.1,
       Reply 200 (UserAddressJson (nextId w) address (pu_user p) (clock w))).
Proof.
  intros address created Hplus Hwild Hu Hnone Hfree Hat Hkey Hf Hi.
  subst created. rewrite (PostUserAddress_calm norm p w u) by done.
  split; [done|]. cbn [fst].
  set (doc := AddrDoc (Some (pu_user p)) address (addrview address) None JS.Undefined
                None (clock w)).
  set (w' := set_users _ _).
  rewrite (GetAddressInfo_user norm maxForwards MAX_FORWARDS a (nextId w) doc (pu_user p)
             env w'); rewrite ?Hi; try done.
  rewrite Hkey. subst w'. cbn [set_users set_addresses addresses id].
  by apply (findAddress_insert_fresh (addresses w) (nextId w) doc).
Qed.

Lemma created_user_address_resolves_witness :
  let created :=
    run (PostUserAddress lowerCaseAddress
           (PostUserAddressParams alice "Jo.Doe@x.org" false false)) calm directory in
  created.2 = Reply 200 (CreatedJson true 100%N)
  ∧ run (GetAddressInfo lowerCaseAddress (JS.Num 2000) (JS.Num 2000) "j.o.doe@X.org")
      trackerDown created.1
    = (created.1, Reply 200 (UserAddressJson 100%N "jo.doe@x.org" alice 1000)).
Proof.
  apply (created_user_address_resolves lowerCaseAddress (JS.Num 2000) (JS.Num 2000)
           (PostUserAddressParams alice "Jo.Doe@x.org" false false) directory
           (UserDoc (Some "alice@x.org")) "j.o.doe@X.org" trackerDown);
    try reflexivity; vm_compute; discriminate.
Defined.

(** X14.  An address with a [+] is never created: the user-address
    request answers [Address can not contain +] without any store call,
    whatever its other parameters, and the forwarded-address request does
    so once its targets have passed the loop; the world is left as it
    was, apart from the ids handed to the targets. *)
Theorem plus_is_rejected norm :
  (∀ p env w,
     0 <= JS.indexOf (norm (pu_address p)) "+" →
     run (PostUserAddress norm p) env w
     = (w, Reply 200 (ErrorJson "Address can not contain +" None)))
  ∧ (∀ p ts env w,
     pf_targets p = Some ts →
     Forall (λ t, passes norm (addrview (norm (pf_address p))) t = true) ts →
     0 <= JS.indexOf (norm (pf_address p)) "+" →
     run (PostForwardedAddress norm p) env w
     = (afterTargets ts w, Reply 200 (ErrorJson "Address can not contain +" None))).
Proof.
  split.
  - intros p env w Hplus. unfold PostUserAddress.
    by destruct (Z.leb_spec 0 (JS.indexOf (norm (pu_address p)) "+")); [|lia].
  - intros p ts env w Hts Hpass Hplus. unfold PostForwardedAddress.
    rewrite Hts, (targetsLoop_passes _ _ _ Hpass).
    by destruct (Z.leb_spec 0 (JS.indexOf (norm (pf_address p)) "+")); [|lia].
Qed.

Lemma plus_is_rejected_witness :
  run (PostUserAddress lowerCaseAddress
         (PostUserAddressParams alice "a+b@x.org" true true)) trackerDown directory
  = (directory, Reply 200 (ErrorJson "Address can not contain +" None))
  ∧ run (PostForwardedAddress lowerCaseAddress
           (PostForwardedParams "a+b@x.org" (Some ["alice@x.org"]) (JS.Num 0) true None ∅))
      calm directory
    = (afterIds 1 directory, Reply 200 (ErrorJson "Address can not contain +" None)).
Proof.
  destruct (plus_is_rejected lowerCaseAddress) as [H1 H2].
  split.
  - apply H1. vm_compute. discriminate.
  - apply (H2 (PostForwardedParams "a+b@x.org" (Some ["alice@x.org"]) (JS.Num 0) true None ∅)
             ["alice@x.org"] calm directory).
    + reflexivity.
    + repeat constructor.
    + vm_compute. discriminate.
Defined.

(** *** The targets that are stored *)

Lemma userMap_step (acc : gmap string N) (l : list (N * addrdoc)) k :
  (∀ x, x ∈ l → d_addrview x.2 ≠ k) →
  foldl (λ m p, match d_user p.2 with
                | Some u => <[d_addrview p.2 := u]> m
                | None => m
                end) acc l !! k = acc !! k.
Proof.
  revert acc. induction l as [|x l IH]; intros acc Hall; [done|].
  cbn [foldl]. rewrite IH by (intros y Hy; apply Hall; by right).
  destruct (d_user x.2); [|done].
  rewrite lookup_insert_ne; [done|]. apply Hall. left.
Qed.

Lemma userMap_lookup (l : list (N * addrdoc)) x :
  NoDup l → x ∈ l →
  (∀ y, y ∈ l → d_addrview y.2 = d_addrview x.2 → y = x) →
  userMap l !! d_addrview x.2 = d_user x.2.
Proof.
  unfold userMap. intros Hnd Hin Huniq.
  assert (Hacc : ∀ acc : gmap string N,
            foldl (λ m p, match d_user p.2 with
                          | Some u => <[d_addrview p.2 := u]> m
                          | None => m
                          end) acc l !! d_addrview x.2
            = match d_user x.2 with Some u => Some u | None => acc !! d_addrview x.2 end).
  { induction l as [|y l IH]; intros acc; [by apply elem_of_nil in Hin|].
    apply NoDup_cons in Hnd as [Hy Hnd]. cbn [foldl].
    apply elem_of_cons in Hin as [<-|Hin].
    - rewrite userMap_step.
      + destruct (d_user x.2); [apply lookup_insert_eq|done].
      + intros z Hz Hk. assert (z = x) as -> by (apply Huniq; [by right|done]). done.
    - rewrite IH; try done.
      + destruct (d_user x.2); [done|]. destruct (d_user y.2); [|done].
        rewrite lookup_insert_ne; [done|]. intros Hk.
        assert (y = x) as -> by (apply Huniq; [left|done]). done.
      + intros z Hz. apply Huniq. by right. }
  rewrite Hacc. by destruct (d_user x.2); rewrite ?lookup_empty.
Qed.

Lemma elem_of_findAddresses (m : gmap N addrdoc) keys i d :
  (i, d) ∈ findAddresses keys m ↔ m !! i = Some d ∧ d_addrview d ∈ keys.
Proof.
  unfold findAddresses. rewrite list_elem_of_In, filter_In, <- list_elem_of_In.
  rewrite elem_of_map_to_list. cbn. rewrite existsb_exists.
  split; intros [Hd Hk]; (split; [done|]).
  - destruct Hk as (k & Hin & Heq). apply String.eqb_eq in Heq as ->.
    by apply list_elem_of_In.
  - exists (d_addrview d). split; [by apply list_elem_of_In|apply String.eqb_refl].
Qed.

Lemma NoDup_findAddresses (m : gmap N addrdoc) keys : NoDup (findAddresses keys m).
Proof.
  unfold findAddresses. apply NoDup_ListNoDup, List.NoDup_filter, NoDup_ListNoDup,
    NoDup_map_to_list.
Qed.

Lemma userMap_findAddresses (m : gmap N addrdoc) keys k :
  uniqueKeys m → k ∈ keys →
  userMap (findAddresses keys m) !! k = ownerOf m k.
Proof.
  intros Huniq Hk. unfold ownerOf.
  destruct (findAddress (ByAddrview k) m) as [[i d]|] eqn:Hfind.
  - assert (Hd : m !! i = Some d ∧ d_addrview d = k).
    { unfold findAddress, withAddrview in Hfind.
      assert (Hin : (i, d) ∈ List.filter (λ p, String.eqb (d_addrview p.2) k) (map_to_list m))
        by (destruct (List.filter _ _); [done|]; injection Hfind as ->; left).
      apply list_elem_of_In, filter_In in Hin as [Hin Heq].
      apply list_elem_of_In, elem_of_map_to_list in Hin. cbn in Heq.
      by apply String.eqb_eq in Heq. }
    destruct Hd as [Hd <-].
    apply (userMap_lookup _ (i, d)).
    + apply NoDup_findAddresses.
    + by apply elem_of_findAddresses.
    + intros [j dj] Hj Heq. apply elem_of_findAddresses in Hj as [Hj _]. cbn in Heq.
      assert (j = i) as -> by (by apply (Huniq j i dj d)). congruence.
  - unfold userMap. rewrite userMap_step; [done|].
    intros [j dj] Hj. apply elem_of_findAddresses in Hj as [Hj _]. cbn.
    by apply (findAddress_none_key k m j dj).
Qed.

Lemma bindUsers_storedTargets norm (m : gmap N addrdoc) (M : gmap string N) ts :
  (∀ t, t ∈ ts → isMailTarget t = true → targetKey norm t ≠ "" →
        M !! targetKey norm t = ownerOf m (targetKey norm t)) →
  ∀ n, bindUsers M (descriptors norm n ts) = storedTargets norm m n ts.
Proof.
  induction ts as [|t ts IH]; intros HM n; [done|].
  cbn [descriptors storedTargets]. unfold bindUsers in *. cbn [fmap list_fmap].
  rewrite IH by (intros s Hs; apply HM; by right). f_equal.
  unfold kindOf. destruct (isMailTarget t) eqn:Hm; cbn [fst snd andb].
  - destruct (String.eqb (targetKey norm t) "") eqn:Hk; cbn [negb]; [done|].
    rewrite HM; [|left|done|by apply String.eqb_neq].
    by destruct (ownerOf m (targetKey norm t)).
  - by destruct (JS.isSmtp t).
Qed.

Lemma mailKeys_nil norm ts t :
  mailKeys norm ts = [] → t ∈ ts → isMailTarget t = false.
Proof.
  unfold mailKeys. intros Hnil Hin.
  destruct (isMailTarget t) eqn:Hm; [|done].
  assert (Hf : t ∈ List.filter isMailTarget ts)
    by (apply list_elem_of_In, filter_In; split; [by apply list_elem_of_In|done]).
  destruct (List.filter isMailTarget ts); [by apply elem_of_nil in Hf|done].
Qed.

Lemma elem_of_mailKeys norm ts t :
  t ∈ ts → isMailTarget t = true → targetKey norm t ∈ mailKeys norm ts.
Proof.
  intros Hin Hm. unfold mailKeys. apply list_elem_of_fmap. exists t. split; [done|].
  apply list_elem_of_In, filter_In. split; [by apply list_elem_of_In|done].
Qed.

Lemma boundTargets_storedTargets norm (m : gmap N addrdoc) n ts :
  uniqueKeys m →
  boundTargets m (descriptors norm n ts) (mailKeys norm ts) = storedTargets norm m n ts.
Proof.
  intros Huniq. unfold boundTargets.
  destruct (mailKeys norm ts) as [|k ks] eqn:Hkeys.
  - clear Huniq. revert n.
    assert (Hno : ∀ t, t ∈ ts → isMailTarget t = false)
      by (intros t; by apply (mailKeys_nil norm ts)).
    clear Hkeys. induction ts as [|t ts IH]; intros n; [done|].
    cbn [descriptors storedTargets fmap list_fmap]. unfold kindOf.
    rewrite (Hno t) by left. cbn [andb fst].
    rewrite <- IH by (intros s Hs; apply Hno; by right).
    by destruct (JS.isSmtp t).
  - rewrite <- Hkeys. apply bindUsers_storedTargets.
    intros t Hin Hm _. apply userMap_findAddresses; [done|].
    by apply elem_of_mailKeys.
Qed.

Lemma storedTargets_values norm m n ts :
  List.map t_value (storedTargets norm m n ts) = ts.
Proof. revert n. induction ts as [|t ts IH]; intros n; [done|]. cbn. by rewrite IH. Qed.

Lemma storedTargets_ids norm (m : gmap N addrdoc) n ts k t :
  storedTargets norm m n ts !! k = Some t → t_id t = (n + N.of_nat k)%N.
Proof.
  revert n k. induction ts as [|s ts IH]; intros n k; [done|].
  cbn [storedTargets]. destruct k as [|k]; cbn [lookup list_lookup].
  - intros [= <-]. cbn [t_id]. lia.
  - intros Hk. rewrite (IH _ _ Hk). lia.
Qed.

(** X15.  The targets a successful create request stores are one
    descriptor per target of the request, in the request's order: the
    ids are consecutive new ids, the kind is [mail], [relay] or [http] by
    the text of the target, the value is the text as it was sent, and the
    user is set exactly on a mail target whose key is registered to a user
    address, to that address's user (the collection having no two records
    with one key).  The response carries the id of the new record. *)
Theorem created_targets norm p ts w :
  let address := norm (pf_address p) in
  let newId := (nextId w + N.of_nat (length ts))%N in
  let after := run (PostForwardedAddress norm p) calm w in
  uniqueKeys (addresses w) →
  pf_targets p = Some ts →
  Forall (λ t, passes norm (addrview address) t = true) ts →
  JS.indexOf address "+" < 0 →
  wildcardError address (pf_allowWildcard p) false = None →
  findAddress (ByAddrview (addrview address)) (addresses w) = None →
  addresses w !! newId = None →
  ∃ d,
    after.2 = Reply 200 (CreatedJson true newId)
    ∧ addresses after.1 !! newId = Some d
    ∧ d_targets d = Some (storedTargets norm (addresses w) (nextId w) ts)
    ∧ List.map t_value (storedTargets norm (addresses w) (nextId w) ts) = ts
    ∧ (∀ k t, storedTargets norm (addresses w) (nextId w) ts !! k = Some t →
         t_id t = (nextId w + N.of_nat k)%N).
Proof.
  intros address newId after Huniq Hts Hpass Hplus Hwild Hnone Hfree. subst after.
  rewrite (PostForwardedAddress_calm norm p ts w) by done.
  eexists. split; [done|]. split; [apply lookup_insert_eq|].
  cbn [d_targets]. rewrite boundTargets_storedTargets by done.
  split; [done|]. split; [apply storedTargets_values|].
  intros k t. apply storedTargets_ids.
Qed.

Lemma directory_unique_keys : uniqueKeys (addresses directory).
Proof. apply directory_well_formed. Qed.

Lemma created_targets_witness :
  ∃ d,
    (run (PostForwardedAddress lowerCaseAddress
            (PostForwardedParams "team@x.org"
               (Some ["A.B@x.org"; "https://hook.y.org/in"; "bob@y.org"]) (JS.Num 0) false
               None ∅)) calm directory).2
    = Reply 200 (CreatedJson true 103%N)
    ∧ addresses
        (run (PostForwardedAddress lowerCaseAddress
                (PostForwardedParams "team@x.org"
                   (Some ["A.B@x.org"; "https://hook.y.org/in"; "bob@y.org"]) (JS.Num 0)
                   false None ∅)) calm directory).1 !! 103%N = Some d
    ∧ d_targets d
      = Some [Target 100%N mail "A.B@x.org" (Some alice);
              Target 101%N http "https://hook.y.org/in" None;
              Target 102%N mail "bob@y.org" None].
Proof.
  destruct (created_targets lowerCaseAddress
              (PostForwardedParams "team@x.org"
                 (Some ["A.B@x.org"; "https://hook.y.org/in"; "bob@y.org"]) (JS.Num 0) false
                 None ∅)
              ["A.B@x.org"; "https://hook.y.org/in"; "bob@y.org"] directory)
    as (d & H1 & H2 & H3 & _); try reflexivity.
  - apply directory_unique_keys.
  - repeat constructor.
  - exists d. split; [exact H1|]. split; [exact H2|]. rewrite H3. vm_compute. reflexivity.
Defined.

(** *** Writing a forwarded address and reading it back *)

Lemma bindUsers_values M l :
  List.map t_value (bindUsers M l) = List.map t_value (fst <$> l).
Proof.
  unfold bindUsers. induction l as [|[t c] l IH]; [done|].
  cbn [fmap list_fmap List.map fst snd]. rewrite <- IH. f_equal.
  destruct c as [k|]; [|done]. destruct (negb _); [|done]. by destruct (M !! k).
Qed.

Lemma descriptors_values norm n ts :
  List.map t_value (fst <$> descriptors norm n ts) = ts.
Proof.
  revert n. induction ts as [|t ts IH]; intros n; [done|].
  cbn [descriptors fmap list_fmap List.map]. rewrite IH. f_equal.
  destruct (isMailTarget t); [done|]. by destruct (JS.isSmtp t).
Qed.

Lemma boundTargets_values norm (m : gmap N addrdoc) n ts :
  List.map t_value (boundTargets m (descriptors norm n ts) (mailKeys norm ts)) = ts.
Proof.
  unfold boundTargets. destruct (mailKeys norm ts);
    rewrite ?bindUsers_values; apply descriptors_values.
Qed.

Lemma boundTargets_nil norm (m : gmap N addrdoc) n ts :
  boundTargets m (descriptors norm n ts) (mailKeys norm ts) = [] → ts = [].
Proof.
  intros H. rewrite <- (boundTargets_values norm m n ts). by rewrite H.
Qed.

Lemma GetForwardedAddress_no_counter maxForwards MAX_FORWARDS i d w :
  addresses w !! i = Some d →
  is_Some (d_targets d) → d_user d = None →
  counters w !! counterKey i = None →
  run (GetForwardedAddress maxForwards MAX_FORWARDS i) calm w
  = (w,
     Reply 200
       (ForwardedJson i (d_address d) (List.map t_value <$> d_targets d)
          (ForwardLimits (JS.or (JS.or (JS.Number (d_forwards d)) maxForwards) MAX_FORWARDS)
             (JS.Num 0) (JS.Bool false))
          (default {[ "enabled" := JS.Bool false ]} (d_autoreply d)) (d_created d))).
Proof.
  intros Hd [old Hold] Hu Hnone.
  unfold GetForwardedAddress. cbn [run]. unfold call.
  cbn [calm quiet interfere fault id findAddress]. rewrite Hd.
  cbn [fmap option_fmap option_map]. rewrite Hold, Hu.
  unfold forwardedInfo. cbn [run calm quiet interfere fault id].
  unfold counterReply. rewrite Hnone. by rewrite Hold.
Qed.

(** X16.  A forwarded address reads back as it was created: after a
    successful create request, the read request for the new id reports
    the normalized address, the targets as the texts that were sent, in
    their order, the quota of the request as [allowed] (the platform's
    when the request had none or 0), no usage, the autoreply as the create
    request normalized it ([enabled: false] when it had none) and the
    time of creation. *)
Theorem created_forwarded_address_reads_back norm maxForwards MAX_FORWARDS p ts w :
  let address := norm (pf_address p) in
  let newId := (nextId w + N.of_nat (length ts))%N in
  let autoreply :=
    match pf_autoreply p with
    | Some a => autoreplyFields a (pf_rawAutoreply p)
    | None => {[ "enabled" := JS.Bool false ]}
    end in
  let created := run (PostForwardedAddress norm p) calm w in
  pf_targets p = Some ts →
  Forall (λ t, passes norm (addrview address) t = true) ts →
  JS.indexOf address "+" < 0 →
  wildcardError address (pf_allowWildcard p) false = None →
  findAddress (ByAddrview (addrview address)) (addresses w) = None →
  addresses w !! newId = None →
  counters w !! counterKey newId = None →
  created.2 = Reply 200 (CreatedJson true newId)
  ∧ run (GetForwardedAddress maxForwards MAX_FORWARDS newId) calm created.1
    = (created.1,
       Reply 200
         (ForwardedJson newId address (Some ts)
            (ForwardLimits
               (JS.or (JS.or (JS.Number (pf_forwards p)) maxForwards) MAX_FORWARDS)
               (JS.Num 0) (JS.Bool false))
            autoreply (clock w))).
Proof.
  intros address newId autoreply created Hts Hpass Hplus Hwild Hnone Hfree Hcount.
  subst created. rewrite (PostForwardedAddress_calm norm p ts w) by done.
  split; [done|]. cbn [fst].
  erewrite GetForwardedAddress_no_counter;
    [|apply lookup_insert_eq|by eexists|done|exact Hcount].
  cbn [d_address d_targets d_forwards d_autoreply d_created fmap option_fmap option_map
       default from_option id].
  by rewrite boundTargets_values.
Qed.

Lemma created_forwarded_address_reads_back_witness :
  let created :=
    run (PostForwardedAddress lowerCaseAddress
           (PostForwardedParams "Team@x.org" (Some ["A.B@x.org"; "smtp://mx.y.org"])
              (JS.Num 0) false None ∅)) calm directory in
  created.2 = Reply 200 (CreatedJson true 102%N)
  ∧ run (GetForwardedAddress (JS.Num 2000) JS.Undefined 102%N) calm created.1
    = (created.1,
       Reply 200
         (ForwardedJson 102%N "team@x.org" (Some ["A.B@x.org"; "smtp://mx.y.org"])
            (ForwardLimits (JS.Num 2000) (JS.Num 0) (JS.Bool false))
            {[ "enabled" := JS.Bool false ]} 1000)).
Proof.
  apply (created_forwarded_address_reads_back lowerCaseAddress (JS.Num 2000) JS.Undefined
           (PostForwardedParams "Team@x.org" (Some ["A.B@x.org"; "smtp://mx.y.org"])
              (JS.Num 0) false None ∅) ["A.B@x.org"; "smtp://mx.y.org"] directory);
    try reflexivity.
  repeat constructor.
Defined.

(** X17.  An update replaces the target list as a whole: after a
    successful update with a non-empty list of targets, the read request
    reports exactly the texts of the new list, in their order, whatever
    the targets were before; the address and the creation time are those
    of the record before the update, and [allowed] follows the quota of
    the patch when it has one that is not 0, and the stored quota
    otherwise. *)
Theorem updated_targets_read_back norm maxForwards MAX_FORWARDS p ts d w :
  let updated := run (PutForwardedAddress norm p) calm w in
  let quota := if JS.truthy (uf_forwards p) then uf_forwards p else d_forwards d in
  addresses w !! uf_address p = Some d →
  is_Some (d_targets d) → d_user d = None →
  uf_targets p = Some ts → ts ≠ [] →
  Forall (λ t, passes norm (d_addrview d) t = true) ts →
  counters w !! counterKey (uf_address p) = None →
  updated.2 = Reply 200 (SuccessJson true)
  ∧ ∃ limits autoreply,
      run (GetForwardedAddress maxForwards MAX_FORWARDS (uf_address p)) calm updated.1
      = (updated.1,
         Reply 200
           (ForwardedJson (uf_address p) (d_address d) (Some ts) limits autoreply
              (d_created d)))
      ∧ allowed limits = JS.or (JS.or (JS.Number quota) maxForwards) MAX_FORWARDS.
Proof.
  intros updated quota Hd Hold Hu Hts Hne Hpass Hcount.
  subst updated.
  rewrite (PutForwardedAddress_calm norm p d w) by (by rewrite ?Hts).
  split; [done|]. cbn [fst].
  destruct Hold as [old Hold].
  assert (Ht : d_targets (applySet (putSetDoc norm p (addresses w) (nextId w)) d)
               = Some (boundTargets (addresses w) (descriptors norm (nextId w) ts)
                         (mailKeys norm ts))).
  { unfold applySet, putSetDoc. cbn [d_targets upd_targets]. rewrite Hts.
    destruct (boundTargets _ _ _) eqn:Hb; [|done].
    by apply boundTargets_nil in Hb. }
  eexists _, _.
  erewrite GetForwardedAddress_no_counter;
    [|apply lookup_insert_eq|by rewrite Ht|done|exact Hcount].
  rewrite Ht. cbn [fmap option_fmap option_map]. rewrite boundTargets_values.
  split; [reflexivity|]. cbn [allowed]. subst quota.
  unfold applySet, putSetDoc. cbn [d_forwards upd_forwards].
  by destruct (JS.truthy (uf_forwards p)).
Qed.

Lemma updated_targets_read_back_witness :
  let updated :=
    run (PutForwardedAddress lowerCaseAddress
           (PutForwardedParams 12%N (Some ["bob@y.org"]) (JS.Num 0) None ∅)) calm directory in
  updated.2 = Reply 200 (SuccessJson true)
  ∧ ∃ limits autoreply,
      run (GetForwardedAddress (JS.Num 2000) (JS.Num 2000) 12%N) calm updated.1
      = (updated.1,
         Reply 200 (ForwardedJson 12%N "info@x.org" (Some ["bob@y.org"]) limits autoreply 30))
      ∧ allowed limits = JS.Num 50.
Proof.
  apply (updated_targets_read_back lowerCaseAddress (JS.Num 2000) (JS.Num 2000)
           (PutForwardedParams 12%N (Some ["bob@y.org"]) (JS.Num 0) None ∅)
           ["bob@y.org"] info directory); try reflexivity.
  - eexists; reflexivity.
  - discriminate.
  - repeat constructor.
Defined.

(** *** The first address of a user *)

(** X18.  The first address of a user becomes the user's default whether
    or not [main] is set, and the wildcard check does not stand in the
    way: it refuses a wildcard address only when [main] is set.  So for a
    user without a default, a create request with [allowWildcard] and
    without [main] makes a wildcard address the default; like every
    default it can then not be deleted. *)
Theorem first_address_becomes_default norm p w u :
  let address := norm (pu_address p) in
  let created := run (PostUserAddress norm p) calm w in
  JS.indexOf address "+" < 0 →
  wildcardError address (pu_allowWildcard p) (pu_main p) = None →
  users w !! pu_user p = Some u →
  falsy (u_address u) = true →
  findAddress (ByAddrview (addrview address)) (addresses w) = None →
  addresses w !! nextId w = None →
  created.2 = Reply 200 (CreatedJson true (nextId w))
  ∧ users created.1 !! pu_user p = Some (UserDoc (Some address))
  ∧ run (DeleteUserAddress (UserAddressParams (pu_user p) (nextId w) true)) calm created.1
    = (created.1, Reply 200 deleteMainError).
Proof.
  intros address created Hplus Hwild Hu Hfalsy Hnone Hfree. subst created.
  rewrite (PostUserAddress_calm norm p w u) by done. rewrite Hfalsy. cbn [orb fst snd].
  split; [done|]. split; [apply lookup_insert_eq|].
  apply (DeleteUserAddress_main _ calm _ (UserDoc (Some address))
           (AddrDoc (Some (pu_user p)) address (addrview address) None JS.Undefined None
              (clock w))); try done.
  - apply lookup_insert_eq.
  - apply lookup_insert_eq.
Qed.

Lemma first_address_becomes_default_witness :
  let w := World {[ 5%N := UserDoc None ]} ∅ ∅ 1000 100%N in
  let created :=
    run (PostUserAddress lowerCaseAddress (PostUserAddressParams 5%N "*@x.org" false true))
      calm w in
  created.2 = Reply 200 (CreatedJson true 100%N)
  ∧ users created.1 !! 5%N = Some (UserDoc (Some "*@x.org"))
  ∧ run (DeleteUserAddress (UserAddressParams 5%N 100%N true)) calm created.1
    = (created.1, Reply 200 deleteMainError).
Proof.
  apply (first_address_becomes_default lowerCaseAddress
           (PostUserAddressParams 5%N "*@x.org" false true)
           (World {[ 5%N := UserDoc None ]} ∅ ∅ 1000 100%N) (UserDoc None));
    reflexivity.
Defined.

(** *** The counter of a forwarded address *)

Lemma toDouble_exact n : Z.abs n <= 2 ^ 53 → JS.toDouble n = n.
Proof.
  intros Hn. unfold JS.toDouble.
  by destruct (Z.leb_spec (Z.abs n) (2 ^ 53)); [|lia].
Qed.

Lemma parseNumber_digits s n :
  JS.digits 0 s = Some n → JS.parseNumber s = JS.Num (JS.toDouble n).
Proof.
  destruct s as [|a s]; [by intros [= <-]|].
  intros H. unfold JS.parseNumber.
  assert (Ha : a ≠ "-"%char).
  { intros ->. cbn in H. discriminate. }
  rewrite H.
  destruct a as [[] [] [] [] [] [] [] []]; try done; by destruct s.
Qed.

(** X19.  With a counter for the address in the counter store, its value
    the decimal digits of a number of at most [2^53], the largest range
    in which every integer is a double, the read request reports that
    number as [used], and as [ttl] the seconds the counter has left, or
    [false] when the counter has no expiry. *)
Theorem counter_is_reported maxForwards MAX_FORWARDS i d v left n w :
  addresses w !! i = Some d →
  is_Some (d_targets d) → d_user d = None →
  counters w !! counterKey i = Some (v, left) →
  JS.digits 0 v = Some n → 0 <= n <= 2 ^ 53 →
  (∀ seconds, left = Some seconds → 0 <= seconds <= 2 ^ 53) →
  ∃ limits autoreply,
    run (GetForwardedAddress maxForwards MAX_FORWARDS i) calm w
    = (w,
       Reply 200
         (ForwardedJson i (d_address d) (List.map t_value <$> d_targets d) limits autoreply
            (d_created d)))
    ∧ used limits = JS.Num n
    ∧ ttl limits = match left with
                   | Some seconds => JS.Num seconds
                   | None => JS.Bool false
                   end.
Proof.
  intros Hd [old Hold] Hu Hcount Hdigits Hn Hleft.
  unfold GetForwardedAddress. cbn [run]. unfold call.
  cbn [calm quiet interfere fault id findAddress]. rewrite Hd.
  cbn [fmap option_fmap option_map]. rewrite Hold, Hu.
  unfold forwardedInfo. cbn [run calm quiet interfere fault id].
  unfold counterReply. rewrite Hcount. eexists _, _. rewrite Hold.
  split; [reflexivity|]. cbn [used ttl replyValue lookup list_lookup snd JS.Number].
  rewrite (parseNumber_digits v n Hdigits), toDouble_exact by lia. split.
  - unfold JS.or. cbn [JS.truthy]. by destruct (Z.eqb_spec n 0) as [->|].
  - destruct left as [seconds|]; cbn [default from_option id]; [|done].
    specialize (Hleft seconds eq_refl).
    unfold JS.or, JS.geZero. cbn [JS.truthy].
    destruct (Z.eqb_spec seconds 0) as [->|]; cbn [negb JS.Number]; [done|].
    by destruct (Z.leb_spec 0 seconds); [|lia].
Qed.

Lemma counter_is_reported_witness :
  let w :=
    World (users directory) (addresses directory)
      {[ counterKey 12%N := ("17", Some 3600) ]} 1000 100%N in
  ∃ limits autoreply,
    run (GetForwardedAddress (JS.Num 2000) (JS.Num 2000) 12%N) calm w
    = (w,
       Reply 200
         (ForwardedJson 12%N "info@x.org" (Some ["alice@x.org"; "smtp://mx.y.org:25"])
            limits autoreply 30))
    ∧ used limits = JS.Num 17
    ∧ ttl limits = JS.Num 3600.
Proof.
  apply (counter_is_reported (JS.Num 2000) (JS.Num 2000) 12%N info "17" (Some 3600) 17
           (World (users directory) (addresses directory)
              {[ counterKey 12%N := ("17", Some 3600) ]} 1000 100%N));
    try reflexivity.
  - eexists; reflexivity.
  - lia.
  - intros seconds [= <-]. lia.
Defined.

(** Beyond [2^53] the counter is reported as the nearest double: the
    counter [9007199254740993] reads as [9007199254740992]. *)
Example counter_beyond_exact_range :
  let w :=
    World (users directory) (addresses directory)
      {[ counterKey 12%N := ("9007199254740993", None) ]} 1000 100%N in
  ∃ targets limits autoreply,
    (run (GetForwardedAddress (JS.Num 2000) (JS.Num 2000) 12%N) calm w).2
    = Reply 200 (ForwardedJson 12%N "info@x.org" targets limits autoreply 30)
    ∧ used limits = JS.Num 9007199254740992.
Proof. eexists _, _, _. split; vm_compute; reflexivity. Qed.

(** *** What the autoreply normalization never does *)

Lemma onlyEmptied_insert a b k :
  onlyEmptied a b → k = "subject" ∨ k = "text" ∨ k = "html" →
  JS.truthy (field b k) = false →
  onlyEmptied a (<[k := JS.Str ""]> b).
Proof.
  intros Hb Hk Hfalse key. rewrite lookup_insert. case_decide as Heq; [|apply Hb].
  subst key. right. split; [done|]. split; [done|].
  destruct (Hb k) as [Hsame|(_ & _ & ?)]; [|done].
  unfold field in *. by rewrite <- Hsame.
Qed.

Lemma onlyEmptied_single a b k c :
  onlyEmptied a b → k = "subject" ∨ k = "text" ∨ k = "html" →
  onlyEmptied a (if negb (JS.truthy (field b k)) && c then <[k := JS.Str ""]> b else b).
Proof.
  intros Hb Hk. destruct (JS.truthy (field b k)) eqn:Hf, c; cbn [negb andb]; try done.
  by apply onlyEmptied_insert.
Qed.

Lemma onlyEmptied_pair a b k k' c :
  onlyEmptied a b →
  k = "subject" ∨ k = "text" ∨ k = "html" →
  k' = "subject" ∨ k' = "text" ∨ k' = "html" →
  onlyEmptied a
    (if negb (JS.truthy (field b k)) && c
     then
       if negb (JS.truthy (field (<[k := JS.Str ""]> b) k'))
       then <[k' := JS.Str ""]> (<[k := JS.Str ""]> b)
       else <[k := JS.Str ""]> b
     else b).
Proof.
  intros Hb Hk Hk'. destruct (JS.truthy (field b k)) eqn:Hf, c; cbn [negb andb]; try done.
  assert (Hb' : onlyEmptied a (<[k := JS.Str ""]> b)) by (by apply onlyEmptied_insert).
  destruct (JS.truthy (field (<[k := JS.Str ""]> b) k')) eqn:Hf'; cbn [negb]; [done|].
  by apply onlyEmptied_insert.
Qed.

Lemma autoreplyFields_onlyEmptied a raw : onlyEmptied a (autoreplyFields a raw).
Proof.
  unfold autoreplyFields. cbv zeta.
  apply onlyEmptied_pair; [|auto..].
  apply onlyEmptied_pair; [|auto..].
  apply onlyEmptied_single; [|auto].
  by left.
Qed.

(** X20.  The normalization of an autoreply keeps every field that has
    content with its value, adds nothing but the empty string under
    [subject], [text] or [html], and that only over a field without
    content; an autoreply whose request names none of the three keys is
    left as it was. *)
Theorem autoreply_fields_are_kept a raw :
  (∀ key v, a !! key = Some v → JS.truthy v = true →
            autoreplyFields a raw !! key = Some v)
  ∧ (∀ key,
       autoreplyFields a raw !! key = a !! key
       ∨ (autoreplyFields a raw !! key = Some (JS.Str "")
          ∧ (key = "subject" ∨ key = "text" ∨ key = "html")
          ∧ JS.truthy (field a key) = false))
  ∧ (hasKey raw "subject" = false → hasKey raw "text" = false →
     hasKey raw "html" = false → autoreplyFields a raw = a).
Proof.
  pose proof (autoreplyFields_onlyEmptied a raw) as Hkey.
  split_and!.
  - intros key v Hv Htrue. destruct (Hkey key) as [->|(_ & _ & Hfalse)]; [done|].
    unfold field in Hfalse. rewrite Hv in Hfalse. cbn in Hfalse. congruence.
  - exact Hkey.
  - intros Hs Ht Hh. unfold autoreplyFields. by rewrite Hs, Ht, Hh, !andb_false_r.
Qed.

Lemma autoreply_fields_are_kept_witness :
  autoreplyFields infoAutoreply {[ "text" := JS.Str "" ]} !! "html"
  = Some (JS.Str "<p>Back soon</p>")
  ∧ autoreplyFields infoAutoreply ∅ = infoAutoreply.
Proof.
  destruct (autoreply_fields_are_kept infoAutoreply {[ "text" := JS.Str "" ]})
    as (H1 & _ & _).
  destruct (autoreply_fields_are_kept infoAutoreply ∅) as (_ & _ & H3).
  split.
  - apply H1; reflexivity.
  - apply H3; reflexivity.
Defined.

(** *** Forwarded routes and user addresses *)



(** *** Deleting and then resolving *)

Lemma findAddress_Some (m : gmap N addrdoc) k i d :
  findAddress (ByAddrview k) m = Some (i, d) → m !! i = Some d ∧ d_addrview d = k.
Proof.
  unfold findAddress, withAddrview. intros Hfind.
  assert (Hin : (i, d) ∈ List.filter (λ p, String.eqb (d_addrview p.2) k) (map_to_list m))
    by (destruct (List.filter _ _); [done|]; injection Hfind as ->; left).
  apply list_elem_of_In, filter_In in Hin as [Hin Heq].
  apply list_elem_of_In, elem_of_map_to_list in Hin. cbn in Heq.
  by apply String.eqb_eq in Heq.
Qed.

Lemma findAddress_delete (m : gmap N addrdoc) i d :
  uniqueKeys m → m !! i = Some d →
  findAddress (ByAddrview (d_addrview d)) (delete i m) = None.
Proof.
  intros Huniq Hd.
  destruct (findAddress _ (delete i m)) as [[j dj]|] eqn:Hfind; [|done].
  apply findAddress_Some in Hfind as [Hj Hk].
  apply lookup_delete_Some in Hj as [Hne Hj].
  destruct Hne. symmetry. by apply (Huniq j i dj d).
Qed.

Lemma GetAddressInfo_unknown norm maxForwards MAX_FORWARDS a w :
  0 <= JS.indexOf a "@" →
  findAddress (ByAddrview (addrview (norm a))) (addresses w) = None →
  run (GetAddressInfo norm maxForwards MAX_FORWARDS a) calm w
  = (w, Reply 404 unknownAddress).
Proof.
  intros Hat Hnone. unfold GetAddressInfo.
  destruct (Z.leb_spec 0 (JS.indexOf a "@")); [|lia].
  cbn [run]. unfold call. cbn [calm quiet interfere fault id]. by rewrite Hnone.
Qed.

(** X22.  A deleted address is gone: in a collection with no two records
    under one key, after a successful delete of a user address, or of a
    forwarded address, the resolve request for any address with the
    record's key is answered with a 404 [AddressNotFound], and so is the
    read request for the id of the deleted forwarded address. *)
Theorem deleted_address_is_gone norm maxForwards MAX_FORWARDS w i d a :
  uniqueKeys (addresses w) →
  addresses w !! i = Some d →
  0 <= JS.indexOf a "@" →
  addrview (norm a) = d_addrview d →
  (∀ user u,
     users w !! user = Some u → d_user d = Some user →
     u_address u ≠ Some (d_address d) →
     let deleted := run (DeleteUserAddress (UserAddressParams user i true)) calm w in
     deleted.2 = Reply 200 (SuccessJson true)
     ∧ run (GetAddressInfo norm maxForwards MAX_FORWARDS a) calm deleted.1
       = (deleted.1, Reply 404 unknownAddress))
  ∧ (is_Some (d_targets d) → d_user d = None →
     let deleted := run (DeleteForwardedAddress i) calm w in
     deleted.2 = Reply 200 (SuccessJson true)
     ∧ run (GetAddressInfo norm maxForwards MAX_FORWARDS a) calm deleted.1
       = (deleted.1, Reply 404 unknownAddress)
     ∧ run (GetForwardedAddress maxForwards MAX_FORWARDS i) calm deleted.1
       = (deleted.1, Reply 404 unknownAddress)).
Proof.
  intros Huniq Hd Hat Hkey. split.
  - intros user u Hu Ho Hne. cbv zeta.
    rewrite (DeleteUserAddress_deletes user i u d w) by done. cbn [fst snd].
    split; [done|]. apply GetAddressInfo_unknown; [done|].
    rewrite Hkey. cbn [set_addresses addresses]. by apply findAddress_delete.
  - intros [old Hold] Ho. cbv zeta.
    assert (Hdel : run (DeleteForwardedAddress i) calm w
                   = (set_addresses (delete i) w, Reply 200 (SuccessJson true))).
    { unfold DeleteForwardedAddress. cbn [run]. unfold call.
      cbn [calm quiet interfere fault id findAddress]. rewrite Hd.
      cbn [fmap option_fmap option_map]. rewrite Hold, Ho.
      cbn [run]. unfold call, deleteAddress. cbn [calm quiet interfere fault id].
      by rewrite Hd. }
    rewrite Hdel. cbn [fst snd]. split; [done|]. split.
    + apply GetAddressInfo_unknown; [done|].
      rewrite Hkey. cbn [set_addresses addresses]. by apply findAddress_delete.
    + unfold GetForwardedAddress. cbn [run]. unfold call.
      cbn [calm quiet interfere fault id findAddress set_addresses addresses].
      by rewrite lookup_delete_eq.
Qed.

Lemma deleted_address_is_gone_witness :
  (let deleted := run (DeleteUserAddress (UserAddressParams alice 11%N true)) calm directory in
   deleted.2 = Reply 200 (SuccessJson true)
   ∧ run (GetAddressInfo lowerCaseAddress (JS.Num 2000) (JS.Num 2000) "A.b@x.org") calm
       deleted.1
     = (deleted.1, Reply 404 unknownAddress))
  ∧ (let deleted := run (DeleteForwardedAddress 12%N) calm directory in
     deleted.2 = Reply 200 (SuccessJson true)
     ∧ run (GetAddressInfo lowerCaseAddress (JS.Num 2000) (JS.Num 2000) "info@x.org") calm
         deleted.1
       = (deleted.1, Reply 404 unknownAddress)
     ∧ run (GetForwardedAddress (JS.Num 2000) (JS.Num 2000) 12%N) calm deleted.1
       = (deleted.1, Reply 404 unknownAddress)).
Proof.
  split.
  - destruct (deleted_address_is_gone lowerCaseAddress (JS.Num 2000) (JS.Num 2000)
                directory 11%N aliceAlias "A.b@x.org") as [H _];
      [apply directory_unique_keys|reflexivity|vm_compute; discriminate|reflexivity|].
    apply (H alice (UserDoc (Some "alice@x.org"))); [reflexivity|reflexivity|].
    vm_compute. discriminate.
  - destruct (deleted_address_is_gone lowerCaseAddress (JS.Num 2000) (JS.Num 2000)
                directory 12%N info "info@x.org") as [_ H];
      [apply directory_unique_keys|reflexivity|vm_compute; discriminate|reflexivity|].
    apply H; [eexists; reflexivity|reflexivity].
Defined.

(** *** Reading the addresses of a user *)

Lemma GetUserAddress_run user a u w :
  users w !! user = Some u →
  runReading (GetUserAddress user a) calm w
  = (w,
     match findOwned a user (addresses w) with
     | Some p => (200, AddressJson (entryOf u p))
     | None => (404, ReadError "Invalid or unknown address" (Some "AddressNotFound"))
     end).
Proof.
  intros Hu. unfold GetUserAddress. cbn [runReading]. unfold call.
  cbn [calm quiet interfere fault id]. rewrite Hu.
  cbn [runReading]. unfold call. cbn [calm quiet interfere fault id].
  by destruct (findOwned a user (addresses w)).
Qed.

(** X23.  The read of one address of a user shows only that user's
    records: an id that is unknown, a forwarded address or an address of
    another user is answered with a 404, a record of the user with its
    id, address and creation time.  Its [main] flag tells what a delete
    request will do: [main] is true exactly when the delete request for
    the record is refused as the deletion of the main address, and when it
    is false the delete request succeeds. *)
Theorem user_address_read user a u w :
  users w !! user = Some u →
  ((¬ ∃ d, addresses w !! a = Some d ∧ d_user d = Some user) →
   runReading (GetUserAddress user a) calm w
   = (w, (404, ReadError "Invalid or unknown address" (Some "AddressNotFound"))))
  ∧ (∀ d, addresses w !! a = Some d → d_user d = Some user →
       ∃ main,
         runReading (GetUserAddress user a) calm w
         = (w, (200, AddressJson (AddressEntry a (d_address d) main (d_created d))))
         ∧ (main = true ↔
            run (DeleteUserAddress (UserAddressParams user a true)) calm w
            = (w, Reply 200 deleteMainError))
         ∧ (main = false ↔
            run (DeleteUserAddress (UserAddressParams user a true)) calm w
            = (set_addresses (delete a) w, Reply 200 (SuccessJson true)))).
Proof.
  intros Hu. split.
  - intros Hnot. rewrite (GetUserAddress_run user a u w Hu). unfold findOwned.
    destruct (addresses w !! a) as [d|] eqn:Hd; [|done].
    destruct (bool_decide_reflect (d_user d = Some user)); [|done].
    destruct Hnot. by exists d.
  - intros d Hd Ho. rewrite (GetUserAddress_run user a u w Hu). unfold findOwned.
    rewrite Hd, bool_decide_eq_true_2 by done.
    exists (bool_decide (Some (d_address d) = u_address u)). split; [done|].
    destruct (bool_decide_reflect (Some (d_address d) = u_address u)) as [Heq|Hne].
    + rewrite (DeleteUserAddress_main (UserAddressParams user a true) calm w u d) by done.
      split; split; try done; by intros [= ? ?].
    + rewrite (DeleteUserAddress_deletes user a u d w) by (try done; congruence).
      split; split; try done; by intros [= ? ?].
Qed.

Lemma user_address_read_witness :
  runReading (GetUserAddress alice 12%N) calm directory
  = (directory, (404, ReadError "Invalid or unknown address" (Some "AddressNotFound")))
  ∧ ∃ main,
      runReading (GetUserAddress alice 10%N) calm directory
      = (directory, (200, AddressJson (AddressEntry 10%N "alice@x.org" main 10)))
      ∧ (main = true ↔
         run (DeleteUserAddress (UserAddressParams alice 10%N true)) calm directory
         = (directory, Reply 200 deleteMainError))
      ∧ (main = false ↔
         run (DeleteUserAddress (UserAddressParams alice 10%N true)) calm directory
         = (set_addresses (delete 10%N) directory, Reply 200 (SuccessJson true))).
Proof.
  destruct (user_address_read alice 12%N (UserDoc (Some "alice@x.org")) directory eq_refl)
    as [H1 _].
  destruct (user_address_read alice 10%N (UserDoc (Some "alice@x.org")) directory eq_refl)
    as [_ H2].
  split.
  - apply H1. intros (d & Hd & Ho). vm_compute in Hd. injection Hd as <-. discriminate.
  - apply (H2 aliceMain); reflexivity.
Defined.

Lemma elem_of_findByUser user (m : gmap N addrdoc) i d :
  (i, d) ∈ findByUser user m ↔ m !! i = Some d ∧ d_user d = Some user.
Proof.
  unfold findByUser. rewrite merge_sort_Permutation.
  rewrite list_elem_of_In, filter_In, <- list_elem_of_In, elem_of_map_to_list. cbn.
  by rewrite bool_decide_eq_true.
Qed.

Lemma NoDup_fst_filter {A B} (p : A * B → bool) (l : list (A * B)) :
  NoDup (l.*1) → NoDup ((List.filter p l).*1).
Proof.
  induction l as [|x l IH]; [done|]. cbn [fmap list_fmap List.filter].
  intros [Hx Hl]%NoDup_cons. destruct (p x); [|auto].
  cbn [fmap list_fmap]. apply NoDup_cons. split; [|auto].
  intros Hin. apply Hx. apply list_elem_of_fmap in Hin as (y & -> & Hy).
  apply list_elem_of_fmap. exists y. split; [done|].
  apply list_elem_of_In, filter_In in Hy as [Hy _]. by apply list_elem_of_In.
Qed.

Lemma NoDup_findByUser user (m : gmap N addrdoc) : NoDup ((findByUser user m).*1).
Proof.
  unfold findByUser. rewrite merge_sort_Permutation.
  apply NoDup_fst_filter, NoDup_fst_map_to_list.
Qed.

Lemma Sorted_findByUser user (m : gmap N addrdoc) : Sorted keyOrder (findByUser user m).
Proof.
  unfold findByUser. apply Sorted_merge_sort.
  intros x y. unfold keyOrder. apply String.le_total.
Qed.

(** X24.  The listing of a user's addresses holds exactly the records
    owned by that user, each once, in ascending order of their keys, with
    the record's id, address and creation time; [main] is true exactly on
    the entries whose address is the user's default, and in a collection
    whose records carry the keys of their addresses, no two under one key,
    at most one entry is [main].  Each entry is what the read of that one
    address answers. *)
Theorem user_addresses_listing user u w :
  users w !! user = Some u →
  ∃ records,
    runReading (GetUserAddresses user) calm w
    = (w, (200, AddressesJson (entryOf u <$> records)))
    ∧ (∀ i d, (i, d) ∈ records ↔ addresses w !! i = Some d ∧ d_user d = Some user)
    ∧ NoDup (e_id <$> (entryOf u <$> records))
    ∧ Sorted keyOrder records
    ∧ (∀ e, e ∈ entryOf u <$> records →
         (e_main e = true ↔ u_address u = Some (e_address e))
         ∧ runReading (GetUserAddress user (e_id e)) calm w = (w, (200, AddressJson e)))
    ∧ (keyed (addresses w) → uniqueKeys (addresses w) →
       ∀ e e', e ∈ entryOf u <$> records → e' ∈ entryOf u <$> records →
               e_main e = true → e_main e' = true → e = e').
Proof.
  intros Hu. exists (findByUser user (addresses w)). split_and!.
  - unfold GetUserAddresses. cbn [runReading]. unfold call.
    cbn [calm quiet interfere fault id]. rewrite Hu.
    cbn [runReading]. unfold call. by cbn [calm quiet interfere fault id].
  - intros i d. apply elem_of_findByUser.
  - rewrite <- list_fmap_compose.
    replace (e_id ∘ entryOf u) with (fst : N * addrdoc → N) by done.
    apply NoDup_findByUser.
  - apply Sorted_findByUser.
  - intros e (p & -> & Hp)%list_elem_of_fmap. destruct p as [i d].
    apply elem_of_findByUser in Hp as [Hd Ho]. split.
    + unfold entryOf. cbn [e_main e_address fst snd]. rewrite bool_decide_eq_true.
      split; congruence.
    + rewrite (GetUserAddress_run user _ u w Hu). unfold findOwned.
      cbn [entryOf e_id fst]. by rewrite Hd, bool_decide_eq_true_2.
  - intros Hkeyed Huniq e e' (p & -> & Hp)%list_elem_of_fmap
      (p' & -> & Hp')%list_elem_of_fmap.
    destruct p as [i d], p' as [i' d'].
    apply elem_of_findByUser in Hp as [Hd Ho].
    apply elem_of_findByUser in Hp' as [Hd' Ho'].
    unfold entryOf. cbn [e_main fst snd]. rewrite !bool_decide_eq_true.
    intros Hm Hm'.
    assert (Ha : d_address d = d_address d') by congruence.
    assert (i = i') as ->.
    { apply (Huniq i i' d d'); try done.
      by rewrite (Hkeyed i d Hd), (Hkeyed i' d' Hd'), Ha. }
    rewrite Hd in Hd'. by injection Hd' as ->.
Qed.

Lemma user_addresses_listing_witness :
  ∃ records,
    runReading (GetUserAddresses alice) calm directory
    = (directory,
       (200, AddressesJson (entryOf (UserDoc (Some "alice@x.org")) <$> records)))
    ∧ ∀ i d, (i, d) ∈ records ↔ addresses directory !! i = Some d ∧ d_user d = Some alice.
Proof.
  destruct (user_addresses_listing alice (UserDoc (Some "alice@x.org")) directory eq_refl)
    as (records & Hrun & Hin & _).
  exists records. by split.
Defined.

Example listing_of_alice :
  runReading (GetUserAddresses alice) calm directory
  = (directory,
     (200,
      AddressesJson
        [AddressEntry 11%N "a.b@x.org" false 20; AddressEntry 10%N "alice@x.org" true 10])).
Proof. vm_compute. reflexivity. Qed.

(** *** The first target that fails *)

Lemma targetsLoop_app norm self pre rest :
  Forall (λ t, passes norm self t = true) pre →
  ∀ seen al k env w,
    run (targetsLoop norm self (pre ++ rest) seen al k) env w
    = run (targetsLoop norm self rest (seen ++ descriptors norm (nextId w) pre)
             (al ++ mailKeys norm pre) k)
        env (afterTargets pre w).
Proof.
  unfold afterTargets.
  induction 1 as [|t ts Ht _ IH]; intros seen al k env w.
  - cbn [app descriptors length N.of_nat]. unfold mailKeys. cbn.
    by rewrite !app_nil_r, afterIds_0.
  - cbn [app targetsLoop descriptors].
    change (negb (JS.isSmtp t) && negb (JS.isHttp t) && (0 <=? JS.indexOf t "@"))
      with (isMailTarget t).
    replace (afterIds (N.of_nat (length (t :: ts))) w)
      with (afterIds (N.of_nat (length ts)) (afterIds 1 w))
      by (rewrite afterIds_afterIds; f_equal; cbn [length]; lia).
    unfold mailKeys. cbn [List.filter].
    destruct (passes_inv _ _ _ Ht) as [[Hm Hs]|[Hm [Hr|[Hr Hh]]]]; rewrite Hm.
    + fold (targetKey norm t). rewrite Hs. cbn [run].
      rewrite set_nextId_afterIds, IH. cbn [fmap list_fmap].
      by rewrite <- !app_assoc.
    + rewrite Hr. cbn [run]. rewrite set_nextId_afterIds, IH.
      by rewrite <- !app_assoc.
    + rewrite Hr, Hh. cbn [run]. rewrite set_nextId_afterIds, IH.
      by rewrite <- !app_assoc.
Qed.

(** X25.  The loop over the targets stops at the first target that does
    not pass, and the response names that target: a mail target with the
    key of the forwarding address is answered as a forward to self, a text
    that is no mail address and no smtp(s) or http(s) URL as an unknown
    target type.  The targets after it are not looked at, the store is not
    called, and ids have been handed out to the targets before it only. *)
Theorem first_failing_target norm self pre t post seen al k env w :
  Forall (λ s, passes norm self s = true) pre →
  passes norm self t = false →
  run (targetsLoop norm self (pre ++ t :: post) seen al k) env w
  = (afterTargets pre w,
     Reply 200 (if isMailTarget t then forwardToSelf t else unknownTarget t)).
Proof.
  intros Hpre Ht. rewrite (targetsLoop_app _ _ _ _ Hpre). cbn [targetsLoop].
  change (negb (JS.isSmtp t) && negb (JS.isHttp t) && (0 <=? JS.indexOf t "@"))
    with (isMailTarget t).
  unfold passes, knownTarget, selfTarget in Ht. fold (targetKey norm t).
  destruct (isMailTarget t).
  - by destruct (String.eqb (targetKey norm t) self).
  - destruct (JS.isSmtp t); [done|]. by destruct (JS.isHttp t).
Qed.

Lemma first_failing_target_witness :
  run (PostForwardedAddress lowerCaseAddress
         (PostForwardedParams "info2@x.org" (Some ["bob@y.org"; "ftp://y.org"; "INFO2@x.org"])
            (JS.Num 0) false None ∅)) calm directory
  = (afterIds 1 directory, Reply 200 (unknownTarget "ftp://y.org")).
Proof.
  unfold PostForwardedAddress. cbn [pf_targets pf_address].
  apply (first_failing_target lowerCaseAddress _ ["bob@y.org"] "ftp://y.org" ["INFO2@x.org"]).
  - repeat constructor.
  - reflexivity.
Defined.

(** *** Promotions that are refused *)

(** X26.  A promote request without [main] is refused before any store
    call, with [Cannot unset main status]: a default cannot be taken away.
    A promote request for a record of the user whose address contains a
    [*], and is not the default already, is refused with
    [Can not set wildcard address as default]; the world is left as it
    was. *)
Theorem promotions_refused :
  (∀ p env w,
     ua_main p = false →
     run (PutUserAddress p) env w
     = (w, Reply 200 (ErrorJson "Cannot unset main status" None)))
  ∧ (∀ p w u d,
     ua_main p = true →
     users w !! ua_user p = Some u →
     addresses w !! ua_address p = Some d →
     d_user d = Some (ua_user p) →
     u_address u ≠ Some (d_address d) →
     0 <= JS.indexOf (d_address d) "*" →
     run (PutUserAddress p) calm w
     = (w, Reply 200 (ErrorJson "Can not set wildcard address as default" None))).
Proof.
  split.
  - intros p env w Hmain. unfold PutUserAddress. by rewrite Hmain.
  - intros p w u d Hmain Hu Hd Ho Hne Hstar.
    unfold PutUserAddress. rewrite Hmain. cbn [negb run].
    unfold call. cbn [calm quiet interfere fault id]. rewrite Hu.
    cbn [run]. unfold call. cbn [calm quiet interfere fault id findAddress].
    rewrite Hd. cbn [fmap option_fmap option_map].
    rewrite Ho, N.eqb_refl. cbn [negb].
    rewrite bool_decide_eq_false_2 by congruence.
    by destruct (Z.leb_spec 0 (JS.indexOf (d_address d) "*")); [|lia].
Qed.

Lemma promotions_refused_witness :
  run (PutUserAddress (UserAddressParams alice 11%N false)) trackerDown directory
  = (directory, Reply 200 (ErrorJson "Cannot unset main status" None))
  ∧ (let w :=
       set_addresses
         (insert 13%N (AddrDoc (Some alice) "*@y.org" "*@y.org" None JS.Undefined None 40))
         directory in
     run (PutUserAddress (UserAddressParams alice 13%N true)) calm w
     = (w, Reply 200 (ErrorJson "Can not set wildcard address as default" None))).
Proof.
  destruct promotions_refused as [H1 H2]. split.
  - by apply H1.
  - apply (H2 (UserAddressParams alice 13%N true) _ (UserDoc (Some "alice@x.org"))
             (AddrDoc (Some alice) "*@y.org" "*@y.org" None JS.Undefined None 40));
      first [reflexivity | discriminate | (vm_compute; discriminate)].
Defined.

(** *** The two reads of a forwarded address *)

(** X27.  The resolve request agrees with the read of a forwarded
    address: given the hexadecimal id of a record that is a forwarded
    address, or an address whose key is that of the record, it answers as
    the read request for that id does, in every environment: the same
    response, store failure or counter values included, and the same
    world. *)
Theorem resolve_agrees_with_read norm maxForwards MAX_FORWARDS i d env w :
  let w1 := interfere (env addressesFindOne) w in
  addresses w1 !! i = Some d →
  d_user d = None → is_Some (d_targets d) →
  (∀ s, JS.indexOf s "@" < 0 → ObjectID s = i →
        run (GetAddressInfo norm maxForwards MAX_FORWARDS s) env w
        = run (GetForwardedAddress maxForwards MAX_FORWARDS i) env w)
  ∧ (∀ a, 0 <= JS.indexOf a "@" →
          findAddress (ByAddrview (addrview (norm a))) (addresses w1) = Some (i, d) →
          run (GetAddressInfo norm maxForwards MAX_FORWARDS a) env w
          = run (GetForwardedAddress maxForwards MAX_FORWARDS i) env w).
Proof.
  intros w1 Hd Hu [old Hold]. split.
  - intros s Hs <-. unfold GetAddressInfo, GetForwardedAddress.
    destruct (Z.leb_spec 0 (JS.indexOf s "@")); [lia|].
    cbn [run]. unfold call. destruct (fault (env addressesFindOne)); [done|].
    fold w1. cbn [findAddress]. rewrite Hd. cbn [fmap option_fmap option_map].
    by rewrite Hu, Hold.
  - intros a Ha Hfind. unfold GetAddressInfo, GetForwardedAddress.
    destruct (Z.leb_spec 0 (JS.indexOf a "@")); [|lia].
    cbn [run]. unfold call. destruct (fault (env addressesFindOne)); [done|].
    fold w1. rewrite Hfind. cbn [findAddress]. rewrite Hd.
    cbn [fmap option_fmap option_map]. by rewrite Hu, Hold.
Qed.

Lemma resolve_agrees_with_read_witness :
  run (GetAddressInfo lowerCaseAddress (JS.Num 2000) (JS.Num 2000) "00000000000000000000000c")
    trackerDown directory
  = run (GetForwardedAddress (JS.Num 2000) (JS.Num 2000) 12%N) trackerDown directory
  ∧ run (GetAddressInfo lowerCaseAddress (JS.Num 2000) (JS.Num 2000) "In.fo@x.org")
      calm directory
    = run (GetForwardedAddress (JS.Num 2000) (JS.Num 2000) 12%N) calm directory.
Proof.
  split.
  - destruct (resolve_agrees_with_read lowerCaseAddress (JS.Num 2000) (JS.Num 2000)
                12%N info trackerDown directory) as [H _];
      [reflexivity|reflexivity|eexists; reflexivity|].
    apply H; vm_compute; reflexivity.
  - destruct (resolve_agrees_with_read lowerCaseAddress (JS.Num 2000) (JS.Num 2000)
                12%N info calm directory) as [_ H];
      [reflexivity|reflexivity|eexists; reflexivity|].
    apply H; [vm_compute; discriminate|vm_compute; reflexivity].
Defined.

(** *** A key that is taken stays taken *)

(** X28.  Once an address has been created, its key is taken: a second
    create request, for a user address or for a forwarded address, whose
    address has the same canonical key is answered with [AddressExists]
    and changes nothing (but the ids handed to the targets of a forwarded
    request). *)
Theorem created_key_is_taken norm p w u :
  let address := norm (pu_address p) in
  let created := run (PostUserAddress norm p) calm w in
  JS.indexOf address "+" < 0 →
  wildcardError address (pu_allowWildcard p) (pu_main p) = None →
  users w !! pu_user p = Some u →
  findAddress (ByAddrview (addrview address)) (addresses w) = None →
  addresses w !! nextId w = None →
  created.2 = Reply 200 (CreatedJson true (nextId w))
  ∧ (∀ q v,
       let second := norm (pu_address q) in
       addrview second = addrview address →
       JS.indexOf second "+" < 0 →
       wildcardError second (pu_allowWildcard q) (pu_main q) = None →
       users created.1 !! pu_user q = Some v →
       run (PostUserAddress norm q) calm created.1 = (created.1, Reply 200 addressExists))
  ∧ (∀ q ts,
       let second := norm (pf_address q) in
       addrview second = addrview address →
       pf_targets q = Some ts →
       Forall (λ t, passes norm (addrview second) t = true) ts →
       JS.indexOf second "+" < 0 →
       wildcardError second (pf_allowWildcard q) false = None →
       run (PostForwardedAddress norm q) calm created.1
       = (afterTargets ts created.1, Reply 200 addressExists)).
Proof.
  intros address created Hplus Hwild Hu Hnone Hfree. subst created.
  rewrite (PostUserAddress_calm norm p w u) by done. cbn [fst snd].
  set (doc := AddrDoc (Some (pu_user p)) address (addrview address) None JS.Undefined
                None (clock w)).
  set (w' := set_users _ _).
  assert (Htaken : findAddress (ByAddrview (addrview address)) (addresses w')
                   = Some (nextId w, doc)).
  { subst w'. cbn [set_users set_addresses addresses].
    by apply (findAddress_insert_fresh (addresses w) (nextId w) doc). }
  split; [done|]. split.
  - intros q v Hkey Hplus2 Hwild2 Hv.
    apply (PostUserAddress_exists norm q calm w' v (nextId w, doc)); try done.
    cbn [calm quiet interfere id]. by rewrite Hkey.
  - intros q ts Hkey Hts Hpass Hplus2 Hwild2.
    apply (PostForwardedAddress_exists norm q ts calm w' (nextId w, doc)); try done.
    cbn [calm quiet interfere id]. rewrite Hkey.
    unfold afterTargets. by rewrite addresses_afterIds.
Qed.

Lemma created_key_is_taken_witness :
  let created :=
    run (PostUserAddress lowerCaseAddress
           (PostUserAddressParams alice "jo.doe@x.org" false false)) calm directory in
  run (PostUserAddress lowerCaseAddress
         (PostUserAddressParams alice "J.O.Doe@x.org" true false)) calm created.1
  = (created.1, Reply 200 addressExists).
Proof.
  intros created.
  assert (H := created_key_is_taken lowerCaseAddress
              (PostUserAddressParams alice "jo.doe@x.org" false false) directory
              (UserDoc (Some "alice@x.org")) eq_refl eq_refl eq_refl eq_refl eq_refl).
  destruct H as (_ & H & _).
  apply (H (PostUserAddressParams alice "J.O.Doe@x.org" true false)
           (UserDoc (Some "alice@x.org"))); reflexivity.
Defined.

(** *** A quota of 0 in an update *)






